(** * wevi-sync: the synchronization engine, embedded and verified

    A shallow embedding of the transfer primitive (upload-xhr.js), the
    download helper, the push worker pool (upload-helper.js), the
    "Pull All" loop and the .prproj patcher (main.js) and the lock
    endpoints of the admin server (server.js).

    Conventions.  JavaScript numbers that hold byte counts, HTTP statuses
    and milliseconds are [Z].  Everything the code obtains from outside
    (HTTP responses, [Math.random], the local file, user clicks) is an
    explicit oracle of the model; every request the code issues is
    appended to a log, so that "which requests were sent" is a statement
    about a value. *)

From Stdlib Require Import ZArith QArith Qround Lia Ascii String.
From stdpp Require Import gmap strings list fin_maps.

Local Open Scope Z_scope.

(** ** upload-xhr.js: constants and retry helpers *)

Module Retry.

Definition DRIVE_RESUMABLE_THRESHOLD : Z := 8 * 1024 * 1024.
Definition DRIVE_CHUNK_SIZE : Z := 8 * 1024 * 1024.
Definition DRIVE_MAX_RETRIES : Z := 4.

(** The object built by [createUploadError]; a plain [new Error(..)]
    (or the [TypeError] of a rejected [fetch]) has no [retriable] and
    no [retryAfterMs] property, which the code reads as falsy. *)
Record UploadError := createUploadError {
  message : string;
  status : option Z;
  retriable : bool;
  retryAfterMs : option Z
}.

Definition plainError (msg : string) : UploadError :=
  createUploadError msg None false None.

(** [getRetryAfterMs]: the argument is what [parseInt] reads from the
    [Retry-After] header, [None] when the header is absent, empty or
    not numeric. *)
Definition getRetryAfterMs (retryAfter : option Z) : option Z :=
  match retryAfter with
  | Some seconds => if 0 <=? seconds then Some (seconds * 1000) else None
  | None => None
  end.

Definition shouldRetryStatus (st : Z) : bool :=
  (st =? 408) || (st =? 429) || (st =? 500) || (st =? 502)
  || (st =? 503) || (st =? 504).

(** [Math.floor(Math.random() * 500)], the random number being the
    rational [rnd]. *)
Definition jitterOf (rnd : Q) : Z := Qfloor (rnd * (500 # 1))%Q.

Definition backoffBase (attempt : Z) : Z :=
  Z.min 30000 (1000 * 2 ^ (attempt - 1)).

(** [explicitRetryAfterMs && explicitRetryAfterMs > 0]: [null] and [0]
    are falsy. *)
Definition buildRetryDelayMs (attempt : Z) (explicitRetryAfterMs : option Z)
           (rnd : Q) : Z :=
  match explicitRetryAfterMs with
  | Some ms => if 0 <? ms then ms else backoffBase attempt + jitterOf rnd
  | None => backoffBase attempt + jitterOf rnd
  end.

Definition getDynamicTimeoutMs (byteLength : Z) : Z :=
  let minTimeout := 10 * 60 * 1000 in
  let maxTimeout := 2 * 60 * 60 * 1000 in
  (* Math.ceil(byteLength / (0.5 * 1024 * 1024)) * 1000 *)
  let estimated := ((byteLength + 524287) / 524288) * 1000 in
  Z.min maxTimeout (Z.max minTimeout estimated).

End Retry.

(** ** The outside world of one transfer *)

Module Net.
Import Retry.

(** The event an [XMLHttpRequest] ends with.  [body] is the parsed
    [responseText]: [None] when it is empty or not JSON, [Some i] when
    it parses to an object whose [id] property is [i]. *)
Inductive XhrEvent :=
| XhrLoad (st : Z) (retryAfter : option Z) (body : option (option string))
| XhrError
| XhrAbort
| XhrTimeout.

(** What an awaited [fetch] gives: a response with [res.ok], a response
    without, or a rejection (network failure), which is a [TypeError]
    and not an object of [createUploadError]. *)
Inductive FetchResponse (A : Type) :=
| FetchOk (body : A)
| FetchNotOk (st : Z) (retryAfter : option Z)
| FetchRejected.
Arguments FetchOk {A} body.
Arguments FetchNotOk {A} st retryAfter.
Arguments FetchRejected {A}.

(** An entry of [files(id,size,md5Checksum,modifiedTime)]. *)
Record DriveFile := {
  df_id : string;
  df_md5Checksum : option string
}.

(** [fileInput]: a string or [Uint8Array] payload, abstracted to its
    byte length, or [{ filePath, size }]. *)
Inductive FileInput :=
| Content (byteLength : Z)
| PathInput (filePath : string) (size : option Z).

Record Env := {
  validToken : option string;               (* GoogleDrive.getValidToken() *)
  searchResponse : FetchResponse (list DriveFile);
  createResponse : FetchResponse string;    (* POST files: the new id *)
  sessionResponse : nat -> FetchResponse (option string);
                                            (* n-th resumable start: Location *)
  xhrEvent : nat -> XhrEvent;               (* how the n-th XHR ends *)
  mathRandom : nat -> Q;                    (* n-th Math.random() *)
  requireDefined : bool;                    (* typeof require !== 'undefined' *)
  localFile : option Z;                     (* bytes of the file at filePath;
                                               None: it cannot be opened *)
  md5Digest : option string                 (* digest of the payload; None:
                                               reading or hashing throws *)
}.

(** Every request sent and every [sleep], in order. *)
Inductive Event :=
| EvSearch (fileName folderId : string)
| EvCreateMetadata (fileName folderId : string)
| EvSessionStart (fileId mimeType : string) (totalSize : Z)
| EvPutChunk (rangeStart rangeEnd rangeTotal : Z) (resp : XhrEvent)
| EvPatchMedia (fileId : string) (byteLength : Z) (resp : XhrEvent)
| EvSleep (ms : Z).

Record World := mkWorld {
  xhrSent : nat;
  sessionsStarted : nat;
  randomsDrawn : nat;
  log : list Event
}.

Definition world0 : World := mkWorld 0 0 0 [].

Inductive Outcome (A : Type) :=
| Returned (a : A)
| Thrown (e : UploadError)
| OutOfFuel.
Arguments Returned {A} a.
Arguments Thrown {A} e.
Arguments OutOfFuel {A}.

(** An async function body: it runs from a world to an outcome and the
    world it leaves. *)
Definition M (A : Type) : Type := World -> Outcome A * World.

Definition ret {A} (a : A) : M A := fun w => (Returned a, w).
Definition throw {A} (e : UploadError) : M A := fun w => (Thrown e, w).
Definition outOfFuel {A} : M A := fun w => (OutOfFuel, w).

Definition bind {A B} (m : M A) (k : A -> M B) : M B :=
  fun w =>
    match m w with
    | (Returned a, w') => k a w'
    | (Thrown e, w') => (Thrown e, w')
    | (OutOfFuel, w') => (OutOfFuel, w')
    end.

(** [try { m } catch (err) { handler err }] *)
Definition tryCatch {A} (m : M A) (handler : UploadError -> M A) : M A :=
  fun w =>
    match m w with
    | (Thrown e, w') => handler e w'
    | r => r
    end.

Definition emit (e : Event) : M unit :=
  fun w => (Returned tt,
            mkWorld (xhrSent w) (sessionsStarted w) (randomsDrawn w)
                    (log w ++ [e])).

Definition sleep (ms : Z) : M unit := emit (EvSleep ms).

Declare Scope js_scope.
Delimit Scope js_scope with js.
Notation "'let*' x ':=' m 'in' k" := (bind m (fun x => k))
  (at level 10, x name, m at level 100, k at level 200) : js_scope.

Definition truthy (s : string) : bool := negb (String.eqb s "").

Definition orElse (s dflt : string) : string :=
  if truthy s then s else dflt.

Definition is2xx (st : Z) : bool := (200 <=? st) && (st <? 300).

End Net.

(** ** upload-xhr.js: the transfer primitive *)

Module UploadXhr.
Import Retry Net.
Local Open Scope js_scope.

Record UploadResult := {
  id : string;
  skipped : bool;
  reason : option string
}.

Record ChunkResult := {
  done : bool;
  chunk_id : option string     (* parsed?.id || null *)
}.

Definition parsedId (body : option (option string)) : option string :=
  match body with
  | Some (Some i) => if truthy i then Some i else None
  | _ => None
  end.

(** The [load], [error], [abort] and [timeout] listeners of
    [putResumableChunk]: 308 = resume incomplete, 2xx = complete. *)
Definition chunkListeners (ev : XhrEvent) : UploadError + ChunkResult :=
  match ev with
  | XhrLoad st ra body =>
      if (st =? 308) || is2xx st then
        inr {| done := is2xx st; chunk_id := parsedId body |}
      else
        inl (createUploadError "Chunk upload failed" (Some st)
               (shouldRetryStatus st) (getRetryAfterMs ra))
  | XhrError =>
      inl (createUploadError "Network error during chunk upload"
             None true None)
  | XhrAbort =>
      inl (createUploadError "Chunk upload aborted" None false None)
  | XhrTimeout =>
      inl (createUploadError "Chunk upload timed out" (Some 408) true None)
  end.

(** The listeners of [simpleUploadAttempt]. *)
Definition simpleListeners (fileId : string) (ev : XhrEvent)
  : UploadError + UploadResult :=
  match ev with
  | XhrLoad st ra body =>
      if is2xx st then
        match body with
        | Some response =>
            inr {| id := match parsedId (Some response) with
                         | Some i => i | None => fileId end;
                   skipped := false; reason := None |}
        | None =>
            inl (createUploadError "Failed to parse upload response"
                   (Some st) false None)
        end
      else
        inl (createUploadError "Upload failed" (Some st)
               (shouldRetryStatus st) (getRetryAfterMs ra))
  | XhrError =>
      inl (createUploadError "Network error uploading" None true None)
  | XhrAbort =>
      inl (createUploadError "Upload aborted" None false None)
  | XhrTimeout =>
      inl (createUploadError "Upload timed out" (Some 408) true None)
  end.

Definition usesExplicitDelay (explicitRetryAfterMs : option Z) : bool :=
  match explicitRetryAfterMs with
  | Some ms => 0 <? ms
  | None => false
  end.

Section WithEnv.
Variable env : Env.

(** [new Promise((resolve, reject) => { xhr ... xhr.send(..) })]: the
    request goes out, the next event of the world comes back and the
    listeners settle the promise. *)
Definition sendXhr {A} (request : XhrEvent -> Event)
           (listeners : XhrEvent -> UploadError + A) : M A :=
  fun w =>
    let ev := xhrEvent env (xhrSent w) in
    (match listeners ev with
     | inl e => Thrown e
     | inr a => Returned a
     end,
     mkWorld (S (xhrSent w)) (sessionsStarted w) (randomsDrawn w)
             (log w ++ [request ev])).

(** [buildRetryDelayMs] with the next number of [Math.random]; the
    call draws one only on the backoff branch. *)
Definition retryDelay (attempt : Z) (explicitRetryAfterMs : option Z)
  : M Z :=
  fun w =>
    (Returned (buildRetryDelayMs attempt explicitRetryAfterMs
                 (mathRandom env (randomsDrawn w))),
     if usesExplicitDelay explicitRetryAfterMs then w
     else mkWorld (xhrSent w) (sessionsStarted w)
                  (S (randomsDrawn w)) (log w)).

(** The three retry loops of the file have one shape:
<<
  for (let attempt = 1; attempt <= DRIVE_MAX_RETRIES; attempt++) {
      try { ... await action ... }
      catch (err) {
          if (attempt >= DRIVE_MAX_RETRIES || !err.retriable) throw err;
          const waitMs = buildRetryDelayMs(attempt, err.retryAfterMs);
          await sleep(waitMs);
      }
  }
>>
    [retryLoop] returns [Some r] when an attempt succeeds and [None]
    when the loop is left by its condition. *)
Fixpoint retryLoop {A} (fuel : nat) (attempt : Z) (action : M A)
  : M (option A) :=
  match fuel with
  | O => outOfFuel
  | S fuel' =>
      if attempt <=? DRIVE_MAX_RETRIES then
        tryCatch
          (let* r := action in ret (Some r))
          (fun err =>
             if (DRIVE_MAX_RETRIES <=? attempt) || negb (retriable err)
             then throw err
             else
               let* waitMs := retryDelay attempt (retryAfterMs err) in
               let* _ := sleep waitMs in
               retryLoop fuel' (attempt + 1) action)
      else ret None
  end.

Definition retryFuel : nat := Z.to_nat DRIVE_MAX_RETRIES.

Definition createResumableSession (fileName mimeType fileId : string)
           (totalSize : Z) : M string :=
  fun w =>
    let w' := mkWorld (xhrSent w) (S (sessionsStarted w)) (randomsDrawn w)
                      (log w ++ [EvSessionStart fileId mimeType totalSize]) in
    match sessionResponse env (sessionsStarted w) with
    | FetchRejected => (Thrown (plainError "Failed to fetch"), w')
    | FetchNotOk st ra =>
        (Thrown (createUploadError "Failed to start resumable upload"
                   (Some st) (shouldRetryStatus st) (getRetryAfterMs ra)), w')
    | FetchOk location =>
        match location with
        | Some sessionUrl =>
            if truthy sessionUrl then (Returned sessionUrl, w')
            else (Thrown (createUploadError "Missing resumable session URL"
                            None false None), w')
        | None => (Thrown (createUploadError "Missing resumable session URL"
                             None false None), w')
        end
    end.

(** One [PUT] of the bytes [rangeStart..rangeEnd] with the header
    [Content-Range: bytes start-end/total]. *)
Definition putResumableChunk (sessionUrl : string)
           (rangeStart rangeEnd total : Z) : M ChunkResult :=
  sendXhr (EvPutChunk rangeStart rangeEnd total) chunkListeners.

(** One [PATCH ...?uploadType=media] of the whole payload. *)
Definition simpleUploadAttempt (fileName : string) (byteLength : Z)
           (mimeType fileId : string) : M UploadResult :=
  sendXhr (EvPatchMedia fileId byteLength) (simpleListeners fileId).

(** [getFileInputSize] *)
Definition getFileInputSize (fileInput : FileInput) : Z :=
  match fileInput with
  | PathInput p sz =>
      if truthy p then
        match sz with
        | Some n => n
        | None =>
            if requireDefined env then
              match localFile env with Some n => n | None => 0 end
            else 0
        end
      else 0          (* normalizeContent returns the object: no length *)
  | Content n => n
  end.

(** [fs.readSync(fd, chunkBuffer, 0, chunkSize, position)] on a file
    of [fileLen] bytes. *)
Definition readSync (fileLen chunkSize position : Z) : Z :=
  Z.max 0 (Z.min chunkSize (fileLen - position)).

(** The [while (committedBytes < totalSize)] loop. *)
Fixpoint chunkLoop (fuel : nat) (sessionUrl fileId : string)
         (fileLen totalSize committedBytes : Z) : M UploadResult :=
  match fuel with
  | O => outOfFuel
  | S fuel' =>
      if committedBytes <? totalSize then
        let chunkSize := Z.min DRIVE_CHUNK_SIZE (totalSize - committedBytes) in
        let bytesRead := readSync fileLen chunkSize committedBytes in
        if bytesRead <=? 0 then
          ret {| id := fileId; skipped := false; reason := None |}
        else
          let rangeStart := committedBytes in
          let rangeEnd := committedBytes + bytesRead - 1 in
          let* attempted :=
            retryLoop retryFuel 1
              (putResumableChunk sessionUrl rangeStart rangeEnd totalSize) in
          match attempted with
          | Some chunkResult =>
              let committedBytes' := committedBytes + bytesRead in
              if done chunkResult then
                ret {| id := match chunk_id chunkResult with
                             | Some i => i | None => fileId end;
                       skipped := false; reason := None |}
              else
                chunkLoop fuel' sessionUrl fileId fileLen totalSize
                          committedBytes'
          | None =>
              throw (createUploadError "Failed to upload chunk"
                       None false None)
          end
      else ret {| id := fileId; skipped := false; reason := None |}
  end.

Definition chunkFuel (totalSize : Z) : nat :=
  Z.to_nat (totalSize / DRIVE_CHUNK_SIZE) + 2.

Definition uploadResumableFromFile (fileName : string)
           (fileInput : FileInput) (mimeType fileId : string)
  : M UploadResult :=
  if negb (requireDefined env) then
    throw (createUploadError
             "Node.js fs is required for resumable file upload"
             None false None)
  else
    let totalSize := getFileInputSize fileInput in
    let* sessionUrl :=
      createResumableSession fileName
        (orElse mimeType "application/octet-stream") fileId totalSize in
    match localFile env with
    | None => throw (plainError "ENOENT")        (* fs.openSync throws *)
    | Some fileLen =>
        chunkLoop (chunkFuel totalSize) sessionUrl fileId fileLen
                  totalSize 0
    end.


(** [computeLocalMd5]: any exception is caught and gives [null]. *)
Definition computeLocalMd5 (fileInput : FileInput) : option string :=
  if requireDefined env then md5Digest env else None.

Definition fetchError {A} (what : string) (r : FetchResponse A)
  : UploadError :=
  match r with
  | FetchNotOk st ra =>
      createUploadError what (Some st) (shouldRetryStatus st)
                        (getRetryAfterMs ra)
  | _ => plainError "Failed to fetch"
  end.

(** [findExistingDriveFile]: [searchData.files?.[0] || null]. *)
Definition findExistingDriveFile (fileName folderId : string)
  : M (option DriveFile) :=
  let* _ := emit (EvSearch fileName folderId) in
  match searchResponse env with
  | FetchOk files => ret (head files)
  | r => throw (fetchError "Failed to search existing file" r)
  end.

Definition ensureDriveFileMetadata (fileName folderId : string)
           (existingId : option string) : M string :=
  match existingId with
  | Some i => ret i
  | None =>
      let* _ := emit (EvCreateMetadata fileName folderId) in
      match createResponse env with
      | FetchOk newId => ret newId
      | r => throw (fetchError "Failed to create file metadata" r)
      end
  end.

Definition fileIsPathInput (fileInput : FileInput) : bool :=
  match fileInput with
  | PathInput p _ => truthy p
  | Content _ => false
  end.

(** [normalizeContent], to the byte length of the payload it gives. *)
Definition normalizeContent (fileInput : FileInput) : M Z :=
  match fileInput with
  | Content n => ret n
  | PathInput p _ =>
      if truthy p then
        if requireDefined env then
          match localFile env with
          | Some n => ret n
          | None => throw (plainError "ENOENT")   (* fs.readFileSync *)
          end
        else
          throw (createUploadError
                   "Node.js fs is required for file-path uploads"
                   None false None)
      else ret 0
  end.

(** [existingId && existingFile?.md5Checksum && localMd5 &&
    existingFile.md5Checksum === localMd5] *)
Definition md5Matches (existingFile : option DriveFile)
           (localMd5 : option string) : bool :=
  match existingFile, localMd5 with
  | Some f, Some l =>
      truthy (df_id f) &&
      match df_md5Checksum f with
      | Some r => truthy r && truthy l && String.eqb r l
      | None => false
      end
  | _, _ => false
  end.

(** [actualFileSize || getFileInputSize(fileInput)] *)
Definition inputSizeOf (fileInput : FileInput) (actualFileSize : option Z)
  : Z :=
  match actualFileSize with
  | Some n => if n =? 0 then getFileInputSize fileInput else n
  | None => getFileInputSize fileInput
  end.

Definition shouldUseResumable (fileInput : FileInput)
           (actualFileSize : option Z) : bool :=
  fileIsPathInput fileInput &&
  (DRIVE_RESUMABLE_THRESHOLD <=? inputSizeOf fileInput actualFileSize).

(** The simple path: [normalizeContent], then the retry loop around
    [simpleUploadAttempt], then the final [throw]. *)
Definition simplePath (fileName : string) (fileInput : FileInput)
           (mimeType existingId : string) : M UploadResult :=
  let* content := normalizeContent fileInput in
  let* attempted :=
    retryLoop retryFuel 1
      (simpleUploadAttempt fileName content mimeType existingId) in
  match attempted with
  | Some r => ret r
  | None => throw (plainError "Upload failed")
  end.

(** Lines 380-412 of the function: what follows the dedup check. *)
Definition transferBody (fileName : string) (fileInput : FileInput)
           (mimeType folderId : string) (actualFileSize : option Z)
           (existingId : option string) : M UploadResult :=
  let* existingId' :=
    ensureDriveFileMetadata fileName folderId existingId in
  if shouldUseResumable fileInput actualFileSize then
    let* attempted :=
      retryLoop retryFuel 1
        (uploadResumableFromFile fileName fileInput mimeType
                                 existingId') in
    match attempted with
    | Some r => ret r
    | None => simplePath fileName fileInput mimeType existingId'
    end
  else simplePath fileName fileInput mimeType existingId'.

(** [existingFile?.id], when truthy *)
Definition existingIdOf (existingFile : option DriveFile)
  : option string :=
  match existingFile with
  | Some f => if truthy (df_id f) then Some (df_id f) else None
  | None => None
  end.

Definition uploadFileWithProgress (fileName : string)
           (fileInput : FileInput) (mimeType folderId : string)
           (actualFileSize : option Z) : M UploadResult :=
  match validToken env with
  | None => throw (plainError "Not authenticated")
  | Some token =>
      if negb (truthy token) then throw (plainError "Not authenticated")
      else
        let* existingFile := findExistingDriveFile fileName folderId in
        let existingId := existingIdOf existingFile in
        let localMd5 := computeLocalMd5 fileInput in
        if md5Matches existingFile localMd5 then
          ret {| id := match existingId with Some i => i | None => "" end;
                 skipped := true;
                 reason := Some "Unchanged (MD5 match)" |}
        else
          transferBody fileName fileInput mimeType folderId
                       actualFileSize existingId
  end.

End WithEnv.
End UploadXhr.

(** ** Vocabulary for the statements about upload-xhr.js *)

Module UploadSpec.
Import Retry Net UploadXhr.

(** A chunk [PUT] is accepted when its promise resolves. *)
Definition accepted (resp : XhrEvent) : bool :=
  match chunkListeners resp with
  | inr _ => true
  | inl _ => false
  end.

Definition acceptedChunk (e : Event) : option (Z * Z) :=
  match e with
  | EvPutChunk rangeStart rangeEnd _ resp =>
      if accepted resp then Some (rangeStart, rangeEnd) else None
  | _ => None
  end.

(** The byte ranges of the accepted chunks of a log, in order. *)
Definition acceptedChunks (evs : list Event) : list (Z * Z) :=
  omap acceptedChunk evs.

Definition chunkBytes (c : Z * Z) : Z := snd c - fst c + 1.

Definition sumBytes (cs : list (Z * Z)) : Z :=
  foldr (fun c acc => chunkBytes c + acc) 0 cs.

(** [tiles a cs b]: the non-empty ranges [cs] follow one another and
    cover the bytes [a .. b-1], without overlap and without gap. *)
Fixpoint tiles (a : Z) (cs : list (Z * Z)) (b : Z) : Prop :=
  match cs with
  | [] => a = b
  | c :: rest => fst c = a /\ fst c <= snd c /\ tiles (snd c + 1) rest b
  end.

(** Every chunk that has a successor has the full chunk size. *)
Fixpoint allButLastFull (cs : list (Z * Z)) : Prop :=
  match cs with
  | [] => True
  | c :: rest =>
      (rest <> [] -> chunkBytes c = DRIVE_CHUNK_SIZE) /\ allButLastFull rest
  end.

(** The [Content-Range] total of every chunk request is [total]. *)
Definition carriesTotal (total : Z) (e : Event) : Prop :=
  match e with
  | EvPutChunk _ _ t _ => t = total
  | _ => True
  end.

(** The server keeps to the resumable protocol: it answers 2xx only to
    the chunk that ends the declared range (308 means incomplete). *)
Definition completesAtEnd (e : Event) : bool :=
  match e with
  | EvPutChunk _ rangeEnd t (XhrLoad st _ _) =>
      if is2xx st then rangeEnd + 1 =? t else true
  | _ => true
  end.

Definition conformant (evs : list Event) : Prop :=
  forallb completesAtEnd evs = true.

(** The transient failures of an XHR: network failure, timeout, or one
    of the six statuses. *)
Definition retryStatuses : list Z := [408; 429; 500; 502; 503; 504].

Definition transient (ev : XhrEvent) : Prop :=
  match ev with
  | XhrError => True
  | XhrTimeout => True
  | XhrLoad st _ _ => st ∈ retryStatuses
  | XhrAbort => False
  end.

(** The positive delay the server asked for, in milliseconds. *)
Definition serverDelayMs (ev : XhrEvent) : option Z :=
  match ev with
  | XhrLoad _ (Some seconds) _ =>
      if 0 <? seconds then Some (seconds * 1000) else None
  | _ => None
  end.


Definition randomInUnit (env : Env) : Prop :=
  forall n, (0 <= mathRandom env n)%Q /\ (mathRandom env n < 1)%Q.

(** The log of one retry loop around an XHR request, started at attempt
    [attempt]: requests, each followed by a sleep when it is retried. *)
Inductive RetryTrace {A} (env : Env) (request : XhrEvent -> Event)
          (listeners : XhrEvent -> UploadError + A)
  : Z -> list Event -> Outcome (option A) -> Prop :=
| RT_exit attempt :
    DRIVE_MAX_RETRIES < attempt ->
    RetryTrace env request listeners attempt [] (Returned None)
| RT_ok attempt ev r :
    attempt <= DRIVE_MAX_RETRIES ->
    listeners ev = inr r ->
    RetryTrace env request listeners attempt [request ev] (Returned (Some r))
| RT_throw attempt ev e :
    attempt <= DRIVE_MAX_RETRIES ->
    listeners ev = inl e ->
    DRIVE_MAX_RETRIES <= attempt \/ retriable e = false ->
    RetryTrace env request listeners attempt [request ev] (Thrown e)
| RT_retry attempt ev e n rest out :
    attempt < DRIVE_MAX_RETRIES ->
    listeners ev = inl e ->
    retriable e = true ->
    RetryTrace env request listeners (attempt + 1) rest out ->
    RetryTrace env request listeners attempt
      (request ev
         :: EvSleep (buildRetryDelayMs attempt (retryAfterMs e)
                       (mathRandom env n))
         :: rest) out.


Definition isXhr (e : Event) : bool :=
  match e with
  | EvPutChunk _ _ _ _ | EvPatchMedia _ _ _ => true
  | _ => false
  end.

(** The number of XHR requests of a log. *)
Definition xhrCount (evs : list Event) : nat :=
  length (List.filter isXhr evs).

(** The error an XHR listener builds is marked retriable exactly for
    the transient failures, and a retriable error carries the
    server's delay. *)
Definition listenerFaithful {A} (listeners : XhrEvent -> UploadError + A)
  : Prop :=
  forall ev e,
    listeners ev = inl e ->
    (retriable e = true <-> transient ev) /\
    (retriable e = true ->
     match serverDelayMs ev with
     | Some d => retryAfterMs e = Some d /\ 0 < d
     | None => usesExplicitDelay (retryAfterMs e) = false
     end).

(** [post m Q R]: whatever the world, [m] only appends events that
    satisfy [Q] to the log, and a value it returns satisfies [R]. *)
Definition post {A} (m : M A) (Q : Event -> Prop) (R : A -> Prop) : Prop :=
  forall w out w',
    m w = (out, w') ->
    (exists evs, log w' = log w ++ evs /\ Forall Q evs) /\
    (forall a, out = Returned a -> R a).

(** [logs P m]: whatever happens, [m] appends to the log an event
    that satisfies [P]. *)
Definition logs {A} (P : Event -> Prop) (m : M A) : Prop :=
  forall w o w1, m w = (o, w1) ->
    exists evs, log w1 = log w ++ evs /\ Exists P evs.

(** [delivers P m]: when [m] returns, it has appended to the log an
    event that satisfies [P]. *)
Definition delivers {A} (P : Event -> Prop) (m : M A) : Prop :=
  forall w a w1, m w = (Returned a, w1) ->
    exists evs, log w1 = log w ++ evs /\ Exists P evs.

(** The payload went out: in a [PATCH] that the server answered with
    a 2xx and a response that parses, or in a resumable session opened
    for [total] bytes of type [mimeType]. *)
Definition transferred (mimeType : string) (total : Z) (e : Event)
  : Prop :=
  match e with
  | EvPatchMedia fileId _ resp =>
      exists r, simpleListeners fileId resp = inr r
  | EvSessionStart _ m t => m = mimeType /\ t = total
  | _ => False
  end.


(** The requests of the chunked path, and the request of the simple
    path. *)
Definition isResumableEvent (e : Event) : bool :=
  match e with
  | EvSessionStart _ _ _ | EvPutChunk _ _ _ _ => true
  | _ => false
  end.

Definition isSimpleEvent (e : Event) : bool :=
  match e with
  | EvPatchMedia _ _ _ => true
  | _ => false
  end.

(** An event a chunked upload of [total] bytes of type [mimeType] may
    log: no [PATCH], and a session start only with that size and
    type. *)
Definition chunkedOnly (mimeType : string) (total : Z) (e : Event)
  : Prop :=
  match e with
  | EvPatchMedia _ _ _ => False
  | EvSessionStart _ m t => m = mimeType /\ t = total
  | _ => True
  end.

(** An event the simple path may log: nothing of the chunked path. *)
Definition simpleOnly (e : Event) : Prop := isResumableEvent e = false.

Definition skippedIs (b : bool) (r : UploadResult) : Prop := skipped r = b.

(** The call gets as far as line 382: it is authenticated, the lookup
    answers, the hashes do not match and the metadata exists or is
    created. *)
Definition reachesTransfer (env : Env) (fileInput : FileInput) : bool :=
  match validToken env with
  | Some token => truthy token
  | None => false
  end &&
  match searchResponse env with
  | FetchOk files =>
      negb (md5Matches (head files) (computeLocalMd5 env fileInput)) &&
      match existingIdOf (head files) with
      | Some _ => true
      | None => match createResponse env with
                | FetchOk _ => true
                | _ => false
                end
      end
  | _ => false
  end.

(** A world for scenario 5 of the specification: a 20 MiB file; the
    first chunk meets two 503 answers before its 308, the last chunk
    is answered 200. *)
Definition scenarioEnv : Env := {|
  validToken := Some "ya29.token";
  searchResponse := FetchOk [];
  createResponse := FetchOk "file-1";
  sessionResponse := fun _ => FetchOk (Some "https://upload/session");
  xhrEvent := fun n =>
    match n with
    | 0%nat => XhrLoad 503 None None
    | 1%nat => XhrLoad 503 (Some 2) None
    | 2%nat => XhrLoad 308 None None
    | 3%nat => XhrLoad 308 None None
    | 4%nat => XhrLoad 200 None (Some (Some "file-1"))
    | _ => XhrError
    end;
  mathRandom := fun _ => (1 # 2)%Q;
  requireDefined := true;
  localFile := Some 20971520;
  md5Digest := Some "9e107d9d372bb6826bd81d3542a419d6"
|}.

Definition scenarioInput : FileInput :=
  PathInput "C:\proj\clip.mov" (Some 20971520).

(** An 8 MiB payload held in memory (a [Uint8Array]), uploaded to an
    empty folder; the server accepts the single [PATCH]. *)
Definition inMemoryEnv : Env := {|
  validToken := Some "ya29.token";
  searchResponse := FetchOk [];
  createResponse := FetchOk "file-9";
  sessionResponse := fun _ => FetchOk (Some "https://upload/session");
  xhrEvent := fun _ => XhrLoad 200 None (Some (Some "file-9"));
  mathRandom := fun _ => (1 # 2)%Q;
  requireDefined := true;
  localFile := None;
  md5Digest := Some "0cc175b9c0f1b6a831c399e269772661"
|}.



(** A server whose every chunk request times out. *)
Definition timeoutEnv : Env := {|
  validToken := Some "ya29.token";
  searchResponse := FetchOk [];
  createResponse := FetchOk "file-1";
  sessionResponse := fun _ => FetchOk (Some "https://upload/session");
  xhrEvent := fun _ => XhrTimeout;
  mathRandom := fun _ => (0 # 1)%Q;
  requireDefined := true;
  localFile := Some 20971520;
  md5Digest := None
|}.

Definition sessionCount (evs : list Event) : nat :=
  length (List.filter (fun e => match e with
                                | EvSessionStart _ _ _ => true
                                | _ => false
                                end) evs).

End UploadSpec.

(** ** upload-helper.js: the push worker pool *)

Module Pool.

Definition MAX_PARALLEL_UPLOADS : nat := 3.

(** How the part of [processSingleFile] inside [try] ends for a file:
    [uploadFileWithProgress] returned (not skipped, skipped), or
    something threw (a missing file, a folder or upload error, an
    aborted request). *)
Inductive FileOutcome := Uploaded | Skipped | Threw.

(** The [status] of a report entry. *)
Inductive ReportStatus := RUploaded | RSkipped | RFailed | RCancelled.

(** [uploadState.fileStatus] *)
Inductive FileStatus :=
| Queued | Uploading | Complete | SkippedFile | CancelledFile | ErrorFile.

(** Where a [worker()] stands: at the head of its [while (true)]
    loop, inside [await processSingleFile(file i)], or returned. *)
Inductive WorkerState := AtLoopHead | Awaiting (i : nat) | Finished.

(** An [uploadKey] is [`${index}:${path}`]: distinct files have
    distinct keys, and the model uses the index as the key. *)
Record State := mkState {
  nextFileIndex : nat;
  cancelled : bool;                       (* uploadContext.cancelled *)
  cancelledFiles : gset nat;              (* uploadContext.cancelledFiles *)
  fileStatus : gmap nat FileStatus;
  completedFiles : nat;
  uploadedFilesCount : nat;
  skippedFilesCount : nat;
  failedFilesCount : nat;
  cancelledFilesCount : nat;
  reportEntries : list (nat * ReportStatus);
  workers : list WorkerState
}.

(** What the user or the event loop does next: resume worker [w] (run
    it from the loop head to its next [await], or deliver the settled
    upload it awaits), click "Cancel All" (and confirm), or click the
    cancel button of file [i].

    A schedule is any list of these, which is more than the program
    can do: the program creates its workers in one go ([startWorkers]
    below), and a worker whose file is done goes on to its next file
    before the next click is handled.  A run of the program is a
    schedule of clicks, then the [Resume]s of [startWorkers], then
    clicks and [Resume]s; what holds for every schedule holds for
    these. *)
Inductive Action :=
| Resume (w : nat)
| ClickCancelAll
| ClickCancelFile (i : nat).

Definition setWorker (w : nat) (st : WorkerState) (s : State) : State :=
  mkState (nextFileIndex s) (cancelled s) (cancelledFiles s) (fileStatus s)
          (completedFiles s) (uploadedFilesCount s) (skippedFilesCount s)
          (failedFilesCount s) (cancelledFilesCount s) (reportEntries s)
          (<[w := st]> (workers s)).

Definition setStatus (i : nat) (st : FileStatus) (s : State) : State :=
  mkState (nextFileIndex s) (cancelled s) (cancelledFiles s)
          (<[i := st]> (fileStatus s))
          (completedFiles s) (uploadedFilesCount s) (skippedFilesCount s)
          (failedFilesCount s) (cancelledFilesCount s) (reportEntries s)
          (workers s).

(** [xFilesCount++; completedFiles++; reportEntries.push({.. status: x})] *)
Definition record (i : nat) (r : ReportStatus) (s : State) : State :=
  mkState (nextFileIndex s) (cancelled s) (cancelledFiles s) (fileStatus s)
          (S (completedFiles s))
          (match r with RUploaded => S (uploadedFilesCount s)
                      | _ => uploadedFilesCount s end)
          (match r with RSkipped => S (skippedFilesCount s)
                      | _ => skippedFilesCount s end)
          (match r with RFailed => S (failedFilesCount s)
                      | _ => failedFilesCount s end)
          (match r with RCancelled => S (cancelledFilesCount s)
                      | _ => cancelledFilesCount s end)
          (reportEntries s ++ [(i, r)])
          (workers s).

Section Batch.
Variable totalFiles : nat.               (* allFilesToUpload.length *)
Variable upload : nat -> FileOutcome.    (* how file i's upload ends *)
Variable showProgressModal : bool.

(** [if (item) { ... uploadState.fileStatus[key] = st }]: the items
    exist only with the progress modal. *)
Definition setItemStatus (i : nat) (st : FileStatus) (s : State) : State :=
  if showProgressModal then setStatus i st s else s.

(** [processSingleFile(file i)] up to its first [await]. *)
Definition processStart (w i : nat) (s : State) : State :=
  if cancelled s then setWorker w AtLoopHead s
  else if bool_decide (i ∈ cancelledFiles s) then
    setWorker w AtLoopHead (record i RCancelled s)
  else
    setWorker w (Awaiting i) (setStatus i Uploading s).

(** [processSingleFile(file i)] from the settled upload to its end. *)
Definition processSettle (w i : nat) (s : State) : State :=
  setWorker w AtLoopHead
    match upload i with
    | Uploaded => setItemStatus i Complete (record i RUploaded s)
    | Skipped => setItemStatus i SkippedFile (record i RSkipped s)
    | Threw =>
        if cancelled s || bool_decide (i ∈ cancelledFiles s) then
          record i RCancelled (setItemStatus i CancelledFile s)
        else
          record i RFailed (setItemStatus i ErrorFile s)
    end.

(** One turn of [worker()]'s loop, from its head to the call. *)
Definition workerHead (w : nat) (s : State) : State :=
  if cancelled s then setWorker w Finished s
  else
    let currentIndex := nextFileIndex s in
    let s' :=
      mkState (S currentIndex) (cancelled s) (cancelledFiles s)
              (fileStatus s) (completedFiles s) (uploadedFilesCount s)
              (skippedFilesCount s) (failedFilesCount s)
              (cancelledFilesCount s) (reportEntries s) (workers s) in
    if (totalFiles <=? currentIndex)%nat then setWorker w Finished s'
    else processStart w currentIndex s'.

Definition cancelAll (s : State) : State :=
  mkState (nextFileIndex s) true (cancelledFiles s) (fileStatus s)
          (completedFiles s) (uploadedFilesCount s) (skippedFilesCount s)
          (failedFilesCount s) (cancelledFilesCount s) (reportEntries s)
          (workers s).

(** The [onclick] of a file's cancel button. *)
Definition cancelFile (i : nat) (s : State) : State :=
  match fileStatus s !! i with
  | Some Complete | Some SkippedFile => s
  | _ =>
      setStatus i CancelledFile
        (mkState (nextFileIndex s) (cancelled s)
                 ({[i]} ∪ cancelledFiles s) (fileStatus s)
                 (completedFiles s) (uploadedFilesCount s)
                 (skippedFilesCount s) (failedFilesCount s)
                 (cancelledFilesCount s) (reportEntries s) (workers s))
  end.

Definition step (a : Action) (s : State) : State :=
  match a with
  | Resume w =>
      match workers s !! w with
      | Some AtLoopHead => workerHead w s
      | Some (Awaiting i) => processSettle w i s
      | _ => s
      end
  | ClickCancelAll => if showProgressModal then cancelAll s else s
  | ClickCancelFile i =>
      if showProgressModal && (i <? totalFiles)%nat then cancelFile i s
      else s
  end.

Definition run (schedule : list Action) (s : State) : State :=
  foldl (fun s a => step a s) s schedule.

(** The state once the cancel buttons are set up (lines 105-224), with the
    [Math.min(MAX_PARALLEL_UPLOADS, totalFiles)] workers that will be
    created, none of them started: the function awaits the project
    folder first (lines 262-268), and clicks can arrive meanwhile. *)
Definition initial : State :=
  mkState 0 false ∅ ∅ 0 0 0 0 0 []
          (replicate (Nat.min MAX_PARALLEL_UPLOADS totalFiles) AtLoopHead).

(** [for (let i = 0; i < workerCount; i++) workers.push(worker())]:
    each call runs its worker at once from the loop head to its first
    [await], so that no click falls between these steps. *)
Definition startWorkers (s : State) : State :=
  foldl (fun s w => workerHead w s) s
        (seq 0 (Nat.min MAX_PARALLEL_UPLOADS totalFiles)).

End Batch.

(** [await Promise.all(workers)] has resolved. *)
Definition allFinished (s : State) : bool :=
  forallb (fun st => match st with Finished => true | _ => false end)
          (workers s).

(** What [uploadProjectWithConcurrency] returns after the workers. *)
Inductive BatchResult :=
| BatchCancelled                          (* { success: false, cancelled: true } *)
| BatchDone (uploadedCount skippedCount failedCount cancelledCount : nat)
            (entries : list (nat * ReportStatus)).

Definition batchResult (s : State) : option BatchResult :=
  if allFinished s then
    Some (if cancelled s then BatchCancelled
          else BatchDone (uploadedFilesCount s) (skippedFilesCount s)
                         (failedFilesCount s) (cancelledFilesCount s)
                         (reportEntries s))
  else None.

(** The sum the count-conservation property speaks of. *)
Definition counted (s : State) : nat :=
  uploadedFilesCount s + skippedFilesCount s + failedFilesCount s
  + cancelledFilesCount s.

Definition countStatus (r : ReportStatus) (entries : list (nat * ReportStatus))
  : nat :=
  length (List.filter
            (fun e => match snd e, r with
                      | RUploaded, RUploaded | RSkipped, RSkipped
                      | RFailed, RFailed | RCancelled, RCancelled => true
                      | _, _ => false
                      end) entries).

(** The files some worker is inside [processSingleFile] for. *)
Definition inflight (ws : list WorkerState) : list nat :=
  omap (fun st => match st with Awaiting i => Some i | _ => None end) ws.


(** *** From a file of the batch to the outcome of its upload *)

Import Net UploadXhr.

(** A file of [allFilesToUpload], with what [processSingleFile] finds
    for it: the folder [getFolderForFile] resolves ([None]: it
    throws) and the world of its upload, whose [localFile] is what
    [fs.existsSync] and [fs.statSync] see at [path]. *)
Record PushFile := {
  pf_driveFileName : string;
  pf_path : string;
  pf_mimeType : string;                 (* getMimeTypeFromName(name) *)
  pf_folder : option string;
  pf_env : Env
}.

(** The part of [processSingleFile] inside [try], up to the
    normalized result. *)
Definition fileOutcome (f : PushFile) : FileOutcome :=
  if negb (requireDefined (pf_env f)) then Threw    (* !fs || !pathModule *)
  else if negb (truthy (pf_path f)) then Threw      (* !file.path *)
  else
    match localFile (pf_env f) with
    | None => Threw                                 (* !fs.existsSync *)
    | Some actualFileSize =>
        match pf_folder f with
        | None => Threw
        | Some targetFolderId =>
            match fst (uploadFileWithProgress (pf_env f)
                         (pf_driveFileName f)
                         (PathInput (pf_path f) (Some actualFileSize))
                         (pf_mimeType f) targetFolderId
                         (Some actualFileSize) world0) with
            | Returned result =>
                if skipped result then Skipped else Uploaded
            | _ => Threw
            end
        end
    end.

Definition outcomes (files : list PushFile) (i : nat) : FileOutcome :=
  match files !! i with
  | Some f => fileOutcome f
  | None => Threw
  end.

(** The file is on disk and the remote folder already holds a file of
    its name whose [md5Checksum] is the local hash. *)
Definition unchangedOnDrive (f : PushFile) : Prop :=
  requireDefined (pf_env f) = true /\
  truthy (pf_path f) = true /\
  is_Some (localFile (pf_env f)) /\
  is_Some (pf_folder f) /\
  exists token d files md5,
    validToken (pf_env f) = Some token /\ truthy token = true /\
    searchResponse (pf_env f) = FetchOk (d :: files) /\
    truthy (df_id d) = true /\
    df_md5Checksum d = Some md5 /\
    md5Digest (pf_env f) = Some md5 /\
    truthy md5 = true.

Definition isResume (a : Action) : Prop :=
  match a with Resume _ => True | _ => False end.

(** Without cancellation the status of an entry is the outcome of the
    upload. *)
Definition statusOf (o : FileOutcome) : ReportStatus :=
  match o with
  | Uploaded => RUploaded
  | Skipped => RSkipped
  | Threw => RFailed
  end.

(** Two files, the project and a clip, already on the drive with the
    hashes of the local copies. *)
Definition unchangedEnv (remoteId md5 : string) (size : Z) : Env := {|
  validToken := Some "ya29.token";
  searchResponse :=
    FetchOk [{| df_id := remoteId; df_md5Checksum := Some md5 |}];
  createResponse := FetchOk "unused";
  sessionResponse := fun _ => FetchRejected;
  xhrEvent := fun _ => XhrError;
  mathRandom := fun _ => (0 # 1)%Q;
  requireDefined := true;
  localFile := Some size;
  md5Digest := Some md5
|}.

Definition unchangedFiles : list PushFile :=
  [ {| pf_driveFileName := "promo.prproj";
       pf_path := "C:\proj\promo.prproj";
       pf_mimeType := "application/octet-stream";
       pf_folder := Some "folder-1";
       pf_env := unchangedEnv "id-1" "0cc175b9c0f1b6a831c399e269772661"
                              2097152 |};
    {| pf_driveFileName := "clip.mov";
       pf_path := "C:\proj\media\clip.mov";
       pf_mimeType := "video/quicktime";
       pf_folder := Some "folder-2";
       pf_env := unchangedEnv "id-2" "92eb5ffee6ae2fec3ad71c777531578f"
                              20971520 |} ].

(** The invariant of a batch of [n] files. *)
Record Inv (n : nat) (s : State) : Prop := {
  inv_uploaded : uploadedFilesCount s = countStatus RUploaded (reportEntries s);
  inv_skipped : skippedFilesCount s = countStatus RSkipped (reportEntries s);
  inv_failed : failedFilesCount s = countStatus RFailed (reportEntries s);
  inv_cancelled :
    cancelledFilesCount s = countStatus RCancelled (reportEntries s);
  inv_completed : completedFiles s = length (reportEntries s);
  inv_counted : counted s = length (reportEntries s);
  inv_files :
    (reportEntries s).*1 ++ inflight (workers s)
    ≡ₚ seq 0 (Nat.min (nextFileIndex s) n);
  inv_finished :
    cancelled s = false ->
    forall w, workers s !! w = Some Finished -> (n <= nextFileIndex s)%nat;
  inv_workers : length (workers s) = Nat.min MAX_PARALLEL_UPLOADS n
}.

(** The state of a batch in which nobody has cancelled anything. *)
Record Quiet (upload : nat -> FileOutcome) (s : State) : Prop := {
  quiet_flag : cancelled s = false;
  quiet_files : cancelledFiles s = ∅;
  quiet_entries :
    Forall (fun e => snd e = statusOf (upload (fst e))) (reportEntries s)
}.

(** Two files: the first is uploaded, the second is unchanged. *)
Definition twoFiles (i : nat) : FileOutcome :=
  match i with 0%nat => Uploaded | _ => Skipped end.

End Pool.

(** ** main.js: "Pull All" *)

Module PullAll.

(** [s.endsWith(suffix)] *)
Definition endsWith (s suffix : string) : bool :=
  (String.length suffix <=? String.length s)%nat &&
  String.eqb (String.substring (String.length s - String.length suffix)
                               (String.length suffix) s)
             suffix.

Definition isPrproj (name : string) : bool := endsWith name ".prproj".

(** An entry of [explorerContext.files], as [listFilesInFolder] gives
    it; [size] is what [parseInt(file.size)] reads ([None]: NaN). *)
Record DriveFile := {
  id : string;
  name : string;
  size : option Z
}.

(** [Array.prototype.sort] with a comparator: a stable insertion sort
    (ECMAScript requires stability; the properties below need only
    that the result is sorted). *)
Section Sort.
Context {A : Type} (cmp : A -> A -> Z).

Fixpoint insertSorted (x : A) (l : list A) : list A :=
  match l with
  | [] => [x]
  | y :: l' =>
      if cmp x y <=? 0 then x :: y :: l' else y :: insertSorted x l'
  end.

Fixpoint sort (l : list A) : list A :=
  match l with
  | [] => []
  | x :: l' => insertSorted x (sort l')
  end.
End Sort.

(** The comparator of line 1847. *)
Definition prprojLast (a b : DriveFile) : Z :=
  (if isPrproj (name a) then 1 else 0) - (if isPrproj (name b) then 1 else 0).

(** What happens while the batch runs, which the code does not
    choose.  [fsAvailable]: [require('fs')] works.  [download]: the
    byte length of the body of [GET ...?alt=media] for a file id,
    [None] when the request or the write to disk fails.  [cancelDuring]: whether the user
    presses "Cancel" while that file is being pulled. *)
Record Env := {
  fsAvailable : bool;
  download : string -> option Z;
  cancelDuring : string -> bool
}.

Inductive Event :=
| TransferStart (f : DriveFile)
| TransferEnd (f : DriveFile) (ok : bool).

Record State := mkState {
  pulled : nat;
  skipped : nat;
  cancelled : nat;
  pullCancelled : bool;
  disk : gmap string Z;                 (* local path -> size *)
  downloadingFiles : gset string;
  log : list Event
}.

(** The local file of an entry.  [handlePullAll] names it
    [targetFolder\name]; [handleSingleFilePull] is handed the folder
    with every backslash doubled and turns the slashes of the name
    into backslashes.  On Windows the three spellings name the same
    file, and the disk below is keyed by the first. *)
Definition localPathOf (targetFolder : string) (f : DriveFile) : string :=
  String.append targetFolder (String.append "\" (name f)).

Section Run.
Variable env : Env.
Variable targetFolder : string.

(** [handleSingleFilePull], as far as the transfer goes: the guard
    against a pull of the same file already under way, the download,
    the write to disk; every error is caught inside (an [alert]),
    and [finally] removes the id from [downloadingFiles].  The
    .prproj patch that follows the write is the subject of module
    [Patcher]. *)
Definition handleSingleFilePull (f : DriveFile) (s : State) : State :=
  if bool_decide (id f ∈ downloadingFiles s) then s
  else
    let flag := pullCancelled s || cancelDuring env (id f) in
    match download env (id f) with
    | Some n =>
        mkState (pulled s) (skipped s) (cancelled s) flag
                (<[localPathOf targetFolder f := n]> (disk s))
                (downloadingFiles s)
                (log s ++ [TransferStart f; TransferEnd f true])
    | None =>
        mkState (pulled s) (skipped s) (cancelled s) flag
                (disk s) (downloadingFiles s)
                (log s ++ [TransferStart f; TransferEnd f false])
    end.

Definition driveSizeOf (f : DriveFile) : Z :=
  match size f with
  | Some n => n
  | None => 0
  end.

(** [exists && localSize === driveSize] *)
Definition alreadySynced (f : DriveFile) (s : State) : bool :=
  fsAvailable env &&
  match disk s !! localPathOf targetFolder f with
  | Some localSize => localSize =? driveSizeOf f
  | None => false
  end.

(** The [for (const file of files)] loop. *)
Fixpoint pullLoop (total : nat) (files : list DriveFile) (s : State)
  : State :=
  match files with
  | [] => s
  | f :: rest =>
      if pullCancelled s then
        mkState (pulled s) (skipped s) (total - pulled s - skipped s)
                (pullCancelled s) (disk s) (downloadingFiles s) (log s)
      else if alreadySynced f s then
        pullLoop total rest
          (mkState (pulled s) (S (skipped s)) (cancelled s)
                   (pullCancelled s) (disk s) (downloadingFiles s)
                   (log s))
      else
        let s' := handleSingleFilePull f s in
        pullLoop total rest
          (mkState (S (pulled s')) (skipped s') (cancelled s')
                   (pullCancelled s') (disk s') (downloadingFiles s')
                   (log s'))
  end.

(** [handlePullAll] from the reset of the flag to the end of the
    loop. *)
Definition handlePullAll (files : list DriveFile) (disk0 : gmap string Z)
           (downloading0 : gset string) : State :=
  pullLoop (length files) (sort prprojLast files)
           (mkState 0 0 0 false disk0 downloading0 []).

End Run.

Definition isMedia (f : DriveFile) : bool := negb (isPrproj (name f)).
Definition isDescriptor (f : DriveFile) : bool := isPrproj (name f).

(** The file an event is about. *)
Definition fileOf (e : Event) : DriveFile :=
  match e with
  | TransferStart f => f
  | TransferEnd f _ => f
  end.

(** One transfer, from its start to its completion. *)
Definition transferOf (env : Env) (f : DriveFile) : list Event :=
  [TransferStart f;
   TransferEnd f (match download env (id f) with
                  | Some _ => true | None => false end)].

Definition exampleFiles : list DriveFile :=
  [ {| id := "id-p"; name := "promo.prproj"; size := Some 52000 |};
    {| id := "id-a"; name := "media/clip.mov"; size := Some 20971520 |};
    {| id := "id-b"; name := "voice.wav"; size := Some 4096 |} ].

Definition exampleEnv : Env := {|
  fsAvailable := true;
  download := fun i => if String.eqb i "id-b" then None else Some 52000;
  cancelDuring := fun _ => false
|}.

End PullAll.

(** ** download-helper.js: [downloadProjectWithProgress] *)

Module Download.

(** An entry of [driveFiles]; [size] is what [parseInt] reads. *)
Record DriveFile := {
  id : string;
  name : string;
  size : option Z
}.

(** The object pushed on [downloadState.conflicts]. *)
Record Conflict := {
  c_name : string;
  c_localPath : string;
  c_driveFile : DriveFile;
  c_localSize : Z;
  c_driveSize : Z
}.

(** A local file: its bytes; its size is their number. *)
Definition sizeOf (content : string) : Z :=
  Z.of_nat (String.length content).

(** [downloadFile]: the bytes of a file id ([None]: it throws).
    [writeFails]: [cep.fs.writeFile] reports an error for the path.
    [cancelDuring]: the user cancels while that id is downloaded.
    [statThrows]: [fs.statSync] throws for the path.  [cepStatSize]:
    the [size] property of CEP's stat data, if it has one. *)
Record Env := {
  requireDefined : bool;
  downloadFile : string -> option string;
  writeFails : string -> bool;
  cancelDuring : string -> bool;
  statThrows : string -> bool;
  cepStatSize : string -> option Z
}.

Inductive ItemStatus := ItemSkipped | ItemConflict | ItemComplete | ItemError.

Inductive Event :=
| Listed (name : string) (status : ItemStatus)   (* add/updateFileStatus *)
| TransferStart (f : DriveFile)
| TransferEnd (f : DriveFile).

Record State := mkState {
  completedFiles : nat;
  downloadedFiles : nat;
  skippedFiles : nat;
  failedFiles : nat;
  conflicts : list Conflict;
  cancelled : bool;
  downloadedBytes : Z;
  disk : gmap string string;            (* local path -> bytes *)
  log : list Event
}.

Section Run.
Variable env : Env.
Variable projectPath : string.

Definition targetPathOf (f : DriveFile) : string :=
  String.append projectPath (String.append "\" (name f)).

Definition driveSizeOf (f : DriveFile) : Z :=
  match size f with
  | Some n => n
  | None => 0
  end.

(** Lines 651-673: the local size the code measures, 0 when the
    measurement fails. *)
Definition measureLocalSize (disk : gmap string string) (path : string)
  : Z :=
  if requireDefined env then
    if statThrows env path then 0
    else match disk !! path with
         | Some content => sizeOf content
         | None => 0
         end
  else
    match cepStatSize env path with
    | Some n => n
    | None => 0
    end.

(** The branch [if (localExists)] of the loop body. *)
Definition classifyExisting (f : DriveFile) (s : State) : State :=
  let localSize := measureLocalSize (disk s) (targetPathOf f) in
  let driveSize := driveSizeOf f in
  if localSize =? driveSize then
    mkState (S (completedFiles s)) (downloadedFiles s)
            (S (skippedFiles s)) (failedFiles s) (conflicts s)
            (cancelled s) (downloadedBytes s + driveSizeOf f) (disk s)
            (log s ++ [Listed (name f) ItemSkipped])
  else
    mkState (S (completedFiles s)) (downloadedFiles s)
            (skippedFiles s) (failedFiles s)
            (conflicts s ++
               [{| c_name := name f; c_localPath := targetPathOf f;
                   c_driveFile := f; c_localSize := localSize;
                   c_driveSize := driveSize |}])
            (cancelled s) (downloadedBytes s) (disk s)
            (log s ++ [Listed (name f) ItemConflict]).

(** The [try { ... } catch] that downloads and writes one file.
    The result says whether the loop goes on ([false]: the [break]
    after the download). *)
Definition downloadOne (f : DriveFile) (s : State) : bool * State :=
  let flag := cancelled s || cancelDuring env (id f) in
  match downloadFile env (id f) with
  | None =>
      (true,
       mkState (S (completedFiles s)) (downloadedFiles s)
               (skippedFiles s) (S (failedFiles s)) (conflicts s) flag
               (downloadedBytes s) (disk s)
               (log s ++ [TransferStart f; TransferEnd f;
                          Listed (name f) ItemError]))
  | Some content =>
      if flag then
        (false,
         mkState (completedFiles s) (downloadedFiles s) (skippedFiles s)
                 (failedFiles s) (conflicts s) flag (downloadedBytes s)
                 (disk s) (log s ++ [TransferStart f; TransferEnd f]))
      else if writeFails env (targetPathOf f) then
        (true,
         mkState (S (completedFiles s)) (downloadedFiles s)
                 (skippedFiles s) (S (failedFiles s)) (conflicts s) flag
                 (downloadedBytes s) (disk s)
                 (log s ++ [TransferStart f; TransferEnd f;
                            Listed (name f) ItemError]))
      else
        (true,
         mkState (S (completedFiles s)) (S (downloadedFiles s))
                 (skippedFiles s) (failedFiles s) (conflicts s) flag
                 (downloadedBytes s + driveSizeOf f)
                 (<[targetPathOf f := content]> (disk s))
                 (log s ++ [TransferStart f; TransferEnd f;
                            Listed (name f) ItemComplete]))
  end.

(** One turn of the loop; [false]: the loop is left. *)
Definition loopBody (f : DriveFile) (s : State) : bool * State :=
  if cancelled s then (false, s)
  else
    match disk s !! targetPathOf f with
    | Some _ => (true, classifyExisting f s)
    | None => downloadOne f s
    end.

Fixpoint downloadLoop (driveFiles : list DriveFile) (s : State) : State :=
  match driveFiles with
  | [] => s
  | f :: rest =>
      match loopBody f s with
      | (true, s') => downloadLoop rest s'
      | (false, s') => s'
      end
  end.

(** [downloadProjectWithProgress] from [downloadState] on. *)
Definition downloadProjectWithProgress (driveFiles : list DriveFile)
           (disk0 : gmap string string) : State :=
  downloadLoop driveFiles (mkState 0 0 0 0 [] false 0 disk0 []).

End Run.

Definition exampleFiles : list DriveFile :=
  [ {| id := "id-p"; name := "promo.prproj"; size := Some 4 |};
    {| id := "id-a"; name := "clip.mov"; size := Some 6 |} ].

Definition exampleEnv : Env := {|
  requireDefined := true;
  downloadFile := fun i => Some (if String.eqb i "id-p" then "GZIP"
                                 else "MOVIE!");
  writeFails := fun _ => false;
  cancelDuring := fun _ => false;
  statThrows := fun _ => false;
  cepStatSize := fun _ => None
|}.

(** A folder in which [clip.mov] exists with another size. *)
Definition divergedDisk : gmap string string :=
  {[ "C:\sync\Promo\clip.mov" := "OLD" ]}.

End Download.

(** ** main.js: the .prproj patch of [handleSingleFilePull] *)

Module Patcher.
Import Stdlib.Strings.Ascii.

Definition code (c : ascii) : nat := nat_of_ascii c.

Definition between (lo hi : nat) (c : ascii) : bool :=
  (lo <=? code c)%nat && (code c <=? hi)%nat.

(** [[A-Z]] under the [i] flag *)
Definition isDriveLetter (c : ascii) : bool :=
  between 65 90 c || between 97 122 c.

(** [[a-zA-Z0-9]] *)
Definition isAlnum (c : ascii) : bool :=
  between 97 122 c || between 65 90 c || between 48 57 c.

Definition isBackslash (c : ascii) : bool := (code c =? 92)%nat.
Definition isColon (c : ascii) : bool := (code c =? 58)%nat.
Definition isDot (c : ascii) : bool := (code c =? 46)%nat.

(** The characters both negated classes exclude: [<], [>], the double
    quote, [*], [?], [|], CR and LF. *)
Definition excluded (c : ascii) : bool :=
  (code c =? 60)%nat || (code c =? 62)%nat || (code c =? 34)%nat ||
  (code c =? 42)%nat || (code c =? 63)%nat || (code c =? 124)%nat ||
  (code c =? 13)%nat || (code c =? 10)%nat.

(** The first negated class, and the second, which excludes the
    backslash as well. *)
Definition pathChar (c : ascii) : bool := negb (excluded c).
Definition nameChar (c : ascii) : bool := pathChar c && negb (isBackslash c).

Fixpoint takeWhile {A} (p : A -> bool) (l : list A) : list A :=
  match l with
  | x :: l' => if p x then x :: takeWhile p l' else []
  | [] => []
  end.

(** *** The pattern of line 2121
<<
  /([A-Z]:\\(?:P+\\)*(N+\.[a-zA-Z0-9]{2,6}))/gi
>>
    where [P] is the first negated class and [N] the second, matched
    the way a backtracking engine does.  After the drive
    prefix every piece of the pattern consumes path characters only,
    so a match lies inside the run [R] of path characters that
    follows the prefix.  The greedy group [(?:P+\\)*] is tried
    with its end at each backslash of [R], the rightmost first, and
    last with no repetition at all; from there the name class takes
    the run [B] up to the next backslash and gives back characters
    until a dot followed by at least two alphanumerics is found; the
    extension takes up to six of them. *)

(** [\.[a-zA-Z0-9]{2,6}] at offset [l] of the run [B] *)
Definition extAt (B : list ascii) (l : nat) : option (list ascii) :=
  match drop l B with
  | c :: rest =>
      if isDot c then
        let ext := take 6 (takeWhile isAlnum rest) in
        if (2 <=? length ext)%nat then Some ext else None
      else None
  | [] => None
  end.

(** The name class gives back characters: the name has length [l],
    then [l - 1], down to 1. *)
Fixpoint findExt (B : list ascii) (l : nat) : option (nat * list ascii) :=
  match l with
  | O => None
  | S l' =>
      match extAt B l with
      | Some ext => Some (l, ext)
      | None => findExt B l'
      end
  end.

(** Group 2 from offset [q] of [R] *)
Definition nameAt (R : list ascii) (q : nat) : option (list ascii) :=
  let B := takeWhile nameChar (drop q R) in
  match findExt B (length B - 1) with
  | Some (l, ext) => Some (take l B ++ "."%char :: ext)
  | None => None
  end.

(** The directories can end at [q] when [q] follows a backslash that
    has at least one character before it. *)
Definition dirsCanEndAt (R : list ascii) (q : nat) : bool :=
  (2 <=? q)%nat &&
  match R !! (q - 1)%nat with
  | Some c => isBackslash c
  | None => false
  end.

(** The directories end at [q], else at [q - 1], ..., else they are
    empty. *)
Fixpoint matchTail (R : list ascii) (q : nat)
  : option (list ascii * list ascii) :=
  match q with
  | O =>
      match nameAt R 0 with
      | Some base => Some ([], base)
      | None => None
      end
  | S q' =>
      if dirsCanEndAt R q then
        match nameAt R q with
        | Some base => Some (take q R, base)
        | None => matchTail R q'
        end
      else matchTail R q'
  end.

(** A match at the head of [s]: the whole match (group 1) and the
    basename (group 2). *)
Definition matchAt (s : list ascii) : option (list ascii * list ascii) :=
  match s with
  | d :: c :: b :: rest =>
      if isDriveLetter d && isColon c && isBackslash b then
        let R := takeWhile pathChar rest in
        match matchTail R (length R) with
        | Some (dirs, base) => Some (d :: c :: b :: dirs ++ base, base)
        | None => None
        end
      else None
  | _ => None
  end.

(** A directory entry of [fs.readdirSync(dir, { withFileTypes: true })]:
    a file, a directory with its own listing ([None]: [readdirSync]
    throws for it), or something else. *)
#[local] Set Warnings "-register-all".
Inductive Entry :=
| File (name : string)
| Dir (name : string) (listing : option (list Entry))
| Other (name : string).

Section Patch.
Variable toLowerCase : string -> string.        (* String.prototype.toLowerCase *)
Variable gunzipSync : string -> option string.  (* None: it throws *)
Variable gzipSync : string -> string.

(** [path.join(dir, entry.name)].  [path.join] returns the path in
    normal form (single backslashes); [dir] stands for the folder in
    that form, whichever spelling the caller passed. *)
Definition joinPath (dir name : string) : string :=
  String.append dir (String.append "\" name).

(** [scanFolder]: a later file of the same lower-cased name
    replaces an earlier one.  The keys hold a dot whenever they are
    looked up, so no property of [Object.prototype] is met and a
    finite map stands for the object. *)
Fixpoint scanEntry (dir : string) (entry : Entry)
         (availableFiles : gmap string string) : gmap string string :=
  match entry with
  | File name => <[toLowerCase name := joinPath dir name]> availableFiles
  | Dir name (Some listing) =>
      foldl (fun found e => scanEntry (joinPath dir name) e found)
            availableFiles listing
  | Dir name None => availableFiles          (* caught: a warning *)
  | Other name => availableFiles
  end.

Definition scanEntries (dir : string) (entries : list Entry)
           (availableFiles : gmap string string) : gmap string string :=
  foldl (fun found e => scanEntry dir e found) availableFiles entries.

Definition scanFolder (targetFolder : string)
           (listing : option (list Entry)) : gmap string string :=
  match listing with
  | Some entries => scanEntries targetFolder entries ∅
  | None => ∅
  end.

(** The callback of [xmlString.replace]: the replacement, and
    whether [patchCount] is incremented. *)
Definition replacer (availableFiles : gmap string string)
           (fullPath basename : string) : string * bool :=
  match availableFiles !! toLowerCase basename with
  | Some newPath =>
      if negb (String.eqb (toLowerCase newPath) (toLowerCase fullPath))
      then (newPath, true)
      else (fullPath, false)
  | None => (fullPath, false)
  end.

(** [xmlString.replace(pathPattern, callback)] with [patchCount]:
    the string is read from the left; where the pattern matches,
    the callback's result is written and the reading resumes after
    the match ([skip] counts the characters of a match still to be
    passed). *)
Fixpoint replacePaths (availableFiles : gmap string string)
         (s : list ascii) (skip patchCount : nat) : list ascii * nat :=
  match s with
  | [] => ([], patchCount)
  | c :: s' =>
      match skip with
      | S k => replacePaths availableFiles s' k patchCount
      | O =>
          match matchAt s with
          | Some (full, base) =>
              let (replacement, counted) :=
                replacer availableFiles (string_of_list_ascii full)
                         (string_of_list_ascii base) in
              let (out, n) :=
                replacePaths availableFiles s' (length full - 1)
                             (if counted then S patchCount
                              else patchCount) in
              (list_ascii_of_string replacement ++ out, n)
          | None =>
              let (out, n) :=
                replacePaths availableFiles s' 0 patchCount in
              (c :: out, n)
          end
      end
  end.

(** Lines 2080-2152: the patch of a pulled file.  [disk] maps a path
    to its bytes, [listing] is what the target folder holds. *)
Definition patchPrproj (fileName targetFolder targetPath : string)
           (listing : option (list Entry)) (disk : gmap string string)
  : gmap string string :=
  if PullAll.endsWith fileName ".prproj" then
    match disk !! targetPath with
    | None => disk                              (* readFileSync throws *)
    | Some prprojBuffer =>
        match gunzipSync prprojBuffer with
        | None => disk                          (* caught: non-fatal *)
        | Some xmlString =>
            let availableFiles := scanFolder targetFolder listing in
            let (patched, patchCount) :=
              replacePaths availableFiles
                           (list_ascii_of_string xmlString) 0 0 in
            if (0 <? patchCount)%nat then
              <[targetPath := gzipSync (string_of_list_ascii patched)]>
                disk
            else disk
        end
    end
  else disk.

End Patch.

(** *** Vocabulary of the statements *)

(** The document as the pattern cuts it: characters outside any
    match, and the embedded absolute paths (whole match and
    basename). *)
Inductive Segment :=
| Text (c : ascii)
| EmbeddedPath (fullPath basename : string).

Fixpoint segments (s : list ascii) (skip : nat) : list Segment :=
  match s with
  | [] => []
  | c :: s' =>
      match skip with
      | S k => segments s' k
      | O =>
          match matchAt s with
          | Some (full, base) =>
              EmbeddedPath (string_of_list_ascii full)
                           (string_of_list_ascii base)
                :: segments s' (length full - 1)
          | None => Text c :: segments s' 0
          end
      end
  end.

(** The embedded path is to be rewritten to [newPath]: its basename
    is in the index under [newPath], which differs from the embedded
    path when both are compared in lower case. *)
Definition rewrittenTo (toLowerCase : string -> string)
           (availableFiles : gmap string string)
           (fullPath basename newPath : string) : Prop :=
  availableFiles !! toLowerCase basename = Some newPath /\
  toLowerCase newPath <> toLowerCase fullPath.

(** What a segment becomes in the patched document. *)
Definition render (toLowerCase : string -> string)
           (availableFiles : gmap string string) (seg : Segment)
  : list ascii :=
  match seg with
  | Text c => [c]
  | EmbeddedPath fullPath basename =>
      list_ascii_of_string
        (fst (replacer toLowerCase availableFiles fullPath basename))
  end.

Definition isRewritten (toLowerCase : string -> string)
           (availableFiles : gmap string string) (seg : Segment) : bool :=
  match seg with
  | Text _ => false
  | EmbeddedPath fullPath basename =>
      snd (replacer toLowerCase availableFiles fullPath basename)
  end.

(** ASCII lower-casing, for the examples. *)
Definition lowerChar (c : ascii) : ascii :=
  if between 65 90 c then ascii_of_nat (code c + 32) else c.

Definition asciiLower (s : string) : string :=
  string_of_list_ascii (map lowerChar (list_ascii_of_string s)).

(** A container format for the examples: "GZ:" before the text. *)
Definition toyGunzip (bytes : string) : option string :=
  if String.prefix "GZ:" bytes
  then Some (String.substring 3 (String.length bytes - 3) bytes)
  else None.

Definition toyGzip (text : string) : string := String.append "GZ:" text.

Definition exampleListing : option (list Entry) :=
  Some [ File "promo.prproj";
         Dir "media" (Some [ File "Clip.MOV"; Other "lnk" ]);
         Dir "cache" None ].

Definition exampleXml : string :=
  "<Media><ActualMediaFilePath>D:\Footage\day 1\clip.mov</ActualMediaFilePath><Title>C:\temp</Title><FilePath>d:\x\voice.wav</FilePath></Media>".

(** The document refers to the copy in the sync folder with another
    letter case. *)
Definition sameFileXml : string :=
  "<FilePath>C:\Sync\Promo\Media\clip.mov</FilePath>".

Definition exampleIndex : gmap string string :=
  scanFolder asciiLower "C:\sync\Promo" exampleListing.

End Patcher.

(** ** admin-server/server.js: project locks *)

Module Locks.

(** A row of [api_keys]; [key] is UNIQUE, so the table is a map from
    keys. *)
Record ApiKey := {
  editor_name : string;
  expires_at : string;
  revoked : bool
}.

(** A row of [project_locks]; [project_name] is UNIQUE, so the table
    is a map from project names. *)
Record Lock := {
  locked_by : string;
  locked_at : string
}.

Record Db := mkDb {
  api_keys : gmap string ApiKey;
  project_locks : gmap string Lock
}.

(** What a handler sends. *)
Inductive Response :=
| Unauthorized                          (* 401 { error: 'Invalid API key' } *)
| Success                               (* { success: true } *)
| LockedBy (holder lockedAt : string)   (* { success: false, error,
                                             lockedBy, lockedAt } *)
| NotOwner.                             (* { success: false,
                                             error: 'You do not own this lock' } *)

(** POST /api/projects/lock; [now] is [new Date().toISOString()]. *)
Definition lock (now apiKey projectName : string) (db : Db)
  : Response * Db :=
  match api_keys db !! apiKey with
  | None => (Unauthorized, db)
  | Some key =>
      if revoked key then (Unauthorized, db)
      else
        match project_locks db !! projectName with
        | Some existingLock =>
            (LockedBy (locked_by existingLock) (locked_at existingLock), db)
        | None =>
            (Success,
             mkDb (api_keys db)
                  (<[projectName := {| locked_by := editor_name key;
                                       locked_at := now |}]>
                     (project_locks db)))
        end
  end.

(** POST /api/projects/unlock *)
Definition unlock (apiKey projectName : string) (db : Db)
  : Response * Db :=
  match api_keys db !! apiKey with
  | None => (Unauthorized, db)
  | Some key =>
      match project_locks db !! projectName with
      | Some lock =>
          if negb (String.eqb (locked_by lock) (editor_name key)) then
            (NotOwner, db)
          else
            (Success,
             mkDb (api_keys db) (delete projectName (project_locks db)))
      | None =>
          (Success,
           mkDb (api_keys db) (delete projectName (project_locks db)))
      end
  end.

(** POST /api/projects/force-unlock, behind [requireAuth]. *)
Definition forceUnlock (projectName : string) (db : Db) : Response * Db :=
  (Success, mkDb (api_keys db) (delete projectName (project_locks db))).

(** Scenario 4 of the specification: A holds "Promo_Cut". *)
Definition exampleDb : Db :=
  mkDb {[ "key-A" := {| editor_name := "A"; expires_at := "2027-01-01";
                        revoked := false |};
          "key-B" := {| editor_name := "B"; expires_at := "2027-01-01";
                        revoked := false |} ]}
       {[ "Promo_Cut" := {| locked_by := "A";
                            locked_at := "2026-10-01T10:00:00.000Z" |} ]}.

End Locks.

(** ** Strings as JavaScript reads them *)

Module Js.

(** [s.split(sep)] for a separator of one character. *)
Fixpoint split (sep : ascii) (s : string) : list string :=
  match s with
  | EmptyString => [EmptyString]
  | String c s' =>
      if Ascii.eqb c sep then EmptyString :: split sep s'
      else match split sep s' with
           | piece :: pieces => String c piece :: pieces
           | [] => [String c EmptyString]
           end
  end.

(** [s.startsWith(prefix)] *)
Fixpoint startsWith (s prefix : string) {struct prefix} : bool :=
  match prefix with
  | EmptyString => true
  | String p prefix' =>
      match s with
      | String c s' => Ascii.eqb c p && startsWith s' prefix'
      | EmptyString => false
      end
  end.

Definition contains (c : ascii) (s : string) : bool :=
  existsb (Ascii.eqb c) (list_ascii_of_string s).

Definition code (c : ascii) : nat := nat_of_ascii c.

Definition isDigit (c : ascii) : bool :=
  (48 <=? code c)%nat && (code c <=? 57)%nat.

Definition digitValue (c : ascii) : Z := Z.of_nat (code c) - 48.

(** The white space [parseInt] skips, among the characters a header
    value can hold (code units up to 255): TAB, LF, VT, FF, CR, space
    and the no-break space. *)
Definition isWhiteSpace (c : ascii) : bool :=
  (code c =? 9)%nat || (code c =? 10)%nat || (code c =? 11)%nat ||
  (code c =? 12)%nat || (code c =? 13)%nat || (code c =? 32)%nat ||
  (code c =? 160)%nat.

Fixpoint skipWhiteSpace (s : string) : string :=
  match s with
  | String c s' => if isWhiteSpace c then skipWhiteSpace s' else s
  | EmptyString => s
  end.

(** The value of the longest prefix of decimal digits, read from an
    accumulator, and whether there is a digit at all. *)
Fixpoint readDigits (acc : Z) (s : string) : Z :=
  match s with
  | String c s' =>
      if isDigit c then readDigits (10 * acc + digitValue c) s' else acc
  | EmptyString => acc
  end.

Definition startsWithDigit (s : string) : bool :=
  match s with
  | String c _ => isDigit c
  | EmptyString => false
  end.

(** [parseInt(s, 10)], [None] for NaN.  (A JavaScript number holds
    the value exactly up to 2^53.) *)
Definition parseInt (s : string) : option Z :=
  match skipWhiteSpace s with
  | String "-" rest =>
      if startsWithDigit rest then Some (- readDigits 0 rest) else None
  | String "+" rest =>
      if startsWithDigit rest then Some (readDigits 0 rest) else None
  | rest =>
      if startsWithDigit rest then Some (readDigits 0 rest) else None
  end.

(** The decimal numeral of a number that is a natural number, as
    template literals and [toString()] write it. *)
Definition digitChar (d : Z) : ascii := ascii_of_nat (Z.to_nat (48 + d)).

Fixpoint numeralFuel (fuel : nat) (n : Z) (acc : string) : string :=
  match fuel with
  | O => acc
  | S fuel' =>
      let acc' := String (digitChar (n mod 10)) acc in
      if n <? 10 then acc' else numeralFuel fuel' (n / 10) acc'
  end.

Definition numeral (n : Z) : string :=
  numeralFuel (S (Z.to_nat (Z.log2 n))) n EmptyString.

End Js.

(** ** admin-server/server.js: authentication, API keys, registry *)

Module Server.
Import Locks Js.

(** A row of [projects]; [name] is UNIQUE, so the table is a map from
    names. *)
Record Project := {
  p_path : string;
  p_uploaded_by : string;
  p_uploaded_at : string;
  p_updated_at : string
}.

(** A row of [project_files]; the table has no UNIQUE column besides
    its row id, so it is a list, in insertion order. *)
Record FileRow := {
  fr_project_name : string;
  fr_file_name : string;
  fr_file_path : string;
  fr_file_size : Z;
  fr_file_type : string;
  fr_uploaded_by : string;
  fr_uploaded_at : string
}.

(** An element of [files] in the body of a register request; a
    property that is absent is [None]. *)
Record FileReq := {
  f_name : option string;
  f_path : option string;
  f_size : option Z;
  f_type : option string;
  f_extension : option string
}.

(** A row of [activity_log]. *)
Record Activity := {
  a_api_key : string;
  a_editor_name : string;
  a_action : string;
  a_project_name : string;
  a_timestamp : string
}.

(** The database: the two tables of module [Locks], the column
    [last_used] of [api_keys] (by key; absent: NULL), [admin] as a map
    from the UNIQUE [username] to [password_hash], and the registry. *)
Record Store := mkStore {
  db : Db;
  last_used : gmap string string;
  admin : gmap string string;
  activity_log : list Activity;
  projects : gmap string Project;
  project_files : list FileRow
}.

Definition withDb (st : Store) (db' : Db) : Store :=
  mkStore db' (last_used st) (admin st) (activity_log st) (projects st)
          (project_files st).

(** *** Authentication *)

Section Auth.
(** [Buffer.from(b, 'base64').toString()] and [bcrypt]. *)
Variable base64Decode : string -> string.
Variable hashSync : string -> string.
Variable compareSync : string -> string -> bool.

(** How [requireAuth] ends: one of its two 401 answers, an exception
    ([bcrypt.compareSync] refuses an undefined password, which Express
    turns into a 500), or [next()]. *)
Inductive AuthResult :=
| AuthenticationRequired
| InvalidCredentials
| AuthThrows
| Next.

Definition requireAuth (authorization : option string)
           (admins : gmap string string) : AuthResult :=
  match authorization with
  | None => AuthenticationRequired
  | Some authHeader =>
      if negb (startsWith authHeader "Basic ") then
        AuthenticationRequired
      else
        let base64 := nth 1 (split " " authHeader) EmptyString in
        let pieces := split ":" (base64Decode base64) in
        let username := nth 0 pieces EmptyString in
        match admins !! username with
        | None => InvalidCredentials
        | Some password_hash =>
            match pieces !! 1%nat with
            | None => AuthThrows
            | Some password =>
                if compareSync password password_hash then Next
                else InvalidCredentials
            end
        end
  end.

(** POST /api/admin/login with a body that has both fields; [true]:
    [{ success: true }], [false]: 401. *)
Definition login (username password : string) (st : Store) : bool :=
  match admin st !! username with
  | None => false
  | Some password_hash => compareSync password password_hash
  end.

(** POST /api/admin/change-password, after [requireAuth]. *)
Definition changePassword (newPassword : string) (st : Store) : Store :=
  mkStore (db st) (last_used st)
          (alter (fun _ => hashSync newPassword) "admin" (admin st))
          (activity_log st) (projects st) (project_files st).

(** A route behind [requireAuth]: the handler runs only after
    [next()]. *)
Definition guarded {A} (authorization : option string)
           (handler : Store -> A * Store) (st : Store)
  : AuthResult * option A * Store :=
  match requireAuth authorization (admin st) with
  | Next => let (a, st') := handler st in (Next, Some a, st')
  | refusal => (refusal, None, st)
  end.

End Auth.

(** *** API keys *)

Definition setKey (k : string) (row : ApiKey) (d : Db) : Db :=
  mkDb (<[k := row]> (api_keys d)) (project_locks d).

(** POST /api/keys/:key/revoke: [UPDATE ... SET revoked = 1]. *)
Definition revokeKey (k : string) (d : Db) : Db :=
  mkDb (alter (fun row => {| editor_name := editor_name row;
                             expires_at := expires_at row;
                             revoked := true |}) k (api_keys d))
       (project_locks d).

(** DELETE /api/keys/:key *)
Definition deleteKey (k : string) (d : Db) : Db :=
  mkDb (delete k (api_keys d)) (project_locks d).

Section Dates.
(** [new Date(s).getTime()], [None] for NaN, and
    [new Date(t).toISOString()], [None] when it throws a RangeError. *)
Variable getTime : string -> option Z.
Variable toISOString : Z -> option string.

Definition msPerDay : Z := 24 * 60 * 60 * 1000.

Inductive KeyResponse :=
| KeyNotFound                       (* 404 *)
| KeyThrows                         (* toISOString of an invalid date *)
| KeyConflict                       (* INSERT breaks UNIQUE(key) *)
| KeyExtended (newExpiresAt : string)
| KeyCreated (key expiresAt : string).

(** A date that is NaN when read as a number gives NaN again. *)
Definition plusDays (t : option Z) (days : Z) : option Z :=
  match t with
  | Some ms => Some (ms + days * msPerDay)
  | None => None
  end.

Definition isoOf (t : option Z) : option string :=
  match t with
  | Some ms => toISOString ms
  | None => None
  end.

(** POST /api/keys/:key/extend with a whole number of [days]. *)
Definition extendKey (days : Z) (k : string) (d : Db) : KeyResponse * Db :=
  match api_keys d !! k with
  | None => (KeyNotFound, d)
  | Some key =>
      match isoOf (plusDays (getTime (expires_at key)) days) with
      | None => (KeyThrows, d)
      | Some newExpiresAt =>
          (KeyExtended newExpiresAt,
           setKey k {| editor_name := editor_name key;
                       expires_at := newExpiresAt;
                       revoked := false |} d)
      end
  end.

(** POST /api/keys with a whole number of [expiresInDays]: [key] is
    the [PSE-] string made from the UUID drawn, [now] is
    [Date.now()]. *)
Definition createKey (now : Z) (key editorName : string)
           (expiresInDays : Z) (d : Db) : KeyResponse * Db :=
  match toISOString (now + expiresInDays * msPerDay) with
  | Some expiresAt =>
      match api_keys d !! key with
      | Some _ => (KeyConflict, d)
      | None =>
          (KeyCreated key expiresAt,
           setKey key {| editor_name := editorName;
                         expires_at := expiresAt;
                         revoked := false |} d)
      end
  | None => (KeyThrows, d)
  end.

Inductive ValidateResponse :=
| InvalidKey                            (* 'Invalid API key' *)
| RevokedKey                            (* 'API key has been revoked' *)
| ExpiredKey                            (* 'API key has expired' *)
| ValidKey (editorName expiresAt : string).

(** [new Date(key.expires_at) < new Date()]: false when the stored
    date is NaN. *)
Definition expired (now : Z) (key : ApiKey) : bool :=
  match getTime (expires_at key) with
  | Some t => t <? now
  | None => false
  end.

(** POST /api/validate; [now] is the time of the request and [nowIso]
    its ISO string. *)
Definition validate (now : Z) (nowIso apiKey : string) (st : Store)
  : ValidateResponse * Store :=
  match api_keys (db st) !! apiKey with
  | None => (InvalidKey, st)
  | Some key =>
      if revoked key then (RevokedKey, st)
      else if expired now key then (ExpiredKey, st)
      else
        (ValidKey (editor_name key) (expires_at key),
         mkStore (db st) (<[apiKey := nowIso]> (last_used st)) (admin st)
                 (activity_log st) (projects st) (project_files st))
  end.

End Dates.

(** POST /api/activity; [false]: the 401. *)
Definition logActivity (nowIso apiKey action projectName : string)
           (st : Store) : bool * Store :=
  match api_keys (db st) !! apiKey with
  | None => (false, st)
  | Some key =>
      (true,
       mkStore (db st) (last_used st) (admin st)
               (activity_log st ++
                  [{| a_api_key := apiKey; a_editor_name := editor_name key;
                      a_action := action; a_project_name := projectName;
                      a_timestamp := nowIso |}])
               (projects st) (project_files st))
  end.

(** *** POST /api/projects/register *)

Definition orEmpty (s : option string) : string :=
  match s with
  | Some v => v
  | None => EmptyString
  end.

(** [file.type || file.extension || ''] *)
Definition typeOf (file : FileReq) : string :=
  match f_type file with
  | Some t => if Net.truthy t then t else orEmpty (f_extension file)
  | None => orEmpty (f_extension file)
  end.

(** [insertFile.run(...)] inside its [try]: a file without a name
    breaks NOT NULL, the error is logged and the row is left out. *)
Definition insertFile (nowIso editorName projectName : string)
           (rows : list FileRow) (file : FileReq) : list FileRow :=
  match f_name file with
  | None => rows
  | Some name =>
      rows ++ [{| fr_project_name := projectName;
                  fr_file_name := name;
                  fr_file_path := orEmpty (f_path file);
                  fr_file_size := match f_size file with
                                  | Some n => n
                                  | None => 0
                                  end;
                  fr_file_type := typeOf file;
                  fr_uploaded_by := editorName;
                  fr_uploaded_at := nowIso |}]
  end.

(** The answer: the 401, or [{ success: true, projectName,
    filesAdded }]. *)
Inductive RegisterResponse :=
| RegisterUnauthorized
| Registered (projectName : string) (filesAdded : nat).

Definition registerProject (nowIso apiKey projectName projectPath : string)
           (files : option (list FileReq)) (st : Store)
  : RegisterResponse * Store :=
  match api_keys (db st) !! apiKey with
  | None => (RegisterUnauthorized, st)
  | Some key =>
      if revoked key then (RegisterUnauthorized, st)
      else
        let row :=
          match projects st !! projectName with
          | Some existing =>
              {| p_path := projectPath;
                 p_uploaded_by := editor_name key;
                 p_uploaded_at := p_uploaded_at existing;
                 p_updated_at := nowIso |}
          | None =>
              {| p_path := projectPath;
                 p_uploaded_by := editor_name key;
                 p_uploaded_at := nowIso;
                 p_updated_at := nowIso |}
          end in
        let sent := match files with Some l => l | None => [] end in
        (Registered projectName (length sent),
         mkStore (db st) (last_used st) (admin st) (activity_log st)
                 (<[projectName := row]> (projects st))
                 (foldl (insertFile nowIso (editor_name key) projectName)
                        (project_files st) sent))
  end.

(** GET /api/projects/:name/files, as a set of rows (the order of
    equal timestamps is SQLite's). *)
Definition filesOf (projectName : string) (st : Store) : list FileRow :=
  filter (fun row => fr_project_name row = projectName) (project_files st).

(** *** Requests of editors, for statements about sequences *)

Inductive Request :=
| ReqLock (now apiKey projectName : string)
| ReqUnlock (apiKey projectName : string)
| ReqRevoke (key : string)
| ReqDelete (key : string).

Definition serve (r : Request) (d : Db) : Db :=
  match r with
  | ReqLock now apiKey projectName => snd (lock now apiKey projectName d)
  | ReqUnlock apiKey projectName => snd (unlock apiKey projectName d)
  | ReqRevoke key => revokeKey key d
  | ReqDelete key => deleteKey key d
  end.

Definition serveAll (rs : list Request) (d : Db) : Db :=
  foldl (fun d r => serve r d) d rs.

(** Whether a request releases the lock [holder] has on
    [projectName]: an unlock of that project with a key of that
    editor. *)
Definition releasesFor (holder projectName : string) (r : Request)
           (d : Db) : bool :=
  match r with
  | ReqUnlock apiKey p =>
      String.eqb p projectName &&
      match api_keys d !! apiKey with
      | Some key => String.eqb (editor_name key) holder
      | None => false
      end
  | _ => false
  end.

(** No request of the sequence releases that lock at the moment it is
    served. *)
Fixpoint noRelease (holder projectName : string) (rs : list Request)
         (d : Db) : Prop :=
  match rs with
  | [] => True
  | r :: rs' =>
      releasesFor holder projectName r d = false /\
      noRelease holder projectName rs' (serve r d)
  end.

(** The row a named file of a register request becomes. *)
Definition rowOf (nowIso editorName projectName : string) (file : FileReq)
  : option FileRow :=
  match f_name file with
  | None => None
  | Some name =>
      Some {| fr_project_name := projectName;
              fr_file_name := name;
              fr_file_path := orEmpty (f_path file);
              fr_file_size := match f_size file with
                              | Some n => n
                              | None => 0
                              end;
              fr_file_type := typeOf file;
              fr_uploaded_by := editorName;
              fr_uploaded_at := nowIso |}
  end.

(** An instance of the dates for examples: a date is written as the
    decimal numeral of its time in milliseconds. *)
Definition numeralTime (s : string) : option Z :=
  if startsWithDigit s then Some (readDigits 0 s) else None.

Definition numeralIso (t : Z) : option string :=
  if 0 <=? t then Some (numeral t) else None.

End Server.

(** ** upload-xhr.js: more vocabulary *)

Module UploadExtra.
Import Retry Net UploadXhr UploadSpec Js.

(** The first lines of [getRetryAfterMs]: the text of the
    [Retry-After] header ([None]: no such header), read by
    [parseInt(retryAfter, 10)]; a header that is absent or empty, or
    a text [parseInt] turns into NaN, gives [None]. *)
Definition headerSeconds (retryAfter : option string) : option Z :=
  match retryAfter with
  | Some text => if truthy text then parseInt text else None
  | None => None
  end.

(** [getRetryAfterMs] from the header text. *)
Definition getRetryAfterMsOfHeader (retryAfter : option string)
  : option Z :=
  getRetryAfterMs (headerSeconds retryAfter).

(** The milliseconds a log spends in [sleep]. *)
Definition sleepTotal (evs : list Event) : Z :=
  foldr (fun e acc => match e with
                      | EvSleep ms => ms + acc
                      | _ => acc
                      end) 0 evs.

(** The response an XHR request of the log ended with. *)
Definition responseOf (e : Event) : option XhrEvent :=
  match e with
  | EvPutChunk _ _ _ resp | EvPatchMedia _ _ resp => Some resp
  | _ => None
  end.

(** No response of the log carries a positive [Retry-After]. *)
Definition noServerDelay (e : Event) : Prop :=
  forall resp, responseOf e = Some resp -> serverDelayMs resp = None.

(** The most a retry loop entered at attempt [attempt] can sleep when
    the server names no delay: the backoff of the attempts left, each
    with the largest jitter. *)
Definition backoffBudget (attempt : Z) : Z :=
  (8000 - 1000 * 2 ^ (attempt - 1)) + 499 * (4 - attempt).

(** The requests that carry file content or open a session are
    addressed to file [fileId]; no metadata is created. *)
Definition addressedTo (fileId : string) (e : Event) : Prop :=
  match e with
  | EvCreateMetadata _ _ => False
  | EvSessionStart f _ _ => f = fileId
  | EvPatchMedia f _ _ => f = fileId
  | _ => True
  end.

(** A chunk request answered 308. *)
Definition answeredIncomplete (e : Event) : Prop :=
  exists rangeStart rangeEnd total ra body,
    e = EvPutChunk rangeStart rangeEnd total (XhrLoad 308 ra body).

(** A server that answers 308 to every chunk. *)
Definition alwaysIncomplete (env : Env) : Prop :=
  forall n, exists ra body, xhrEvent env n = XhrLoad 308 ra body.

(** A file declared as 20 MiB of which only 10 MiB + 5 bytes are on
    disk; the server answers 308 to every chunk. *)
Definition truncatedEnv : Env := {|
  validToken := Some "ya29.token";
  searchResponse := FetchOk [];
  createResponse := FetchOk "file-1";
  sessionResponse := fun _ => FetchOk (Some "https://upload/session");
  xhrEvent := fun _ => XhrLoad 308 None None;
  mathRandom := fun _ => (1 # 2)%Q;
  requireDefined := true;
  localFile := Some 10485765;
  md5Digest := None
|}.

(** A folder that already holds the file, with other content; the
    server accepts the [PATCH]. *)
Definition changedEnv : Env := {|
  validToken := Some "ya29.token";
  searchResponse :=
    FetchOk [{| df_id := "file-3";
                df_md5Checksum := Some "5d41402abc4b2a76b9719d911017c592" |}];
  createResponse := FetchOk "file-new";
  sessionResponse := fun _ => FetchOk (Some "https://upload/session");
  xhrEvent := fun _ => XhrLoad 200 None (Some (Some "file-3"));
  mathRandom := fun _ => (1 # 2)%Q;
  requireDefined := true;
  localFile := None;
  md5Digest := Some "0cc175b9c0f1b6a831c399e269772661"
|}.

(** A Drive whose lookup answers 503. *)
Definition busyEnv : Env := {|
  validToken := Some "ya29.token";
  searchResponse := FetchNotOk 503 (Some 1);
  createResponse := FetchOk "file-1";
  sessionResponse := fun _ => FetchOk (Some "https://upload/session");
  xhrEvent := fun _ => XhrLoad 200 None (Some (Some "file-1"));
  mathRandom := fun _ => (1 # 2)%Q;
  requireDefined := true;
  localFile := None;
  md5Digest := None
|}.

End UploadExtra.

(** ** upload-helper.js: more vocabulary for the worker pool *)

Module PoolExtra.
Import Pool.

(** A report entry says what happened to its file. *)
Definition entryFaithful (upload : nat -> FileOutcome) (s : State)
           (e : nat * ReportStatus) : Prop :=
  match snd e with
  | RUploaded => upload (fst e) = Uploaded
  | RSkipped => upload (fst e) = Skipped
  | RFailed => upload (fst e) = Threw
  | RCancelled => cancelled s = true \/ fst e ∈ cancelledFiles s
  end.

Definition reportFaithful (upload : nat -> FileOutcome) (s : State) : Prop :=
  Forall (entryFaithful upload s) (reportEntries s).

(** The status of a file is "complete" or "skipped" only once a
    worker has taken the file. *)
Definition settledTaken (s : State) : Prop :=
  forall j st,
    fileStatus s !! j = Some st ->
    st = Complete \/ st = SkippedFile ->
    (j < nextFileIndex s)%nat.

(** File [i] was cancelled before any worker took it. *)
Record CancelledEarly (i : nat) (s : State) : Prop := {
  ce_clicked : i ∈ cancelledFiles s;
  ce_not_inflight : i ∉ inflight (workers s);
  ce_entries : forall r, (i, r) ∈ reportEntries s -> r = RCancelled
}.

(** The batch since "Cancel All" was pressed in state [s0]. *)
Record Stopped (s0 s : State) : Prop := {
  st_flag : cancelled s = true;
  st_next : nextFileIndex s = nextFileIndex s0;
  st_inflight : inflight (workers s) ⊆ inflight (workers s0);
  st_entries :
    exists extra,
      reportEntries s = reportEntries s0 ++ extra /\
      Forall (fun e => fst e ∈ inflight (workers s0) /\ snd e <> RFailed)
             extra
}.

End PoolExtra.

(** ** upload-helper.js: names, paths and versions *)

Module PushPaths.
Import Js.

Definition isSlash (c : ascii) : bool := Ascii.eqb c "/".
Definition isBackslash (c : ascii) : bool := Ascii.eqb c "\".

(** [(value || '').replace(/\\/g, '/')] *)
Fixpoint toForwardSlash (value : string) : string :=
  match value with
  | EmptyString => EmptyString
  | String c rest =>
      String (if isBackslash c then "/"%char else c) (toForwardSlash rest)
  end.

(** [.replace(/\/+/g, '/')]: every run of slashes becomes one slash;
    [afterSlash] says that the run has begun. *)
Fixpoint collapseFrom (afterSlash : bool) (value : string) : string :=
  match value with
  | EmptyString => EmptyString
  | String c rest =>
      if isSlash c then
        if afterSlash then collapseFrom true rest
        else String c (collapseFrom true rest)
      else String c (collapseFrom false rest)
  end.

Definition collapseSlashes (value : string) : string :=
  collapseFrom false value.

(** [(value || '').replace(/^[/\\]+/, '')] *)
Fixpoint trimLeadingSlashes (value : string) : string :=
  match value with
  | EmptyString => EmptyString
  | String c rest =>
      if isSlash c || isBackslash c then trimLeadingSlashes rest else value
  end.

Definition sanitizeRelativePath (value : string) : string :=
  trimLeadingSlashes (collapseSlashes (toForwardSlash value)).

(** A relative path in the form Drive paths are kept in: no
    backslash, no two slashes in a row, no slash at its head;
    [afterSlash] says that a slash may not come next. *)
Fixpoint cleanFrom (afterSlash : bool) (value : string) : bool :=
  match value with
  | EmptyString => true
  | String c rest =>
      if isBackslash c then false
      else if isSlash c then negb afterSlash && cleanFrom true rest
           else cleanFrom false rest
  end.

Definition clean (value : string) : bool := cleanFrom true value.

(** [file.uploadKey = `${index}:${file.path || file.name}`] *)
Definition uploadKey (index : nat) (pathOrName : string) : string :=
  String.append (numeral (Z.of_nat index)) (String ":" pathOrName).

(** The number that the digits of [a] followed by the digits of [n]
    stand for, with the fuel of [numeralFuel]; it states what
    [readDigits] makes of a numeral. *)
Fixpoint glue (fuel : nat) (n a : Z) : Z :=
  match fuel with
  | O => a
  | S fuel' =>
      if n <? 10 then 10 * a + n
      else 10 * glue fuel' (n / 10) a + n mod 10
  end.

(** [s.toLowerCase()] on the letters A to Z; the other characters of
    a result that is compared with the literals below are left as
    they are by JavaScript too. *)
Fixpoint toLowerCase (s : string) : string :=
  match s with
  | EmptyString => EmptyString
  | String c rest => String (Patcher.lowerChar c) (toLowerCase rest)
  end.

(** [(fileName.split('.').pop() || '').toLowerCase()] *)
Definition extensionOf (fileName : string) : string :=
  toLowerCase (List.last (split "." fileName) EmptyString).

Definition getMimeTypeFromName (fileName : string) : string :=
  let ext := extensionOf fileName in
  if String.eqb ext "mov" then "video/quicktime"
  else if String.eqb ext "mp4" then "video/mp4"
  else if String.eqb ext "avi" then "video/x-msvideo"
  else if String.eqb ext "mxf" then "application/mxf"
  else if String.eqb ext "wav" then "audio/wav"
  else if String.eqb ext "mp3" then "audio/mpeg"
  else if String.eqb ext "jpg" || String.eqb ext "jpeg" then "image/jpeg"
  else if String.eqb ext "png" then "image/png"
  else "application/octet-stream".

(** *** [compareVersions] *)

(** A JavaScript number, as far as comparisons go. *)
Inductive JsNumber :=
| NaN
| Num (q : Q)
| PosInfinity
| NegInfinity.

(** [x || 0] for a number: NaN and zero are falsy. *)
Definition orZero (x : JsNumber) : JsNumber :=
  match x with
  | NaN => Num 0
  | other => other
  end.

(** [x > y] for numbers that are not NaN. *)
Definition gtb (x y : JsNumber) : bool :=
  match x, y with
  | NaN, _ | _, NaN => false
  | PosInfinity, PosInfinity => false
  | PosInfinity, _ => true
  | _, PosInfinity => false
  | NegInfinity, _ => false
  | _, NegInfinity => true
  | Num p, Num q => match (p ?= q)%Q with Gt => true | _ => false end
  end.

Section Versions.
(** [Number(s)] *)
Variable Number : string -> JsNumber.

(** [pa[i] || 0], where [pa = a.split('.').map(Number)]; a part that
    is missing is [undefined]. *)
Definition part (a : string) (i : nat) : JsNumber :=
  match split "." a !! i with
  | Some text => orZero (Number text)
  | None => Num 0
  end.

Fixpoint compareFrom (a b : string) (i count : nat) : Z :=
  match count with
  | O => 0
  | S count' =>
      if gtb (part a i) (part b i) then 1
      else if gtb (part b i) (part a i) then -1
      else compareFrom a b (S i) count'
  end.

Definition compareVersions (a b : string) : Z := compareFrom a b 0 3.

End Versions.

(** A reading of [Number] for examples: the value of a string of
    decimal digits, 0 for the empty string, NaN for anything else. *)
Definition numberOfDigits (s : string) : JsNumber :=
  match s with
  | EmptyString => Num 0
  | _ =>
      if forallb isDigit (list_ascii_of_string s)
      then Num (inject_Z (readDigits 0 s))
      else NaN
  end.

End PushPaths.

(** ** google-drive.js: listing the files of a project folder *)

Module DriveListing.
Import Js.

(** An element of [data.files], with the fields the request asks
    for. *)
Record DriveItem := {
  it_id : string;
  it_name : string;
  it_mimeType : string;
  it_md5Checksum : option string;
  it_size : option string;
  it_modifiedTime : option string
}.

Definition folderMime : string := "application/vnd.google-apps.folder".

(** [{ ...file, name }] *)
Definition withName (name : string) (file : DriveItem) : DriveItem :=
  {| it_id := it_id file;
     it_name := name;
     it_mimeType := it_mimeType file;
     it_md5Checksum := it_md5Checksum file;
     it_size := it_size file;
     it_modifiedTime := it_modifiedTime file |}.

(** An element of [folderStack]. *)
Record Frame := {
  frame_id : string;
  pathPrefix : string
}.

(** What one [fetch] of a page gives: [res.ok] with [data.files] and
    [data.nextPageToken] (absent: [None]), a response that is not ok
    with its status and text, or a rejected [fetch]. *)
Inductive PageResponse :=
| PageOk (files : option (list DriveItem)) (nextPageToken : option string)
| PageNotOk (status : Z) (errorText : string)
| PageRejected (message : string).

Inductive ListOutcome :=
| Listed (allFiles : list DriveItem)
| ListThrows (message : string).

(** [current.pathPrefix ? `${current.pathPrefix}/${file.name}` :
    file.name] *)
Definition qualify (prefix name : string) : string :=
  if Net.truthy prefix then String.append prefix (String "/" name)
  else name.

(** One turn of [for (const file of files)]; the top of
    [folderStack], where [push] and [pop] work, is the head of the
    list. *)
Definition visit (current : Frame) (acc : list Frame * list DriveItem)
           (file : DriveItem) : list Frame * list DriveItem :=
  if String.eqb (it_mimeType file) folderMime then
    ({| frame_id := it_id file;
        pathPrefix := qualify (pathPrefix current) (it_name file) |}
       :: fst acc,
     snd acc)
  else
    (fst acc,
     snd acc ++ [withName (qualify (pathPrefix current) (it_name file)) file]).

Definition orNil (files : option (list DriveItem)) : list DriveItem :=
  match files with
  | Some l => l
  | None => []
  end.

Definition orEmptyToken (t : option string) : string :=
  match t with
  | Some v => v
  | None => EmptyString
  end.

Section Listing.
(** The page Drive serves for a folder id and a page token (the empty
    token asks for the first page). *)
Variable fetchPage : string -> string -> PageResponse.

(** The two loops of [listFilesInFolder], entered at the [fetch] of
    the page [pageToken] of folder [current]; the fuel bounds the
    number of pages fetched. *)
Fixpoint listLoop (fuel : nat) (current : Frame) (pageToken : string)
         (folderStack : list Frame) (allFiles : list DriveItem)
  : option ListOutcome :=
  match fuel with
  | O => None
  | S fuel' =>
      match fetchPage (frame_id current) pageToken with
      | PageRejected message => Some (ListThrows message)
      | PageNotOk status errorText =>
          Some (ListThrows
                  (String.append "Failed to list files in folder: "
                     (String.append (numeral status)
                        (String " " errorText))))
      | PageOk files nextPageToken =>
          let acc := foldl (visit current) (folderStack, allFiles)
                           (orNil files) in
          let pageToken' := orEmptyToken nextPageToken in
          if Net.truthy pageToken' then
            listLoop fuel' current pageToken' (fst acc) (snd acc)
          else
            match fst acc with
            | [] => Some (Listed (snd acc))
            | next :: rest => listLoop fuel' next EmptyString rest (snd acc)
            end
      end
  end.

(** [token] is what [getValidToken] resolves to. *)
Definition listFilesInFolder (fuel : nat) (token : option string)
           (folderId : string) : option ListOutcome :=
  match token with
  | Some t =>
      if Net.truthy t then
        listLoop fuel {| frame_id := folderId; pathPrefix := EmptyString |}
                 EmptyString [] []
      else Some (ListThrows "Not authenticated")
  | None => Some (ListThrows "Not authenticated")
  end.

End Listing.

(** *** The folder tree a Drive holds *)

#[warnings="-register-all"]
Inductive Tree :=
| Leaf (item : DriveItem)
| Dir (item : DriveItem) (children : list Tree).

Definition itemOf (t : Tree) : DriveItem :=
  match t with
  | Leaf item => item
  | Dir item _ => item
  end.

(** The files that lie in a folder itself, under their paths. *)
Definition leaves (prefix : string) (children : list Tree)
  : list DriveItem :=
  omap (fun t => match t with
                 | Leaf item =>
                     Some (withName (qualify prefix (it_name item)) item)
                 | Dir _ _ => None
                 end) children.

(** The files below a subfolder of the folder whose path is
    [prefix]: the files of the subfolder first, then what lies below
    its own subfolders, the last subfolder first. *)
Fixpoint under (prefix : string) (t : Tree) : list DriveItem :=
  match t with
  | Leaf _ => []
  | Dir item children =>
      let p := qualify prefix (it_name item) in
      leaves p children ++ concat (rev (map (under p) children))
  end.

Definition listingOf (prefix : string) (children : list Tree)
  : list DriveItem :=
  leaves prefix children ++ concat (rev (map (under prefix) children)).

Fixpoint size (t : Tree) : nat :=
  match t with
  | Leaf _ => 1
  | Dir _ children => S (list_sum (map size children))
  end.

(** The number of files, folders not counted, of a tree. *)
Fixpoint countFiles (t : Tree) : nat :=
  match t with
  | Leaf _ => 1
  | Dir _ children => list_sum (map countFiles children)
  end.

(** The subfolders of a folder, as the frames that are pushed for
    them, each with what it holds. *)
Definition dirsOf (prefix : string) (children : list Tree)
  : list (Frame * list Tree) :=
  omap (fun t => match t with
                 | Leaf _ => None
                 | Dir item held =>
                     Some ({| frame_id := it_id item;
                              pathPrefix := qualify prefix (it_name item) |},
                           held)
                 end) children.

(** The files below the folders of a stack, the top first. *)
Definition out (stack : list (Frame * list Tree)) : list DriveItem :=
  concat (map (fun s => listingOf (pathPrefix (fst s)) (snd s)) stack).

Definition sizes (children : list Tree) : nat :=
  list_sum (map size children).

Definition stackSize (stack : list (Frame * list Tree)) : nat :=
  list_sum (map (fun s => S (sizes (snd s))) stack).

Section Serving.
Variable fetchPage : string -> string -> PageResponse.

(** Drive serves the entries [pages], page by page, for folder [id]
    from page [token] on. *)
Inductive ServesPages (id : string) : string -> list (list Tree) -> Prop :=
| serves_last token trees files :
    fetchPage id token = PageOk files None \/
    fetchPage id token = PageOk files (Some EmptyString) ->
    orNil files = map itemOf trees ->
    ServesPages id token [trees]
| serves_more token trees files next rest :
    fetchPage id token = PageOk files (Some next) ->
    Net.truthy next = true ->
    orNil files = map itemOf trees ->
    ServesPages id next rest ->
    ServesPages id token (trees :: rest).

Definition servesFolder (id : string) (children : list Tree) : Prop :=
  exists pages, concat pages = children /\ ServesPages id EmptyString pages.

(** Drive holds the tree: folders are what carries the folder MIME
    type, and every folder of the tree is served with its entries. *)
Fixpoint served (t : Tree) : Prop :=
  match t with
  | Leaf item => it_mimeType item <> folderMime
  | Dir item children =>
      it_mimeType item = folderMime /\
      servesFolder (it_id item) children /\
      foldr (fun c rest => served c /\ rest) True children
  end.

Definition servedFrame (s : Frame * list Tree) : Prop :=
  servesFolder (frame_id (fst s)) (snd s) /\ Forall served (snd s).

End Serving.

(** A small Drive for examples: a project folder with two files on
    two pages and a subfolder [media] with one file. *)
Definition exampleItem (id name mime : string) : DriveItem :=
  {| it_id := id; it_name := name; it_mimeType := mime;
     it_md5Checksum := None; it_size := Some "6";
     it_modifiedTime := None |}.

Definition exampleTree : list Tree :=
  [ Leaf (exampleItem "id-p" "promo.prproj" "application/octet-stream");
    Dir (exampleItem "id-m" "media" folderMime)
        [ Leaf (exampleItem "id-c" "clip.mov" "video/quicktime") ];
    Leaf (exampleItem "id-n" "notes.txt" "text/plain") ].

Definition exampleFetch (id pageToken : string) : PageResponse :=
  if String.eqb id "root" then
    if String.eqb pageToken "" then
      PageOk (Some [exampleItem "id-p" "promo.prproj"
                                "application/octet-stream";
                    exampleItem "id-m" "media" folderMime])
             (Some "page-2")
    else if String.eqb pageToken "page-2" then
      PageOk (Some [exampleItem "id-n" "notes.txt" "text/plain"]) None
    else PageNotOk 400 "Invalid page token"
  else if String.eqb id "id-m" then
    PageOk (Some [exampleItem "id-c" "clip.mov" "video/quicktime"]) None
  else PageNotOk 404 "File not found".

End DriveListing.

(** ** main.js: the project explorer and the old pull *)

Module PullExtra.
Import Js.

(** An entry of [offlineFiles]: a timeline item whose media is
    offline. *)
Record OfflineItem := {
  of_name : string;
  of_fileName : option string;
  of_lastPath : option string;
  of_nodeId : string
}.

(** [file.name.includes('/') ? file.name.split('/').pop() : file.name] *)
Definition baseNameOf (name : string) : string :=
  if contains "/" name then List.last (split "/" name) EmptyString
  else name.

(** [x && x === y] for a property that may be absent *)
Definition isText (x : option string) (y : string) : bool :=
  match x with
  | Some v => Net.truthy v && String.eqb v y
  | None => false
  end.

(** The predicate of [offlineFiles.find(...)]. *)
Definition matchesOffline (fileName : string) (item : OfflineItem) : bool :=
  let base := baseNameOf fileName in
  String.eqb (of_name item) fileName ||
  String.eqb (of_name item) base ||
  isText (of_fileName item) fileName ||
  isText (of_fileName item) base ||
  match of_lastPath item with
  | Some lastPath => Net.truthy lastPath && PullAll.endsWith lastPath base
  | None => false
  end.

(** The status column of a row of the explorer. *)
Inductive Status :=
| OfflineInTimeline (nodeId : string)   (* button "Pull & Link" *)
| MissingLocally                        (* button "Pull" *)
| Modified (localSize driveSize : Z)    (* button "Update" *)
| Synced                                (* button "Force Download" *)
| ProjectUpdate.                        (* button "Update & Reload" *)

(** The local size [renderProjectExplorer] and [handlePullAll] read:
    -1 when [fs] is missing or the file does not exist. *)
Definition localSizeOf (fsAvailable : bool) (disk : gmap string Z)
           (localPath : string) : Z :=
  if fsAvailable then
    match disk !! localPath with
    | Some n => n
    | None => -1
    end
  else -1.

Definition existsLocally (fsAvailable : bool) (disk : gmap string Z)
           (localPath : string) : bool :=
  fsAvailable && bool_decide (is_Some (disk !! localPath)).

(** The status [renderProjectExplorer] gives one file. *)
Definition explorerStatus (fsAvailable : bool) (disk : gmap string Z)
           (targetFolder : string) (offlineFiles : list OfflineItem)
           (isCurrentProject : bool) (file : PullAll.DriveFile) : Status :=
  let localPath := PullAll.localPathOf targetFolder file in
  let localSize := localSizeOf fsAvailable disk localPath in
  let driveSize := PullAll.driveSizeOf file in
  let status :=
    match List.find (matchesOffline (PullAll.name file)) offlineFiles with
    | Some offlineItem => OfflineInTimeline (of_nodeId offlineItem)
    | None =>
        if negb (existsLocally fsAvailable disk localPath) then MissingLocally
        else if negb (localSize =? driveSize) then
               Modified localSize driveSize
             else Synced
    end in
  if PullAll.isPrproj (PullAll.name file) && isCurrentProject &&
     negb (localSize =? driveSize)
  then ProjectUpdate
  else status.

Definition isStart (e : PullAll.Event) : bool :=
  match e with
  | PullAll.TransferStart _ => true
  | PullAll.TransferEnd _ _ => false
  end.

(** *** The conflicts of [handlePullProjectOld] *)

(** One turn of the loop over [result.conflicts]: download, write,
    count; an error of the download is caught and the next conflict
    is tried. *)
Definition overwriteOne (env : Download.Env)
           (acc : nat * gmap string string) (c : Download.Conflict)
  : nat * gmap string string :=
  match Download.downloadFile env (Download.id (Download.c_driveFile c)) with
  | None => acc
  | Some content =>
      if Download.writeFails env (Download.c_localPath c) then acc
      else (S (fst acc), <[Download.c_localPath c := content]> (snd acc))
  end.

(** What follows the second [confirm]: [overwrite] is the answer of
    the user; the result is [overwriteCount] and the disk. *)
Definition resolveByUser (env : Download.Env) (overwrite : bool)
           (conflicts : list Download.Conflict) (disk : gmap string string)
  : nat * gmap string string :=
  if overwrite then foldl (overwriteOne env) (0%nat, disk) conflicts
  else (0%nat, disk).

(** What the loop keeps true of [downloadState]. *)
Definition balanced (projectPath : string)
           (known : list Download.DriveFile) (s : Download.State) : Prop :=
  Download.completedFiles s
  = (Download.downloadedFiles s + Download.skippedFiles s
     + Download.failedFiles s + length (Download.conflicts s))%nat /\
  Forall (fun c =>
            Download.c_driveFile c ∈ known /\
            Download.c_name c = Download.name (Download.c_driveFile c) /\
            Download.c_localPath c
            = Download.targetPathOf projectPath (Download.c_driveFile c) /\
            Download.c_driveSize c
            = Download.driveSizeOf (Download.c_driveFile c) /\
            Download.c_localSize c <> Download.c_driveSize c)
         (Download.conflicts s).

End PullExtra.

(** * Properties of the transfer primitive *)

Module UploadProofs.
Import Retry Net UploadXhr UploadSpec.

Lemma max_retries_val : DRIVE_MAX_RETRIES = 4.
Proof. reflexivity. Qed.

Lemma chunk_size_val : DRIVE_CHUNK_SIZE = 8388608.
Proof. reflexivity. Qed.

Lemma retryFuel_ok :
  (1 <= retryFuel)%nat /\ DRIVE_MAX_RETRIES < Z.of_nat retryFuel + 1.
Proof. unfold retryFuel, DRIVE_MAX_RETRIES. lia. Qed.

(** *** The retry loop *)

Lemma retryLoop_trace {A} env request (listeners : XhrEvent -> UploadError + A) :
  forall fuel attempt w out w',
    (1 <= fuel)%nat ->
    DRIVE_MAX_RETRIES < Z.of_nat fuel + attempt ->
    retryLoop env fuel attempt (sendXhr env request listeners) w = (out, w') ->
    exists evs,
      log w' = log w ++ evs /\
      RetryTrace env request listeners attempt evs out.
Proof.
  induction fuel as [|fuel IH]; intros attempt w out w' Hpos Hfuel Hrun;
    [lia|].
  simpl in Hrun.
  destruct (Z.leb_spec attempt DRIVE_MAX_RETRIES) as [Hle|Hgt].
  - unfold tryCatch, bind, sendXhr, ret in Hrun.
    destruct (listeners (xhrEvent env (xhrSent w))) as [e|r] eqn:HL.
    + destruct ((DRIVE_MAX_RETRIES <=? attempt) || negb (retriable e))
        eqn:Hstop.
      * unfold throw in Hrun. injection Hrun as <- <-. simpl.
        eexists; split; [reflexivity|].
        apply RT_throw; [assumption..|].
        apply orb_true_iff in Hstop as [H|H].
        -- left. lia.
        -- right. now apply negb_true_iff.
      * apply orb_false_iff in Hstop as [Hlt Hret].
        apply negb_false_iff in Hret.
        apply Z.leb_gt in Hlt.
        unfold retryDelay, sleep, emit in Hrun. simpl in Hrun.
        match type of Hrun with
        | retryLoop _ _ _ _ ?w1 = _ =>
            destruct (IH (attempt + 1) w1 out w') as (evs & Hlog & Htr);
              [rewrite max_retries_val in *; lia
              |rewrite max_retries_val in *; lia
              |exact Hrun|]
        end.
        eexists. split.
        -- rewrite Hlog.
           destruct (usesExplicitDelay (retryAfterMs e)); simpl;
             rewrite <- !app_assoc; simpl; reflexivity.
        -- eapply RT_retry; eassumption.
    + injection Hrun as <- <-. simpl.
      eexists; split; [reflexivity|]. now apply RT_ok.
  - unfold ret in Hrun. injection Hrun as <- <-.
    exists []. split; [now rewrite app_nil_r|]. now apply RT_exit.
Qed.

Lemma retryTrace_not_outOfFuel {A} env request
      (listeners : XhrEvent -> UploadError + A) attempt evs out :
  RetryTrace env request listeners attempt evs out -> out <> OutOfFuel.
Proof. induction 1; congruence. Qed.

Lemma retryTrace_from_one_some {A} env request
      (listeners : XhrEvent -> UploadError + A) attempt evs :
  attempt <= DRIVE_MAX_RETRIES ->
  ~ RetryTrace env request listeners attempt evs (Returned None).
Proof.
  intros Hle Htr. remember (Returned None) as out eqn:Hout.
  induction Htr; try congruence; try lia.
  apply IHHtr; [lia | assumption].
Qed.

(** *** Chunks of one resumable upload *)

Lemma accepted_status resp :
  accepted resp = true <->
  exists st ra body, resp = XhrLoad st ra body /\ (st = 308 \/ 200 <= st < 300).
Proof.
  unfold accepted, chunkListeners, is2xx. split.
  - destruct resp as [st ra body| | |]; try discriminate.
    destruct ((st =? 308) || ((200 <=? st) && (st <? 300))) eqn:E;
      [|discriminate].
    intros _. exists st, ra, body. split; [reflexivity|]. lia.
  - intros (st & ra & body & -> & H).
    destruct ((st =? 308) || ((200 <=? st) && (st <? 300))) eqn:E;
      [reflexivity|lia].
Qed.

Lemma acceptedChunks_app l1 l2 :
  acceptedChunks (l1 ++ l2) = acceptedChunks l1 ++ acceptedChunks l2.
Proof. apply omap_app. Qed.

Lemma conformant_app l1 l2 :
  conformant (l1 ++ l2) <-> conformant l1 /\ conformant l2.
Proof.
  unfold conformant. rewrite forallb_app. apply andb_true_iff.
Qed.

Lemma tiles_sum cs : forall a b, tiles a cs b -> sumBytes cs = b - a.
Proof.
  induction cs as [|[s e] cs IH]; simpl; intros a b H.
  - lia.
  - destruct H as (Hs & Hle & Hrest). simpl in *.
    rewrite (IH _ _ Hrest). unfold chunkBytes. simpl. lia.
Qed.

Lemma tiles_le cs : forall a b, tiles a cs b -> a <= b.
Proof.
  induction cs as [|[s e] cs IH]; simpl; intros a b H.
  - lia.
  - destruct H as (Hs & Hle & Hrest). simpl in *.
    apply IH in Hrest. lia.
Qed.

(** What the retry loop around one chunk leaves in the log: requests
    for that very range, of which the last is accepted exactly when
    the loop returns a result. *)
Lemma chunk_retry_log env s e t attempt evs out :
  RetryTrace env (EvPutChunk s e t) chunkListeners attempt evs out ->
  Forall (carriesTotal t) evs /\
  acceptedChunks evs =
    match out with Returned (Some _) => [(s, e)] | _ => [] end /\
  (forall r, out = Returned (Some r) -> done r = true ->
             conformant evs -> e + 1 = t).
Proof.
  induction 1 as [a Ha|a ev r Ha HL|a ev err Ha HL Hstop
                 |a ev err n rest out Ha HL Hret Htr IH].
  - repeat split; [constructor | discriminate].
  - repeat split.
    + repeat constructor.
    + simpl. unfold acceptedChunks. simpl. unfold accepted. now rewrite HL.
    + intros r' [= <-] Hdone Hconf.
      unfold conformant in Hconf. simpl in Hconf.
      destruct ev as [st ra body| | |]; simpl in HL; try discriminate.
      destruct ((st =? 308) || is2xx st); [|discriminate].
      injection HL as <-. simpl in Hdone. rewrite Hdone in Hconf.
      rewrite andb_true_r in Hconf. lia.
  - repeat split.
    + repeat constructor.
    + unfold acceptedChunks. simpl. unfold accepted. now rewrite HL.
    + discriminate.
  - destruct IH as (Htot & Hacc & Hdone). repeat split.
    + repeat constructor; assumption.
    + unfold acceptedChunks in *. simpl. unfold accepted. rewrite HL.
      exact Hacc.
    + intros r Hout Hd Hconf. apply (Hdone r Hout Hd).
      change (conformant ([EvPutChunk s e t ev; EvSleep
                (buildRetryDelayMs a (retryAfterMs err) (mathRandom env n))]
                ++ rest)) in Hconf.
      now apply conformant_app in Hconf.
Qed.

Lemma readSync_full fileLen totalSize c :
  c < totalSize -> totalSize <= fileLen ->
  readSync fileLen (Z.min DRIVE_CHUNK_SIZE (totalSize - c)) c
  = Z.min DRIVE_CHUNK_SIZE (totalSize - c).
Proof. unfold readSync. rewrite chunk_size_val. lia. Qed.

Local Ltac side :=
  simpl; auto; try lia; try discriminate;
  try (intros Hcontra; exfalso; now apply Hcontra);
  try (intros [?|?]; lia).

Lemma chunkLoop_inv env url fid fileLen total :
  forall fuel c w out w',
    chunkLoop env fuel url fid fileLen total c w = (out, w') ->
    exists evs c',
      log w' = log w ++ evs /\
      Forall (carriesTotal total) evs /\
      tiles c (acceptedChunks evs) c' /\
      allButLastFull (acceptedChunks evs) /\
      (total <= c \/ fileLen <= c -> acceptedChunks evs = []) /\
      (c <= total -> c' <= total) /\
      (c <= total -> total <= fileLen ->
       forall r, out = Returned r -> conformant evs -> c' = total).
Proof.
  induction fuel as [|fuel IH]; intros c w out w' Hrun;
    cbn [chunkLoop] in Hrun; unfold ret, throw, outOfFuel in Hrun.
  { injection Hrun as <- <-. exists [], c.
    rewrite app_nil_r. repeat split; simpl; auto; try lia; discriminate. }
  destruct (Z.ltb_spec c total) as [Hlt|Hge].
  2:{ injection Hrun as <- <-. exists [], c.
      rewrite app_nil_r. repeat split; simpl; auto; lia. }
  set (br := readSync fileLen (Z.min DRIVE_CHUNK_SIZE (total - c)) c) in *.
  destruct (Z.leb_spec br 0) as [Hbr|Hbr].
  { injection Hrun as <- <-. exists [], c.
    rewrite app_nil_r. repeat split; simpl; auto; try lia.
    intros _ Hfile. exfalso. subst br.
    rewrite readSync_full in Hbr by lia. rewrite chunk_size_val in Hbr. lia. }
  assert (Hbr_le : br <= total - c /\ br <= fileLen - c /\
                   br <= DRIVE_CHUNK_SIZE).
  { subst br. unfold readSync in *. lia. }
  unfold bind in Hrun.
  destruct (retryLoop env retryFuel 1
              (putResumableChunk env url c (c + br - 1) total) w)
    as [out1 w1] eqn:Hretry.
  apply retryLoop_trace in Hretry as (evs1 & Hlog1 & Htr);
    [|apply retryFuel_ok..].
  pose proof (chunk_retry_log _ _ _ _ _ _ _ Htr) as (Htot1 & Hacc1 & Hdone1).
  destruct out1 as [[r|]|err|].
  - destruct (done r) eqn:Hd.
    + injection Hrun as <- <-. exists evs1, (c + br).
      rewrite Hacc1. repeat split; side.
      intros _ _ r' _ Hconf.
      specialize (Hdone1 r eq_refl Hd Hconf). lia.
    + apply IH in Hrun
        as (evs2 & c' & Hlog2 & Htot2 & Htiles & Hfull & Hnone & Hle & Hfin).
      exists (evs1 ++ evs2), c'.
      rewrite acceptedChunks_app, Hacc1. simpl.
      repeat split; auto; try lia.
      * rewrite Hlog2, Hlog1. now rewrite app_assoc.
      * apply Forall_app; split; assumption.
      * replace (c + br - 1 + 1) with (c + br) by lia. exact Htiles.
      * intros Hne. unfold chunkBytes. simpl.
        assert (~ (total <= c + br \/ fileLen <= c + br)) as Hnot
            by (intros H; apply Hne, Hnone, H).
        subst br. unfold readSync in *. rewrite chunk_size_val in *. lia.
      * intros _ Hfile r' Hout Hconf.
        apply conformant_app in Hconf as [_ Hconf2].
        apply (Hfin ltac:(lia) Hfile r' Hout Hconf2).
  - exfalso. eapply retryTrace_from_one_some; [|exact Htr].
    rewrite max_retries_val. lia.
  - injection Hrun as <- <-. exists evs1, c.
    rewrite Hacc1. repeat split; simpl; auto; try lia; discriminate.
  - injection Hrun as <- <-. exists evs1, c.
    rewrite Hacc1. repeat split; simpl; auto; try lia; discriminate.
Qed.

Lemma div_chunk_step total c :
  (total - (c + DRIVE_CHUNK_SIZE)) / DRIVE_CHUNK_SIZE
  = (total - c) / DRIVE_CHUNK_SIZE - 1.
Proof.
  replace (total - (c + DRIVE_CHUNK_SIZE))
    with (total - c + (-1) * DRIVE_CHUNK_SIZE) by lia.
  rewrite Z.div_add by (rewrite chunk_size_val; lia). lia.
Qed.

(** The loop returns or throws within [chunkFuel] iterations. *)
Lemma chunkLoop_fuel env url fid fileLen total :
  forall fuel c w,
    ((total <= c \/ fileLen <= c) /\ (1 <= fuel)%nat) \/
    (c < total /\ c < fileLen /\
     (total - c) / DRIVE_CHUNK_SIZE + 2 <= Z.of_nat fuel) ->
    fst (chunkLoop env fuel url fid fileLen total c w) <> OutOfFuel.
Proof.
  induction fuel as [|fuel IH]; intros c w Hfuel.
  { exfalso. destruct Hfuel as [[_ H]|(H1 & _ & H2)]; [lia|].
    assert (0 <= (total - c) / DRIVE_CHUNK_SIZE)
      by (apply Z.div_pos; rewrite ?chunk_size_val; lia).
    lia. }
  cbn [chunkLoop]. unfold ret, throw.
  destruct (Z.ltb_spec c total) as [Hlt|Hge]; [|simpl; congruence].
  set (br := readSync fileLen (Z.min DRIVE_CHUNK_SIZE (total - c)) c) in *.
  destruct (Z.leb_spec br 0) as [Hbr|Hbr]; [simpl; congruence|].
  assert (Hc : c < fileLen) by (subst br; unfold readSync in *; lia).
  destruct Hfuel as [[[H|H] _]|(_ & _ & Hfuel)]; try lia.
  assert (Hq : 0 <= (total - c) / DRIVE_CHUNK_SIZE)
    by (apply Z.div_pos; rewrite ?chunk_size_val; lia).
  unfold bind.
  destruct (retryLoop env retryFuel 1
              (putResumableChunk env url c (c + br - 1) total) w)
    as [out1 w1] eqn:Hretry.
  apply retryLoop_trace in Hretry as (evs1 & Hlog1 & Htr);
    [|apply retryFuel_ok..].
  destruct out1 as [[r|]|err|]; try (simpl; congruence).
  - destruct (done r); [simpl; congruence|].
    apply IH.
    destruct (Z.le_gt_cases total (c + br)) as [H1|H1]; [left; lia|].
    destruct (Z.le_gt_cases fileLen (c + br)) as [H2|H2]; [left; lia|].
    right. repeat split; try lia.
    assert (br = DRIVE_CHUNK_SIZE) as ->
        by (subst br; unfold readSync in *; lia).
    rewrite div_chunk_step. lia.
  - now apply retryTrace_not_outOfFuel in Htr.
Qed.

(** C1 (chunk coverage).  One call of [uploadResumableFromFile] for a
    file of declared size [S] always returns or throws.  Every chunk
    request carries the total [S] in its [Content-Range]; the accepted
    chunks (status 308 or 2xx) follow one another from byte 0 without
    overlap or gap, each starting at the bytes committed so far, and
    all but the last are exactly 8 MiB.  When the file holds its [S]
    bytes, the call returns a result and the server answered 2xx only
    to the chunk ending the range, the accepted chunks cover exactly
    the bytes [0 .. S-1] and their sizes add up to [S]. *)
Theorem resumable_chunk_coverage env fileName fileInput mimeType fileId
        w out w' :
  0 <= getFileInputSize env fileInput ->
  uploadResumableFromFile env fileName fileInput mimeType fileId w
    = (out, w') ->
  exists evs,
    log w' = log w ++ evs /\
    out <> OutOfFuel /\
    Forall (carriesTotal (getFileInputSize env fileInput)) evs /\
    (exists committed,
        tiles 0 (acceptedChunks evs) committed /\
        committed <= getFileInputSize env fileInput) /\
    allButLastFull (acceptedChunks evs) /\
    (forall fileLen r,
        localFile env = Some fileLen ->
        getFileInputSize env fileInput <= fileLen ->
        out = Returned r ->
        conformant evs ->
        tiles 0 (acceptedChunks evs) (getFileInputSize env fileInput) /\
        sumBytes (acceptedChunks evs) = getFileInputSize env fileInput).
Proof.
  set (S := getFileInputSize env fileInput). intros HS Hrun.
  unfold uploadResumableFromFile in Hrun. fold S in Hrun.
  destruct (requireDefined env); simpl in Hrun.
  2:{ injection Hrun as <- <-. exists []. rewrite app_nil_r.
      repeat split; simpl; auto; try discriminate.
      exists 0. split; [reflexivity|lia]. }
  unfold bind, createResumableSession in Hrun.
  set (w1 := mkWorld _ _ _ _) in Hrun.
  assert (Hthrow : forall e, (Thrown e, w1) = (out, w') ->
    exists evs, log w' = log w ++ evs /\ out <> OutOfFuel /\
      Forall (carriesTotal S) evs /\
      (exists committed, tiles 0 (acceptedChunks evs) committed /\
                         committed <= S) /\
      allButLastFull (acceptedChunks evs) /\
      (forall fileLen r, localFile env = Some fileLen -> S <= fileLen ->
         out = Returned r -> conformant evs ->
         tiles 0 (acceptedChunks evs) S /\
         sumBytes (acceptedChunks evs) = S)).
  { intros e [= <- <-]. eexists. split; [reflexivity|].
    repeat split; simpl; auto; try discriminate.
    - repeat constructor.
    - exists 0. split; [reflexivity|lia]. }
  destruct (sessionResponse env (sessionsStarted w)) as [[url|]|st ra|];
    try (eapply Hthrow; exact Hrun).
  destruct (truthy url); [|eapply Hthrow; exact Hrun].
  destruct (localFile env) as [fileLen|] eqn:Hfile;
    [|eapply Hthrow; exact Hrun].
  clear Hthrow.
  pose proof (chunkLoop_fuel env url fileId fileLen S (chunkFuel S) 0 w1)
    as Hfuel.
  rewrite Hrun in Hfuel. simpl in Hfuel.
  apply chunkLoop_inv in Hrun
    as (evs & c' & Hlog & Htot & Htiles & Hfull & _ & Hle & Hfin).
  exists (EvSessionStart fileId (orElse mimeType "application/octet-stream") S
            :: evs).
  change (acceptedChunks (EvSessionStart fileId
            (orElse mimeType "application/octet-stream") S :: evs))
    with (acceptedChunks evs).
  repeat split; auto.
  - rewrite Hlog. subst w1. simpl. now rewrite <- app_assoc.
  - apply Hfuel. unfold chunkFuel.
    assert (0 <= S / DRIVE_CHUNK_SIZE)
      by (apply Z.div_pos; rewrite ?chunk_size_val; lia).
    destruct (Z.le_gt_cases S 0); [left; lia|].
    destruct (Z.le_gt_cases fileLen 0); [left; lia|].
    right. rewrite Z.sub_0_r. lia.
  - constructor; [exact I|assumption].
  - exists c'. split; [assumption|apply Hle; lia].
  - assert (c' = S) as <-.
    { injection H as <-. eapply Hfin; eauto. }
    assumption.
  - assert (c' = S) as Hc.
    { injection H as <-. eapply Hfin; eauto. }
    rewrite (tiles_sum _ _ _ Htiles). lia.
Qed.

Lemma scenario_run :
  uploadResumableFromFile scenarioEnv "clip.mov" scenarioInput
    "video/quicktime" "file-1" world0
  = (Returned {| id := "file-1"; skipped := false; reason := None |},
     mkWorld 5 1 1
       [EvSessionStart "file-1" "video/quicktime" 20971520;
        EvPutChunk 0 8388607 20971520 (XhrLoad 503 None None);
        EvSleep 1250;
        EvPutChunk 0 8388607 20971520 (XhrLoad 503 (Some 2) None);
        EvSleep 2000;
        EvPutChunk 0 8388607 20971520 (XhrLoad 308 None None);
        EvPutChunk 8388608 16777215 20971520 (XhrLoad 308 None None);
        EvPutChunk 16777216 20971519 20971520
          (XhrLoad 200 None (Some (Some "file-1")))]).
Proof. vm_compute. reflexivity. Qed.

Lemma resumable_chunk_coverage_witness :
  exists evs,
    log (snd (uploadResumableFromFile scenarioEnv "clip.mov" scenarioInput
                "video/quicktime" "file-1" world0)) = evs /\
    tiles 0 (acceptedChunks evs) 20971520 /\
    sumBytes (acceptedChunks evs) = 20971520.
Proof.
  destruct (resumable_chunk_coverage scenarioEnv "clip.mov" scenarioInput
              "video/quicktime" "file-1" world0 _ _
              ltac:(simpl; lia) scenario_run)
    as (evs & Hlog & _ & _ & _ & _ & Hfin).
  simpl in Hlog. subst evs.
  eexists. split; [rewrite scenario_run; reflexivity|].
  apply (Hfin 20971520 _ eq_refl ltac:(simpl; lia) eq_refl).
  vm_compute. reflexivity.
Defined.

(** *** The retry policy *)

Lemma shouldRetryStatus_spec st :
  shouldRetryStatus st = true <-> st ∈ retryStatuses.
Proof.
  unfold shouldRetryStatus, retryStatuses.
  rewrite !orb_true_iff, !Z.eqb_eq, !elem_of_cons, elem_of_nil. tauto.
Qed.

Lemma retryAfter_delay st ra body :
  match serverDelayMs (XhrLoad st ra body) with
  | Some d => getRetryAfterMs ra = Some d /\ 0 < d
  | None => usesExplicitDelay (getRetryAfterMs ra) = false
  end.
Proof.
  unfold serverDelayMs, usesExplicitDelay, getRetryAfterMs.
  destruct ra as [s|]; [|reflexivity].
  destruct (Z.ltb_spec 0 s) as [Hs|Hs].
  - destruct (Z.leb_spec 0 s); [split; [reflexivity|lia]|lia].
  - destruct (Z.leb_spec 0 s); [|reflexivity]. apply Z.ltb_ge. lia.
Qed.

Lemma chunkListeners_faithful : listenerFaithful chunkListeners.
Proof.
  intros ev e H. destruct ev as [st ra body| | |]; simpl in H.
  - destruct ((st =? 308) || is2xx st); [discriminate|].
    injection H as <-. split; [apply shouldRetryStatus_spec|].
    intros _. apply retryAfter_delay.
  - injection H as <-. simpl. repeat split; auto.
  - injection H as <-. simpl. repeat split; auto; try discriminate.
  - injection H as <-. simpl. repeat split; auto.
Qed.



Lemma jitter_range rnd :
  (0 <= rnd)%Q -> (rnd < 1)%Q -> 0 <= jitterOf rnd < 500.
Proof.
  intros H0 H1. unfold jitterOf. split.
  - change 0 with (Qfloor (inject_Z 0)). apply Qfloor_resp_le.
    change (inject_Z 0) with (0 * (500 # 1))%Q.
    apply Qmult_le_compat_r; [assumption|discriminate].
  - rewrite Zlt_Qlt. eapply Qle_lt_trans; [apply Qfloor_le|].
    change (inject_Z 500) with (1 * (500 # 1))%Q.
    apply Qmult_lt_compat_r; [reflexivity|assumption].
Qed.








(** A 403 on the first attempt of the simple path is thrown at once:
    one request, no sleep. *)
Example forbidden_is_not_retried env fileName byteLength mimeType fileId w :
  xhrEvent env (xhrSent w) = XhrLoad 403 None None ->
  exists e,
    retryLoop env retryFuel 1
      (simpleUploadAttempt env fileName byteLength mimeType fileId) w
    = (Thrown e,
       mkWorld (S (xhrSent w)) (sessionsStarted w) (randomsDrawn w)
               (log w ++ [EvPatchMedia fileId byteLength
                            (XhrLoad 403 None None)])).
Proof.
  intros Hev. eexists.
  unfold retryFuel. simpl.
  unfold tryCatch, bind, simpleUploadAttempt, sendXhr.
  rewrite Hev. simpl. reflexivity.
Qed.

(** The loop around [uploadResumableFromFile] and the loop around each
    chunk are nested: when the four attempts of a chunk are used up the
    retriable error reaches the outer loop, which starts the upload
    again with a new session.  Against a server that always times out,
    the first chunk is sent four times in each of four sessions. *)
Example nested_retry_loops :
  let run := uploadFileWithProgress timeoutEnv "clip.mov" scenarioInput
               "video/quicktime" "folder-1" (Some 20971520) world0 in
  fst run = Thrown (createUploadError "Chunk upload timed out" (Some 408)
                                      true None) /\
  sessionCount (log (snd run)) = 4%nat /\
  xhrCount (log (snd run)) = 16%nat.
Proof. vm_compute. repeat split; reflexivity. Qed.

(** *** What a call appends to the log *)

Section Post.
Variable env : Env.

Lemma post_ret {A} (a : A) Q (R : A -> Prop) : R a -> post (ret a) Q R.
Proof.
  intros Ha w out w' [= <- <-]. split.
  - exists []. now rewrite app_nil_r.
  - now intros a' [= <-].
Qed.

Lemma post_throw {A} e Q (R : A -> Prop) : post (throw e) Q R.
Proof.
  intros w out w' [= <- <-]. split.
  - exists []. now rewrite app_nil_r.
  - discriminate.
Qed.

Lemma post_outOfFuel {A} Q (R : A -> Prop) : post outOfFuel Q R.
Proof.
  intros w out w' [= <- <-]. split.
  - exists []. now rewrite app_nil_r.
  - discriminate.
Qed.

Lemma post_emit e (Q : Event -> Prop) :
  Q e -> post (emit e) Q (fun _ => True).
Proof.
  intros He w out w' [= <- <-]. split; [|trivial].
  exists [e]. split; [reflexivity|]. now constructor.
Qed.

Lemma post_bind {A B} (m : M A) (k : A -> M B) Q R1 R2 :
  post m Q R1 -> (forall a, R1 a -> post (k a) Q R2) ->
  post (bind m k) Q R2.
Proof.
  intros Hm Hk w out w' Hrun. unfold bind in Hrun.
  destruct (m w) as [o1 w1] eqn:Hmw.
  destruct (Hm _ _ _ Hmw) as [(evs1 & Hlog1 & HQ1) HR1].
  destruct o1 as [a|e|].
  - destruct (Hk a (HR1 a eq_refl) _ _ _ Hrun)
      as [(evs2 & Hlog2 & HQ2) HR2].
    split; [|assumption].
    exists (evs1 ++ evs2). split.
    + now rewrite Hlog2, Hlog1, app_assoc.
    + now apply Forall_app.
  - injection Hrun as <- <-. split; [eauto|discriminate].
  - injection Hrun as <- <-. split; [eauto|discriminate].
Qed.

Lemma post_tryCatch {A} (m : M A) h Q R :
  post m Q R -> (forall e, post (h e) Q R) -> post (tryCatch m h) Q R.
Proof.
  intros Hm Hh w out w' Hrun. unfold tryCatch in Hrun.
  destruct (m w) as [o1 w1] eqn:Hmw.
  destruct (Hm _ _ _ Hmw) as [(evs1 & Hlog1 & HQ1) HR1].
  destruct o1 as [a|e|].
  - injection Hrun as <- <-. split; eauto.
  - destruct (Hh e _ _ _ Hrun) as [(evs2 & Hlog2 & HQ2) HR2].
    split; [|assumption].
    exists (evs1 ++ evs2). split.
    + now rewrite Hlog2, Hlog1, app_assoc.
    + now apply Forall_app.
  - injection Hrun as <- <-. split; [eauto|discriminate].
Qed.

Lemma post_weaken {A} (m : M A) (Q Q' : Event -> Prop)
      (R R' : A -> Prop) :
  post m Q R -> (forall e, Q e -> Q' e) -> (forall a, R a -> R' a) ->
  post m Q' R'.
Proof.
  intros Hm HQ HR w out w' Hrun.
  destruct (Hm _ _ _ Hrun) as [(evs & Hlog & Hall) Hret]. split.
  - exists evs. split; [assumption|].
    eapply Forall_impl; eauto.
  - intros a Ha. apply HR, Hret, Ha.
Qed.

Lemma post_sendXhr {A} request (listeners : XhrEvent -> UploadError + A)
      (Q : Event -> Prop) (R : A -> Prop) :
  (forall ev, Q (request ev)) ->
  (forall ev a, listeners ev = inr a -> R a) ->
  post (sendXhr env request listeners) Q R.
Proof.
  intros HQ HR w out w' Hrun. unfold sendXhr in Hrun.
  injection Hrun as <- <-. simpl. split.
  - eexists. split; [reflexivity|]. constructor; [apply HQ|constructor].
  - intros a Ha.
    destruct (listeners (xhrEvent env (xhrSent w))) eqn:HL;
      [discriminate|].
    injection Ha as <-. eapply HR, HL.
Qed.

Lemma post_retryDelay attempt explicit Q :
  post (retryDelay env attempt explicit) Q (fun _ => True).
Proof.
  intros w out w' Hrun. unfold retryDelay in Hrun.
  injection Hrun as <- <-. split; [|trivial].
  exists []. rewrite app_nil_r.
  split; [|constructor]. now destruct (usesExplicitDelay explicit).
Qed.

Lemma post_retryLoop {A} (action : M A) (Q : Event -> Prop)
      (R : A -> Prop) :
  (forall ms, Q (EvSleep ms)) ->
  post action Q R ->
  forall fuel attempt,
    post (retryLoop env fuel attempt action) Q
         (fun o => match o with
                   | Some a => R a
                   | None => DRIVE_MAX_RETRIES < attempt
                   end).
Proof.
  intros Hsleep Hact.
  induction fuel as [|fuel IH]; intros attempt; simpl.
  - apply post_outOfFuel.
  - destruct (Z.leb_spec attempt DRIVE_MAX_RETRIES) as [Hle|Hgt];
      [|now apply post_ret].
    apply post_tryCatch.
    + eapply post_bind; [exact Hact|].
      intros a Ha. now apply post_ret.
    + intros e.
      destruct ((DRIVE_MAX_RETRIES <=? attempt) || negb (retriable e))
        eqn:Hstop; [apply post_throw|].
      apply orb_false_iff in Hstop as [Hlt _]. apply Z.leb_gt in Hlt.
      eapply post_bind; [apply post_retryDelay|]. intros ms _.
      eapply post_bind; [apply post_emit, Hsleep|]. intros _ _.
      eapply post_weaken; [apply IH|auto|].
      intros [a|]; [auto|lia].
Qed.

Lemma post_chunkLoop url fid fileLen total (Q : Event -> Prop) :
  (forall ms, Q (EvSleep ms)) ->
  (forall s e t r, Q (EvPutChunk s e t r)) ->
  forall fuel c,
    post (chunkLoop env fuel url fid fileLen total c) Q (skippedIs false).
Proof.
  intros Hsleep Hput.
  induction fuel as [|fuel IH]; intros c; cbn [chunkLoop].
  - apply post_outOfFuel.
  - destruct (c <? total); [|now apply post_ret].
    destruct (_ <=? 0); [now apply post_ret|].
    eapply post_bind.
    + apply post_retryLoop with (R := fun _ => True); [exact Hsleep|].
      apply post_sendXhr; auto.
    + intros [r|] _; [|apply post_throw].
      destruct (done r); [now apply post_ret|apply IH].
Qed.

Lemma post_createResumableSession fileName mimeType fileId totalSize
      (Q : Event -> Prop) :
  Q (EvSessionStart fileId mimeType totalSize) ->
  post (createResumableSession env fileName mimeType fileId totalSize)
       Q (fun _ => True).
Proof.
  intros HQ w out w' Hrun. unfold createResumableSession in Hrun.
  split; [|trivial].
  exists [EvSessionStart fileId mimeType totalSize].
  split; [|now constructor].
  destruct (sessionResponse env (sessionsStarted w)) as [[u|]|st ra|];
    try destruct (truthy u); now injection Hrun as <- <-.
Qed.

Lemma post_uploadResumableFromFile fileName fileInput mimeType fileId
      (Q : Event -> Prop) :
  (forall ms, Q (EvSleep ms)) ->
  (forall s e t r, Q (EvPutChunk s e t r)) ->
  Q (EvSessionStart fileId (orElse mimeType "application/octet-stream")
                    (getFileInputSize env fileInput)) ->
  post (uploadResumableFromFile env fileName fileInput mimeType fileId)
       Q (skippedIs false).
Proof.
  intros Hsleep Hput Hstart. unfold uploadResumableFromFile.
  destruct (requireDefined env); simpl; [|apply post_throw].
  eapply post_bind; [now apply post_createResumableSession|].
  intros url _.
  destruct (localFile env); [now apply post_chunkLoop|apply post_throw].
Qed.

Lemma post_normalizeContent fileInput Q :
  post (normalizeContent env fileInput) Q (fun _ => True).
Proof.
  unfold normalizeContent.
  destruct fileInput as [n|p sz]; [now apply post_ret|].
  destruct (truthy p); [|now apply post_ret].
  destruct (requireDefined env); [|apply post_throw].
  destruct (localFile env); [now apply post_ret|apply post_throw].
Qed.

Lemma simpleListeners_not_skipped fileId ev r :
  simpleListeners fileId ev = inr r -> skippedIs false r.
Proof.
  destruct ev as [st ra body| | |]; simpl; try discriminate.
  destruct (is2xx st); [|discriminate].
  destruct body; [|discriminate]. now intros [= <-].
Qed.

Lemma post_simplePath fileName fileInput mimeType existingId
      (Q : Event -> Prop) :
  (forall ms, Q (EvSleep ms)) ->
  (forall f n r, Q (EvPatchMedia f n r)) ->
  post (simplePath env fileName fileInput mimeType existingId)
       Q (skippedIs false).
Proof.
  intros Hsleep Hpatch. unfold simplePath.
  eapply post_bind; [apply post_normalizeContent|]. intros n _.
  eapply post_bind.
  - apply post_retryLoop with (R := skippedIs false); [exact Hsleep|].
    apply post_sendXhr; [auto|apply simpleListeners_not_skipped].
  - intros [r|] Hr; [now apply post_ret|apply post_throw].
Qed.

Lemma post_findExistingDriveFile fileName folderId (Q : Event -> Prop) :
  Q (EvSearch fileName folderId) ->
  post (findExistingDriveFile env fileName folderId) Q (fun _ => True).
Proof.
  intros HQ. unfold findExistingDriveFile.
  eapply post_bind; [now apply post_emit|]. intros _ _.
  destruct (searchResponse env); [now apply post_ret|apply post_throw..].
Qed.

Lemma post_ensureDriveFileMetadata fileName folderId existingId
      (Q : Event -> Prop) :
  Q (EvCreateMetadata fileName folderId) ->
  post (ensureDriveFileMetadata env fileName folderId existingId)
       Q (fun _ => True).
Proof.
  intros HQ. unfold ensureDriveFileMetadata.
  destruct existingId; [now apply post_ret|].
  eapply post_bind; [now apply post_emit|]. intros _ _.
  destruct (createResponse env); [now apply post_ret|apply post_throw..].
Qed.

(** After the dedup check the result is never [skipped], and the
    requests are those of one path only. *)
Lemma post_transferBody fileName fileInput mimeType folderId
      actualFileSize existingId :
  post (transferBody env fileName fileInput mimeType folderId
                     actualFileSize existingId)
       (fun e =>
          if shouldUseResumable env fileInput actualFileSize
          then chunkedOnly (orElse mimeType "application/octet-stream")
                           (getFileInputSize env fileInput) e
          else simpleOnly e)
       (skippedIs false).
Proof.
  unfold transferBody.
  eapply post_bind.
  { apply post_ensureDriveFileMetadata.
    now destruct (shouldUseResumable env fileInput actualFileSize). }
  intros fid _.
  destruct (shouldUseResumable env fileInput actualFileSize).
  - eapply post_bind.
    + apply post_retryLoop with (R := skippedIs false); [now intros|].
      apply post_uploadResumableFromFile; simpl; auto.
    + intros [r|] Hr; [now apply post_ret|].
      exfalso. rewrite max_retries_val in Hr. lia.
  - now apply post_simplePath.
Qed.

Lemma post_uploadFileWithProgress fileName fileInput mimeType folderId
      actualFileSize :
  post (uploadFileWithProgress env fileName fileInput mimeType folderId
                               actualFileSize)
       (fun e =>
          if shouldUseResumable env fileInput actualFileSize
          then chunkedOnly (orElse mimeType "application/octet-stream")
                           (getFileInputSize env fileInput) e
          else simpleOnly e)
       (fun r => skipped r = true ->
                 md5Matches (head match searchResponse env with
                                  | FetchOk files => files
                                  | _ => []
                                  end)
                            (computeLocalMd5 env fileInput) = true).
Proof.
  unfold uploadFileWithProgress.
  destruct (validToken env) as [token|]; [|apply post_throw].
  destruct (truthy token); simpl; [|apply post_throw].
  assert (Hsearch :
    post (findExistingDriveFile env fileName folderId)
         (fun e =>
            if shouldUseResumable env fileInput actualFileSize
            then chunkedOnly (orElse mimeType "application/octet-stream")
                             (getFileInputSize env fileInput) e
            else simpleOnly e)
         (fun f => f = head match searchResponse env with
                            | FetchOk files => files
                            | _ => []
                            end)).
  { unfold findExistingDriveFile.
    eapply post_bind.
    - apply post_emit.
      now destruct (shouldUseResumable env fileInput actualFileSize).
    - intros _ _.
      destruct (searchResponse env);
        [now apply post_ret|apply post_throw..]. }
  eapply post_bind; [exact Hsearch|]. intros f ->.
  destruct (md5Matches _ _) eqn:Hm.
  - now apply post_ret.
  - eapply post_weaken; [apply post_transferBody|auto|].
    unfold skippedIs. intros r Hr Hs. congruence.
Qed.

Lemma logs_then {A} (k : M A) Q R P w1 o w' evs1 w :
  post k Q R -> k w1 = (o, w') ->
  log w1 = log w ++ evs1 -> Exists P evs1 ->
  exists evs, log w' = log w ++ evs /\ Exists P evs.
Proof.
  intros Hk Hrun Hlog HP.
  destruct (Hk _ _ _ Hrun) as [(evs2 & Hlog2 & _) _].
  exists (evs1 ++ evs2). split.
  - now rewrite Hlog2, Hlog, app_assoc.
  - apply Exists_app. now left.
Qed.

Lemma logs_bind {A B} P (m : M A) (k : A -> M B) Q R :
  logs P m -> (forall a, post (k a) Q R) -> logs P (bind m k).
Proof.
  intros Hm Hk w o w' Hrun. unfold bind in Hrun.
  destruct (m w) as [o1 w1] eqn:Hmw.
  destruct (Hm _ _ _ Hmw) as (evs1 & Hlog1 & HP).
  destruct o1 as [a|err|]; try (injection Hrun as <- <-; eauto).
  eapply logs_then; eauto.
Qed.

Lemma logs_tryCatch {A} P (m : M A) h Q R :
  logs P m -> (forall err, post (h err) Q R) -> logs P (tryCatch m h).
Proof.
  intros Hm Hh w o w' Hrun. unfold tryCatch in Hrun.
  destruct (m w) as [o1 w1] eqn:Hmw.
  destruct (Hm _ _ _ Hmw) as (evs1 & Hlog1 & HP).
  destruct o1 as [a|err|]; try (injection Hrun as <- <-; eauto).
  eapply logs_then; eauto.
Qed.

(** After a call that returns, the rest appends to its log. *)
Lemma logs_after {A B} P (m : M A) (k : A -> M B) Q R w a w1 o w' :
  post m Q R -> m w = (Returned a, w1) ->
  logs P (k a) -> bind m k w = (o, w') ->
  exists evs, log w' = log w ++ evs /\ Exists P evs.
Proof.
  intros Hm Hmw Hk Hrun. unfold bind in Hrun. rewrite Hmw in Hrun.
  destruct (Hm _ _ _ Hmw) as [(evs1 & Hlog1 & _) _].
  destruct (Hk _ _ _ Hrun) as (evs2 & Hlog2 & HP).
  exists (evs1 ++ evs2). split.
  - now rewrite Hlog2, Hlog1, app_assoc.
  - apply Exists_app. now right.
Qed.

(** What every attempt logs is in the log of the loop. *)
Lemma retryLoop_keeps {A} (action : M A) Q R P :
  post action Q R ->
  (forall ms, Q (EvSleep ms)) ->
  logs P action ->
  forall fuel attempt,
    (1 <= fuel)%nat -> attempt <= DRIVE_MAX_RETRIES ->
    logs P (retryLoop env fuel attempt action).
Proof.
  intros Hpost Hsleep Hact fuel attempt Hfuel Hle.
  destruct fuel as [|fuel]; [lia|]. simpl.
  destruct (Z.leb_spec attempt DRIVE_MAX_RETRIES); [|lia].
  eapply logs_tryCatch.
  - eapply logs_bind; [exact Hact|].
    intros a. apply post_ret with (Q := Q) (R := fun _ => True). exact I.
  - intros err.
    destruct ((DRIVE_MAX_RETRIES <=? attempt) || negb (retriable err)).
    + apply post_throw with (Q := Q).
    + eapply post_bind; [apply post_retryDelay|]. intros ms _.
      eapply post_bind; [apply post_emit, Hsleep|]. intros _ _.
      eapply post_weaken;
        [apply post_retryLoop with (R := R); eauto|auto|].
      intros o _. exact I.
Qed.

Lemma logs_uploadResumableFromFile fileName fileInput mimeType fileId :
  requireDefined env = true ->
  logs (fun e => exists fid,
            e = EvSessionStart fid
                  (orElse mimeType "application/octet-stream")
                  (getFileInputSize env fileInput))
       (uploadResumableFromFile env fileName fileInput mimeType fileId).
Proof.
  intros Hreq. unfold uploadResumableFromFile. rewrite Hreq. simpl.
  eapply logs_bind with (Q := fun _ => True) (R := fun _ => True).
  - intros w o w1 Hs. unfold createResumableSession in Hs.
    exists [EvSessionStart fileId
              (orElse mimeType "application/octet-stream")
              (getFileInputSize env fileInput)].
    split; [|constructor; eauto].
    destruct (sessionResponse env (sessionsStarted w))
      as [[u|]|st ra|]; try destruct (truthy u);
      now injection Hs as <- <-.
  - intros url. destruct (localFile env); [|apply post_throw].
    eapply post_weaken;
      [apply post_chunkLoop with (Q := fun _ => True); auto|auto|auto].
Qed.

Lemma normalizeContent_returns fileInput w :
  (fileIsPathInput fileInput = true ->
   requireDefined env = true /\ localFile env <> None) ->
  exists n, normalizeContent env fileInput w = (Returned n, w).
Proof.
  intros Hread. unfold normalizeContent, ret.
  destruct fileInput as [n|p sz]; [eauto|].
  simpl in Hread. destruct (truthy p); [|eauto].
  destruct (Hread eq_refl) as [-> Hfile].
  destruct (localFile env); [eauto|congruence].
Qed.

Lemma logs_simplePath fileName fileInput mimeType fileId :
  (fileIsPathInput fileInput = true ->
   requireDefined env = true /\ localFile env <> None) ->
  logs (fun e => exists fid n resp, e = EvPatchMedia fid n resp)
       (simplePath env fileName fileInput mimeType fileId).
Proof.
  intros Hread w o w1 Hrun. unfold simplePath in Hrun.
  destruct (normalizeContent_returns fileInput w Hread) as [n Hn].
  eapply logs_after in Hrun;
    [exact Hrun|apply post_normalizeContent with (Q := fun _ => True)
    |exact Hn|].
  apply logs_bind with (Q := fun _ => True) (R := fun _ => True).
  - apply retryLoop_keeps with (Q := fun _ => True) (R := fun _ => True);
      [apply post_sendXhr; auto|auto| |apply retryFuel_ok
      |rewrite max_retries_val; lia].
    intros wa oa wb Hs. unfold simpleUploadAttempt, sendXhr in Hs.
    injection Hs as _ <-. simpl.
    eexists. split; [reflexivity|]. constructor. eauto.
  - intros [r|]; [now apply post_ret|apply post_throw].
Qed.

Lemma ensure_returns fileName folderId existingId w :
  (existingId = None -> exists i, createResponse env = FetchOk i) ->
  exists fid w1,
    ensureDriveFileMetadata env fileName folderId existingId w
    = (Returned fid, w1).
Proof.
  intros Hc. unfold ensureDriveFileMetadata.
  destruct existingId as [i|]; [unfold ret; eauto|].
  destruct (Hc eq_refl) as [i Hi]. unfold bind, emit. rewrite Hi.
  unfold ret. eauto.
Qed.

Lemma logs_transferBody_chunked fileName fileInput mimeType folderId
      actualFileSize existingId :
  shouldUseResumable env fileInput actualFileSize = true ->
  requireDefined env = true ->
  (existingId = None -> exists i, createResponse env = FetchOk i) ->
  logs (fun e => exists fid,
            e = EvSessionStart fid
                  (orElse mimeType "application/octet-stream")
                  (getFileInputSize env fileInput))
       (transferBody env fileName fileInput mimeType folderId
                     actualFileSize existingId).
Proof.
  intros Hres Hreq Hc w o w' Hrun. unfold transferBody in Hrun.
  destruct (ensure_returns fileName folderId existingId w Hc)
    as (fid & w1 & He).
  eapply logs_after in Hrun;
    [exact Hrun
    |apply post_ensureDriveFileMetadata with (Q := fun _ => True); exact I
    |exact He|].
  rewrite Hres.
  apply logs_bind with (Q := fun _ => True) (R := fun _ => True).
  - eapply retryLoop_keeps with (Q := fun _ => True);
      [|auto| |apply retryFuel_ok|rewrite max_retries_val; lia].
    + apply post_uploadResumableFromFile with (Q := fun _ => True); auto.
    + now apply logs_uploadResumableFromFile.
  - intros [r|]; [now apply post_ret|].
    eapply post_weaken;
      [apply post_simplePath with (Q := fun _ => True)|..]; auto.
Qed.

Lemma logs_transferBody_simple fileName fileInput mimeType folderId
      actualFileSize existingId :
  shouldUseResumable env fileInput actualFileSize = false ->
  (fileIsPathInput fileInput = true ->
   requireDefined env = true /\ localFile env <> None) ->
  (existingId = None -> exists i, createResponse env = FetchOk i) ->
  logs (fun e => exists fid n resp, e = EvPatchMedia fid n resp)
       (transferBody env fileName fileInput mimeType folderId
                     actualFileSize existingId).
Proof.
  intros Hres Hread Hc w o w' Hrun. unfold transferBody in Hrun.
  destruct (ensure_returns fileName folderId existingId w Hc)
    as (fid & w1 & He).
  eapply logs_after in Hrun;
    [exact Hrun
    |apply post_ensureDriveFileMetadata with (Q := fun _ => True); exact I
    |exact He|].
  rewrite Hres. now apply logs_simplePath.
Qed.

(** When the call reaches the transfer step, it is the transfer step
    run after the lookup. *)
Lemma upload_reaches_transfer fileName fileInput mimeType folderId
      actualFileSize w :
  reachesTransfer env fileInput = true ->
  exists files,
    searchResponse env = FetchOk files /\
    (existingIdOf (head files) = None ->
     exists i, createResponse env = FetchOk i) /\
    uploadFileWithProgress env fileName fileInput mimeType folderId
                           actualFileSize w
    = transferBody env fileName fileInput mimeType folderId
                   actualFileSize (existingIdOf (head files))
        (mkWorld (xhrSent w) (sessionsStarted w) (randomsDrawn w)
                 (log w ++ [EvSearch fileName folderId])).
Proof.
  unfold reachesTransfer, uploadFileWithProgress. intros H.
  apply andb_true_iff in H as [Htok H].
  destruct (validToken env) as [token|]; [|discriminate].
  rewrite Htok. simpl.
  destruct (searchResponse env) as [files| |] eqn:Hs; try discriminate.
  apply andb_true_iff in H as [Hm Hc]. apply negb_true_iff in Hm.
  exists files. split; [reflexivity|]. split.
  - intros Hnone. rewrite Hnone in Hc.
    destruct (createResponse env); try discriminate. eauto.
  - unfold bind at 1, findExistingDriveFile, bind, emit, ret. simpl.
    rewrite Hs, Hm. reflexivity.
Qed.

(** *** What a call that returns has sent *)

Lemma delivers_bind_l {A B} P (m : M A) (k : A -> M B) Q R :
  delivers P m -> (forall a, post (k a) Q R) -> delivers P (bind m k).
Proof.
  intros Hm Hk w b w' Hrun. unfold bind in Hrun.
  destruct (m w) as [[a|e|] w1] eqn:Hmw; try discriminate.
  destruct (Hm _ _ _ Hmw) as (evs1 & Hlog1 & HP).
  eapply logs_then; eauto.
Qed.







End Post.

(** *** Which path an upload takes *)

Lemma shouldUseResumable_spec env fileInput actualFileSize :
  shouldUseResumable env fileInput actualFileSize = true <->
  fileIsPathInput fileInput = true /\
  DRIVE_RESUMABLE_THRESHOLD <= inputSizeOf env fileInput actualFileSize.
Proof.
  unfold shouldUseResumable. rewrite andb_true_iff, Z.leb_le. tauto.
Qed.

(** C7 (path choice, amended).  An upload given as a file path whose
    size is at least 8 MiB logs no [PATCH]; every session it starts
    declares the MIME type and the total size; and when the call gets
    to the transfer step with Node's [fs] at hand it does start a
    session.  Every other upload, below 8 MiB or a payload held in
    memory whatever its size, logs nothing of the chunked path, and
    when it gets to the transfer step and the payload can be read it
    sends the single [PATCH]. *)
Theorem upload_path_choice env fileName fileInput mimeType folderId
        actualFileSize w out w' :
  uploadFileWithProgress env fileName fileInput mimeType folderId
                         actualFileSize w = (out, w') ->
  exists evs,
    log w' = log w ++ evs /\
    (fileIsPathInput fileInput = true ->
     DRIVE_RESUMABLE_THRESHOLD <= inputSizeOf env fileInput actualFileSize ->
     Forall (chunkedOnly (orElse mimeType "application/octet-stream")
                         (getFileInputSize env fileInput)) evs /\
     (reachesTransfer env fileInput = true ->
      requireDefined env = true ->
      Exists (fun e => exists fid,
                  e = EvSessionStart fid
                        (orElse mimeType "application/octet-stream")
                        (getFileInputSize env fileInput)) evs)) /\
    (fileIsPathInput fileInput = false \/
     inputSizeOf env fileInput actualFileSize < DRIVE_RESUMABLE_THRESHOLD ->
     Forall simpleOnly evs /\
     (reachesTransfer env fileInput = true ->
      (fileIsPathInput fileInput = true ->
       requireDefined env = true /\ localFile env <> None) ->
      Exists (fun e => exists fid n resp, e = EvPatchMedia fid n resp)
             evs)).
Proof.
  intros Hrun.
  destruct (post_uploadFileWithProgress env fileName fileInput mimeType
              folderId actualFileSize _ _ _ Hrun)
    as [(evs & Hlog & HQ) _].
  exists evs. split; [exact Hlog|]. split.
  - intros Hpath Hsize.
    assert (Hres : shouldUseResumable env fileInput actualFileSize = true)
      by now apply shouldUseResumable_spec.
    rewrite Hres in HQ. split; [exact HQ|].
    intros Hreach Hreq.
    destruct (upload_reaches_transfer env fileName fileInput mimeType
                folderId actualFileSize w Hreach)
      as (files & Hs & Hc & Heq).
    rewrite Heq in Hrun.
    apply logs_transferBody_chunked in Hrun as (evs2 & Hlog2 & HP);
      try assumption.
    simpl in Hlog2. rewrite Hlog, <- app_assoc in Hlog2.
    apply app_inv_head in Hlog2 as ->.
    apply Exists_app. now right.
  - intros Hsmall.
    assert (Hres : shouldUseResumable env fileInput actualFileSize = false).
    { destruct (shouldUseResumable env fileInput actualFileSize) eqn:E;
        [|reflexivity].
      apply shouldUseResumable_spec in E as [E1 E2].
      destruct Hsmall; [congruence|lia]. }
    rewrite Hres in HQ. split; [exact HQ|].
    intros Hreach Hread.
    destruct (upload_reaches_transfer env fileName fileInput mimeType
                folderId actualFileSize w Hreach)
      as (files & Hs & Hc & Heq).
    rewrite Heq in Hrun.
    apply logs_transferBody_simple in Hrun as (evs2 & Hlog2 & HP);
      try assumption.
    simpl in Hlog2. rewrite Hlog, <- app_assoc in Hlog2.
    apply app_inv_head in Hlog2 as ->.
    apply Exists_app. now right.
Qed.

Lemma scenario_upload_run :
  uploadFileWithProgress scenarioEnv "clip.mov" scenarioInput
    "video/quicktime" "folder-1" (Some 20971520) world0
  = (Returned {| id := "file-1"; skipped := false; reason := None |},
     mkWorld 5 1 1
       [EvSearch "clip.mov" "folder-1";
        EvCreateMetadata "clip.mov" "folder-1";
        EvSessionStart "file-1" "video/quicktime" 20971520;
        EvPutChunk 0 8388607 20971520 (XhrLoad 503 None None);
        EvSleep 1250;
        EvPutChunk 0 8388607 20971520 (XhrLoad 503 (Some 2) None);
        EvSleep 2000;
        EvPutChunk 0 8388607 20971520 (XhrLoad 308 None None);
        EvPutChunk 8388608 16777215 20971520 (XhrLoad 308 None None);
        EvPutChunk 16777216 20971519 20971520
          (XhrLoad 200 None (Some (Some "file-1")))]).
Proof. vm_compute. reflexivity. Qed.

Lemma upload_path_choice_witness :
  Exists (fun e => exists fid,
              e = EvSessionStart fid "video/quicktime" 20971520)
         (log (snd (uploadFileWithProgress scenarioEnv "clip.mov"
                      scenarioInput "video/quicktime" "folder-1"
                      (Some 20971520) world0))).
Proof.
  destruct (upload_path_choice scenarioEnv "clip.mov" scenarioInput
              "video/quicktime" "folder-1" (Some 20971520) world0 _ _
              scenario_upload_run)
    as (evs & Hlog & Hbig & _).
  rewrite scenario_upload_run. simpl in *. rewrite Hlog.
  apply (Hbig eq_refl); [vm_compute; discriminate|reflexivity..].
Defined.

(** C7 as stated fails: an 8 MiB payload held in memory reaches the
    transfer step and is sent by one [PATCH], without any session. *)
Lemma large_in_memory_upload_is_simple :
  DRIVE_RESUMABLE_THRESHOLD <= inputSizeOf inMemoryEnv (Content 8388608) None
  /\ uploadFileWithProgress inMemoryEnv "payload.bin" (Content 8388608)
       "application/octet-stream" "folder-1" None world0
     = (Returned {| id := "file-9"; skipped := false; reason := None |},
        mkWorld 1 0 0
          [EvSearch "payload.bin" "folder-1";
           EvCreateMetadata "payload.bin" "folder-1";
           EvPatchMedia "file-9" 8388608
             (XhrLoad 200 None (Some (Some "file-9")))]).
Proof. split; [vm_compute; discriminate|vm_compute; reflexivity]. Qed.

(** *** The dedup check *)

(** The skip of an unchanged file: one lookup, no other request. *)
Lemma dedup_skip_run env fileName fileInput mimeType folderId
      actualFileSize w token f files md5 :
  validToken env = Some token -> truthy token = true ->
  searchResponse env = FetchOk (f :: files) ->
  truthy (df_id f) = true ->
  df_md5Checksum f = Some md5 ->
  computeLocalMd5 env fileInput = Some md5 ->
  truthy md5 = true ->
  uploadFileWithProgress env fileName fileInput mimeType folderId
                         actualFileSize w
  = (Returned {| id := df_id f; skipped := true;
                 reason := Some "Unchanged (MD5 match)" |},
     mkWorld (xhrSent w) (sessionsStarted w) (randomsDrawn w)
             (log w ++ [EvSearch fileName folderId])).
Proof.
  intros Htok Htr Hs Hid Hmd5 Hloc Hm.
  unfold uploadFileWithProgress. rewrite Htok, Htr. simpl.
  unfold bind at 1, findExistingDriveFile, bind, emit, ret. simpl.
  rewrite Hs. simpl. rewrite Hloc. unfold md5Matches, existingIdOf.
  rewrite Hid, Hmd5, Hm, String.eqb_refl. reflexivity.
Qed.




End UploadProofs.

(** * Properties of the push worker pool *)

Module PoolProofs.
Import Pool.
Local Open Scope nat_scope.

Lemma inflight_insert ws : forall w old st,
  ws !! w = Some old ->
  inflight (<[w := st]> ws)
    ++ match old with Awaiting i => [i] | _ => [] end
  ≡ₚ inflight ws
    ++ match st with Awaiting i => [i] | _ => [] end.
Proof.
  induction ws as [|x ws IH]; intros [|w] old st Hw; simpl in *;
    try discriminate.
  - injection Hw as ->. unfold inflight. simpl.
    destruct old, st; simpl; rewrite ?app_nil_r;
      first [ reflexivity
            | apply Permutation_cons_append
            | symmetry; apply Permutation_cons_append
            | rewrite <- !Permutation_cons_append; apply perm_swap ].
  - specialize (IH w old st Hw). unfold inflight in *. simpl.
    destruct x; simpl; try exact IH. now apply perm_skip.
Qed.

Lemma allFinished_inflight s : allFinished s = true -> inflight (workers s) = [].
Proof.
  unfold allFinished, inflight.
  induction (workers s) as [|x ws IH]; simpl; [reflexivity|].
  destruct x; try discriminate. exact IH.
Qed.

Lemma countStatus_app r l1 l2 :
  countStatus r (l1 ++ l2) = countStatus r l1 + countStatus r l2.
Proof. unfold countStatus. now rewrite List.filter_app, length_app. Qed.

Lemma inv_initial n : Inv n (initial n).
Proof.
  constructor; simpl; try reflexivity.
  - assert (forall k, inflight (replicate k AtLoopHead) = []) as ->
      by (induction k; simpl; auto).
    reflexivity.
  - intros _ w Hw. apply lookup_replicate in Hw as [Hw _]. discriminate.
  - apply length_replicate.
Qed.

Lemma inv_record n s i r :
  Inv n s ->
  uploadedFilesCount (record i r s)
    = countStatus RUploaded (reportEntries (record i r s)) /\
  skippedFilesCount (record i r s)
    = countStatus RSkipped (reportEntries (record i r s)) /\
  failedFilesCount (record i r s)
    = countStatus RFailed (reportEntries (record i r s)) /\
  cancelledFilesCount (record i r s)
    = countStatus RCancelled (reportEntries (record i r s)) /\
  completedFiles (record i r s) = length (reportEntries (record i r s)) /\
  counted (record i r s) = length (reportEntries (record i r s)).
Proof.
  intros [Hu Hs Hf Hc Hd Hn _ _ _]. unfold counted in *. simpl.
  rewrite !countStatus_app, length_app. simpl.
  destruct r; simpl; unfold countStatus at 2 4 6 8; simpl; lia.
Qed.

Local Ltac fields :=
  cbn [nextFileIndex cancelled cancelledFiles fileStatus completedFiles
       uploadedFilesCount skippedFilesCount failedFilesCount
       cancelledFilesCount reportEntries workers].

(** Changes of [cancelledFiles] and [fileStatus] do not touch the
    invariant. *)
Lemma Inv_frame n s cf fs :
  Inv n s ->
  Inv n (mkState (nextFileIndex s) (cancelled s) cf fs (completedFiles s)
                 (uploadedFilesCount s) (skippedFilesCount s)
                 (failedFilesCount s) (cancelledFilesCount s)
                 (reportEntries s) (workers s)).
Proof. intros []. constructor; assumption. Qed.

Lemma Inv_cancelAll n s : Inv n s -> Inv n (cancelAll s).
Proof. intros []. constructor; try assumption. discriminate. Qed.

Lemma fst_snoc (l : list (nat * ReportStatus)) i r :
  (l ++ [(i, r)]).*1 = l.*1 ++ [i].
Proof. now rewrite fmap_app. Qed.

(** A worker leaves [processSingleFile(file i)] with an entry for [i]. *)
Lemma Inv_settled n s w i r cf fs :
  Inv n s ->
  workers s !! w = Some (Awaiting i) ->
  Inv n (mkState (nextFileIndex s) (cancelled s) cf fs
           (S (completedFiles s))
           (match r with RUploaded => S (uploadedFilesCount s)
                       | _ => uploadedFilesCount s end)
           (match r with RSkipped => S (skippedFilesCount s)
                       | _ => skippedFilesCount s end)
           (match r with RFailed => S (failedFilesCount s)
                       | _ => failedFilesCount s end)
           (match r with RCancelled => S (cancelledFilesCount s)
                       | _ => cancelledFilesCount s end)
           (reportEntries s ++ [(i, r)])
           (<[w := AtLoopHead]> (workers s))).
Proof.
  intros Hinv Hw.
  destruct (inv_record n s i r Hinv) as (Hu & Hs & Hf & Hc & Hd & Hn).
  destruct Hinv as [_ _ _ _ _ _ Hfiles Hfin Hws].
  constructor; fields; try assumption.
  - rewrite fst_snoc, <- app_assoc.
    pose proof (inflight_insert _ _ _ AtLoopHead Hw) as Hp. simpl in Hp.
    rewrite app_nil_r in Hp.
    rewrite (Permutation_app_comm [i]), Hp. exact Hfiles.
  - intros Hc' w' Hw'.
    destruct (decide (w = w')) as [<-|Hne].
    + rewrite list_lookup_insert_eq in Hw'; [discriminate|].
      now apply lookup_lt_Some in Hw.
    + rewrite list_lookup_insert_ne in Hw' by assumption. eauto.
  - now rewrite length_insert.
Qed.

(** A worker at the loop head takes the next file. *)
Lemma Inv_taken n s w cf fs :
  Inv n s ->
  workers s !! w = Some AtLoopHead ->
  nextFileIndex s < n ->
  Inv n (mkState (S (nextFileIndex s)) (cancelled s) cf fs
           (completedFiles s) (uploadedFilesCount s) (skippedFilesCount s)
           (failedFilesCount s) (cancelledFilesCount s) (reportEntries s)
           (<[w := Awaiting (nextFileIndex s)]> (workers s))).
Proof.
  intros [Hu Hs Hf Hc Hd Hn Hfiles Hfin Hws] Hw Hlt.
  constructor; fields; try assumption.
  - pose proof (inflight_insert _ _ _ (Awaiting (nextFileIndex s)) Hw)
      as Hp. simpl in Hp. rewrite app_nil_r in Hp.
    rewrite Hp, app_assoc, Hfiles.
    rewrite (Nat.min_l (nextFileIndex s)) by lia.
    rewrite (Nat.min_l (S (nextFileIndex s))) by lia.
    now rewrite seq_S.
  - intros Hc' w' Hw'.
    destruct (decide (w = w')) as [<-|Hne].
    + rewrite list_lookup_insert_eq in Hw'; [discriminate|].
      now apply lookup_lt_Some in Hw.
    + rewrite list_lookup_insert_ne in Hw' by assumption.
      specialize (Hfin Hc' w' Hw'). lia.
  - now rewrite length_insert.
Qed.

(** A worker at the loop head takes a file cancelled beforehand. *)
Lemma Inv_dropped n s w cf fs :
  Inv n s ->
  workers s !! w = Some AtLoopHead ->
  nextFileIndex s < n ->
  Inv n (mkState (S (nextFileIndex s)) (cancelled s) cf fs
           (S (completedFiles s)) (uploadedFilesCount s)
           (skippedFilesCount s) (failedFilesCount s)
           (S (cancelledFilesCount s))
           (reportEntries s ++ [(nextFileIndex s, RCancelled)])
           (<[w := AtLoopHead]> (workers s))).
Proof.
  intros Hinv Hw Hlt.
  destruct (inv_record n s (nextFileIndex s) RCancelled Hinv)
    as (Hu & Hs & Hf & Hc & Hd & Hn).
  destruct Hinv as [_ _ _ _ _ _ Hfiles Hfin Hws].
  constructor; fields; try assumption.
  - rewrite list_insert_id by assumption.
    rewrite fst_snoc, <- app_assoc.
    rewrite (Permutation_app_comm [nextFileIndex s]), app_assoc, Hfiles.
    rewrite (Nat.min_l (nextFileIndex s)) by lia.
    rewrite (Nat.min_l (S (nextFileIndex s))) by lia.
    now rewrite seq_S.
  - rewrite list_insert_id by assumption.
    intros Hc' w' Hw'. specialize (Hfin Hc' w' Hw'). lia.
  - now rewrite length_insert.
Qed.

(** A worker at the loop head returns. *)
Lemma Inv_returned n s w next :
  Inv n s ->
  workers s !! w = Some AtLoopHead ->
  (cancelled s = true /\ next = nextFileIndex s) \/
  (n <= nextFileIndex s /\ next = S (nextFileIndex s)) ->
  Inv n (mkState next (cancelled s) (cancelledFiles s) (fileStatus s)
           (completedFiles s) (uploadedFilesCount s) (skippedFilesCount s)
           (failedFilesCount s) (cancelledFilesCount s) (reportEntries s)
           (<[w := Finished]> (workers s))).
Proof.
  intros [Hu Hs Hf Hc Hd Hn Hfiles Hfin Hws] Hw Hcase.
  pose proof (inflight_insert _ _ _ Finished Hw) as Hp. simpl in Hp.
  rewrite !app_nil_r in Hp.
  constructor; fields; try assumption.
  - rewrite Hp, Hfiles.
    destruct Hcase as [[_ ->]|[Hle ->]]; [reflexivity|].
    now rewrite !Nat.min_r by lia.
  - intros Hc' w' Hw'.
    destruct Hcase as [[Hcan _]|[Hle ->]]; [congruence|lia].
  - now rewrite length_insert.
Qed.

Lemma workerHead_cases n w s :
  workerHead n w s =
  if cancelled s then
    mkState (nextFileIndex s) (cancelled s) (cancelledFiles s)
            (fileStatus s) (completedFiles s) (uploadedFilesCount s)
            (skippedFilesCount s) (failedFilesCount s)
            (cancelledFilesCount s) (reportEntries s)
            (<[w := Finished]> (workers s))
  else if n <=? nextFileIndex s then
    mkState (S (nextFileIndex s)) (cancelled s) (cancelledFiles s)
            (fileStatus s) (completedFiles s) (uploadedFilesCount s)
            (skippedFilesCount s) (failedFilesCount s)
            (cancelledFilesCount s) (reportEntries s)
            (<[w := Finished]> (workers s))
  else if bool_decide (nextFileIndex s ∈ cancelledFiles s) then
    mkState (S (nextFileIndex s)) (cancelled s) (cancelledFiles s)
            (fileStatus s) (S (completedFiles s)) (uploadedFilesCount s)
            (skippedFilesCount s) (failedFilesCount s)
            (S (cancelledFilesCount s))
            (reportEntries s ++ [(nextFileIndex s, RCancelled)])
            (<[w := AtLoopHead]> (workers s))
  else
    mkState (S (nextFileIndex s)) (cancelled s) (cancelledFiles s)
            (<[nextFileIndex s := Uploading]> (fileStatus s))
            (completedFiles s) (uploadedFilesCount s)
            (skippedFilesCount s) (failedFilesCount s)
            (cancelledFilesCount s) (reportEntries s)
            (<[w := Awaiting (nextFileIndex s)]> (workers s)).
Proof.
  unfold workerHead, processStart, setWorker, setStatus, record. fields.
  destruct (cancelled s); [reflexivity|].
  destruct (n <=? nextFileIndex s); [reflexivity|].
  destruct (bool_decide _); reflexivity.
Qed.

Lemma inv_step n upload modal a s :
  Inv n s -> Inv n (step n upload modal a s).
Proof.
  intros Hinv. destruct a as [w| |i]; simpl.
  - destruct (workers s !! w) as [[|i|]|] eqn:Hw; try assumption.
    + rewrite workerHead_cases.
      destruct (cancelled s) eqn:Hc at 1.
      { apply (Inv_returned n s w (nextFileIndex s)); auto. }
      destruct (Nat.leb_spec n (nextFileIndex s)) as [Hle|Hlt].
      { apply (Inv_returned n s w (S (nextFileIndex s))); auto. }
      destruct (bool_decide _).
      * apply (Inv_dropped n s w); assumption.
      * apply (Inv_taken n s w); assumption.
    + unfold processSettle, setItemStatus.
      destruct (upload i), modal;
        try destruct (cancelled s || bool_decide (i ∈ cancelledFiles s));
        unfold setWorker, setStatus, record; fields;
        first [ apply (Inv_settled n s w i RUploaded _ _ Hinv Hw)
              | apply (Inv_settled n s w i RSkipped _ _ Hinv Hw)
              | apply (Inv_settled n s w i RCancelled _ _ Hinv Hw)
              | apply (Inv_settled n s w i RFailed _ _ Hinv Hw) ].
  - destruct modal; [now apply Inv_cancelAll|assumption].
  - destruct (modal && (i <? n)); [|assumption].
    unfold cancelFile.
    destruct (fileStatus s !! i) as [[]|]; try assumption;
      unfold setStatus; fields; now apply Inv_frame.
Qed.

Lemma inv_run n upload modal schedule :
  forall s, Inv n s -> Inv n (run n upload modal schedule s).
Proof.
  induction schedule as [|a schedule IH]; intros s Hinv; simpl;
    [assumption|].
  apply IH. now apply inv_step.
Qed.

Lemma counted_le n s : Inv n s -> counted s <= n.
Proof.
  intros [_ _ _ _ _ Hn Hfiles _ _]. rewrite Hn.
  apply Permutation_length in Hfiles.
  rewrite length_app, length_fmap, length_seq in Hfiles. lia.
Qed.

Lemma entries_NoDup n s : Inv n s -> NoDup (reportEntries s).*1.
Proof.
  intros [_ _ _ _ _ _ Hfiles _ _].
  assert (NoDup ((reportEntries s).*1 ++ inflight (workers s))) as Hnd
    by (rewrite Hfiles; apply NoDup_seq).
  now apply NoDup_app in Hnd as [Hnd _].
Qed.

(** When the workers have returned and nobody pressed "Cancel All",
    the entries are the files of the batch. *)
Lemma finished_entries n s :
  Inv n s -> allFinished s = true -> cancelled s = false ->
  (reportEntries s).*1 ≡ₚ seq 0 n.
Proof.
  intros [_ _ _ _ _ _ Hfiles Hfin Hws] Hall Hc.
  rewrite (allFinished_inflight s Hall), app_nil_r in Hfiles.
  rewrite Hfiles.
  replace (Nat.min (nextFileIndex s) n) with n; [reflexivity|].
  symmetry. destruct n as [|n]; [apply Nat.min_0_r|].
  apply Nat.min_r.
  destruct (workers s) as [|st ws] eqn:Hw; [simpl in Hws; discriminate|].
  apply (Hfin Hc 0). simpl.
  unfold allFinished in Hall. rewrite Hw in Hall. simpl in Hall.
  now destruct st.
Qed.

(** C3 (count conservation, amended).  At every moment of a batch of
    [n] files no file has two report entries, each counter is the
    number of entries of its status, and the four counters add up to
    at most [n].  When the workers have returned and "Cancel All" was
    not pressed, which is when the function returns the counters, the
    entries are exactly the [n] files, so each file is in exactly one
    bucket and the counters add up to [n]; files cancelled one by one
    are among them. *)
Theorem count_conservation n upload modal schedule :
  let s := run n upload modal schedule (initial n) in
  (counted s <= n /\
   NoDup (reportEntries s).*1 /\
   uploadedFilesCount s = countStatus RUploaded (reportEntries s) /\
   skippedFilesCount s = countStatus RSkipped (reportEntries s) /\
   failedFilesCount s = countStatus RFailed (reportEntries s) /\
   cancelledFilesCount s = countStatus RCancelled (reportEntries s)) /\
  (allFinished s = true -> cancelled s = false ->
   counted s = n /\ (reportEntries s).*1 ≡ₚ seq 0 n).
Proof.
  intros s.
  assert (Hinv : Inv n s) by apply inv_run, inv_initial.
  split.
  - split; [now apply counted_le|].
    split; [now apply (entries_NoDup n)|].
    destruct Hinv; auto.
  - intros Hall Hc.
    pose proof (finished_entries n s Hinv Hall Hc) as Hp.
    split; [|exact Hp].
    rewrite (inv_counted n s Hinv).
    apply Permutation_length in Hp.
    now rewrite length_fmap, length_seq in Hp.
Qed.

Lemma count_conservation_witness :
  counted (run 2 twoFiles true
             [Resume 0; Resume 1; ClickCancelFile 1; Resume 1; Resume 0;
              Resume 0; Resume 1] (initial 2)) = 2.
Proof.
  apply (count_conservation 2 twoFiles true
           [Resume 0; Resume 1; ClickCancelFile 1; Resume 1; Resume 0;
            Resume 0; Resume 1]); vm_compute; reflexivity.
Defined.

(** Creating the workers is resuming each of them once, in order. *)
Lemma startWorkers_run n upload modal :
  startWorkers n (initial n)
  = run n upload modal (map Resume (seq 0 (Nat.min MAX_PARALLEL_UPLOADS n)))
        (initial n).
Proof. destruct n as [|[|[|n]]]; reflexivity. Qed.

(** C3 as stated fails under global cancellation.  Of four files,
    the three workers take the first three when they are created;
    "Cancel All" is pressed while these uploads are under way; the
    requests are aborted, each of the three files is counted as
    cancelled and each worker returns at its loop head.  The fourth
    file is never taken: the function returns [{ success: false,
    cancelled: true }] with counters that add up to 3. *)
Lemma global_cancel_breaks_conservation :
  let started := startWorkers 4 (initial 4) in
  let s := run 4 (fun _ => Threw) true
               [ClickCancelAll;
                Resume 0; Resume 1; Resume 2; Resume 0; Resume 1; Resume 2]
               started in
  inflight (workers started) = [0; 1; 2] /\
  s = run 4 (fun _ => Threw) true
          [Resume 0; Resume 1; Resume 2; ClickCancelAll;
           Resume 0; Resume 1; Resume 2; Resume 0; Resume 1; Resume 2]
          (initial 4) /\
  allFinished s = true /\
  batchResult s = Some BatchCancelled /\
  reportEntries s = [(0, RCancelled); (1, RCancelled); (2, RCancelled)] /\
  (uploadedFilesCount s, skippedFilesCount s, failedFilesCount s,
   cancelledFilesCount s) = (0, 0, 0, 3) /\
  counted s <> 4.
Proof. vm_compute. repeat split; discriminate. Qed.

(** *** A batch nobody cancels *)

Lemma quiet_step n upload modal w s :
  Quiet upload s -> Quiet upload (step n upload modal (Resume w) s).
Proof.
  intros [Hc Hf He]. simpl.
  destruct (workers s !! w) as [[|i|]|] eqn:Hw; try (now constructor).
  - rewrite workerHead_cases, Hc, Hf.
    destruct (n <=? nextFileIndex s); [now constructor|].
    rewrite bool_decide_eq_false_2 by set_solver.
    now constructor.
  - unfold processSettle, setItemStatus. rewrite Hc, Hf.
    rewrite bool_decide_eq_false_2 by set_solver. simpl.
    destruct (upload i) eqn:Hu, modal; constructor; simpl; auto;
      apply Forall_app; (split; [assumption|]);
      repeat constructor; simpl; now rewrite Hu.
Qed.

Lemma quiet_run n upload modal schedule :
  Forall isResume schedule ->
  forall s, Quiet upload s -> Quiet upload (run n upload modal schedule s).
Proof.
  induction 1 as [|a schedule Ha _ IH]; intros s Hq; simpl; [assumption|].
  apply IH. destruct a; try contradiction. now apply quiet_step.
Qed.

Lemma countStatus_all r (entries : list (nat * ReportStatus)) :
  Forall (fun e => snd e = r) entries ->
  countStatus r entries = length entries /\
  forall r', r' <> r -> countStatus r' entries = 0.
Proof.
  unfold countStatus.
  induction 1 as [|[i x] l Hx _ [IH1 IH2]]; simpl; [auto|].
  simpl in Hx. subst x. split.
  - destruct r; simpl; now rewrite IH1.
  - intros r' Hne. specialize (IH2 r' Hne).
    destruct r, r'; simpl; auto; congruence.
Qed.

Lemma unchanged_is_skipped f :
  unchangedOnDrive f -> fileOutcome f = Skipped.
Proof.
  intros (Hreq & Hpath & [size Hsize] & [folder Hfolder]
          & token & d & files & md5 & Htok & Htr & Hs & Hid & Hmd5
          & Hdig & Hm).
  unfold fileOutcome. rewrite Hreq, Hpath, Hsize, Hfolder. simpl.
  erewrite UploadProofs.dedup_skip_run; eauto.
  unfold UploadXhr.computeLocalMd5. now rewrite Hreq.
Qed.

(** C6 (dedup).  When the file the name lookup returns has the
    [md5Checksum] that [computeLocalMd5] computes, the call returns
    [skipped: true] with the id of that file, and the lookup is the
    only request it has sent.  Hence a push of files that are all
    unchanged on the drive, which nobody cancels, ends with no file
    uploaded and every file skipped. *)
Theorem dedup_idempotence :
  (forall env fileName fileInput mimeType folderId actualFileSize w
          token d files md5,
      Net.validToken env = Some token -> Net.truthy token = true ->
      Net.searchResponse env = Net.FetchOk (d :: files) ->
      Net.truthy (Net.df_id d) = true ->
      Net.df_md5Checksum d = Some md5 ->
      UploadXhr.computeLocalMd5 env fileInput = Some md5 ->
      Net.truthy md5 = true ->
      UploadXhr.uploadFileWithProgress env fileName fileInput mimeType
                                       folderId actualFileSize w
      = (Net.Returned
           {| UploadXhr.id := Net.df_id d; UploadXhr.skipped := true;
              UploadXhr.reason := Some "Unchanged (MD5 match)" |},
         Net.mkWorld (Net.xhrSent w) (Net.sessionsStarted w)
                     (Net.randomsDrawn w)
                     (Net.log w ++ [Net.EvSearch fileName folderId]))) /\
  (forall files modal schedule,
      Forall unchangedOnDrive files ->
      Forall isResume schedule ->
      let s := run (length files) (outcomes files) modal schedule
                   (initial (length files)) in
      allFinished s = true ->
      uploadedFilesCount s = 0 /\ skippedFilesCount s = length files).
Proof.
  split; [intros; eapply UploadProofs.dedup_skip_run; eauto|].
  intros files modal schedule Hfiles Hsched s Hall.
  assert (Hinv : Inv (length files) s) by apply inv_run, inv_initial.
  assert (Hq : Quiet (outcomes files) s).
  { apply quiet_run; [assumption|]. constructor; simpl; auto. }
  pose proof (finished_entries _ s Hinv Hall (quiet_flag _ _ Hq)) as Hp.
  assert (Hsk : Forall (fun e => snd e = RSkipped) (reportEntries s)).
  { pose proof (quiet_entries _ _ Hq) as He.
    apply Forall_forall. intros [i r] Hin.
    rewrite Forall_forall in He. specialize (He _ Hin). simpl in *.
    assert (Hi : i ∈ seq 0 (length files)).
    { rewrite <- Hp. apply list_elem_of_fmap. now exists (i, r). }
    apply elem_of_seq in Hi as [_ Hi].
    destruct (lookup_lt_is_Some_2 files i ltac:(lia)) as [f Hf].
    unfold outcomes in He. rewrite Hf in He.
    rewrite (unchanged_is_skipped f) in He; [exact He|].
    rewrite Forall_forall in Hfiles. apply Hfiles.
    eapply list_elem_of_lookup_2, Hf. }
  destruct (countStatus_all RSkipped _ Hsk) as [Hlen Hzero].
  rewrite (inv_uploaded _ _ Hinv), (inv_skipped _ _ Hinv), Hlen.
  split; [apply Hzero; discriminate|].
  apply Permutation_length in Hp.
  now rewrite length_fmap, length_seq in Hp.
Qed.

Lemma unchangedFiles_ok : Forall unchangedOnDrive unchangedFiles.
Proof.
  repeat constructor; simpl; eauto;
    do 4 eexists; repeat split; reflexivity.
Qed.

Lemma dedup_idempotence_witness :
  let s := run 2 (outcomes unchangedFiles) true
               [Resume 0; Resume 1; Resume 1; Resume 0; Resume 0; Resume 1]
               (initial 2) in
  uploadedFilesCount s = 0 /\ skippedFilesCount s = 2.
Proof.
  apply (proj2 dedup_idempotence unchangedFiles true
           [Resume 0; Resume 1; Resume 1; Resume 0; Resume 0; Resume 1]
           unchangedFiles_ok).
  - repeat constructor.
  - vm_compute. reflexivity.
Defined.

End PoolProofs.

(** * Properties of the pulls *)

Module PullProofs.
Import PullAll.

Lemma filter_Forall {A} (p : A -> bool) l :
  Forall (fun x => p x = true) (List.filter p l).
Proof.
  induction l as [|x l IH]; simpl; [constructor|].
  destruct (p x) eqn:E; [constructor|]; assumption.
Qed.

Lemma insertSorted_media x l :
  isMedia x = true ->
  insertSorted prprojLast x l = x :: l.
Proof.
  intros Hx. destruct l as [|y l]; [reflexivity|]. simpl.
  unfold prprojLast. unfold isMedia in Hx. apply negb_true_iff in Hx.
  rewrite Hx. now destruct (isPrproj (name y)).
Qed.

Lemma insertSorted_descriptor x media rest :
  isDescriptor x = true ->
  Forall (fun f => isMedia f = true) media ->
  Forall (fun f => isDescriptor f = true) rest ->
  insertSorted prprojLast x (media ++ rest) = media ++ x :: rest.
Proof.
  intros Hx Hm Hr. unfold isDescriptor in Hx.
  induction Hm as [|y media Hy _ IH]; simpl.
  - destruct Hr as [|z rest Hz _]; [reflexivity|]. simpl.
    unfold prprojLast. unfold isDescriptor in Hz. now rewrite Hx, Hz.
  - unfold prprojLast at 1. unfold isMedia in Hy.
    apply negb_true_iff in Hy. rewrite Hx, Hy. simpl. now rewrite IH.
Qed.

(** The sort of line 1847 moves the descriptors behind the other
    files and keeps the order inside both groups. *)
Lemma sort_prprojLast files :
  sort prprojLast files
  = List.filter isMedia files ++ List.filter isDescriptor files.
Proof.
  induction files as [|x files IH]; [reflexivity|]. simpl. rewrite IH.
  unfold isMedia at 2, isDescriptor at 2.
  destruct (isPrproj (name x)) eqn:E; simpl.
  - apply insertSorted_descriptor; [exact E|apply filter_Forall..].
  - apply insertSorted_media. unfold isMedia. now rewrite E.
Qed.

Lemma filter_partition_perm {A} (p : A -> bool) l :
  List.filter (fun x => negb (p x)) l ++ List.filter p l ≡ₚ l.
Proof.
  induction l as [|x l IH]; [reflexivity|]. simpl.
  destruct (p x); simpl.
  - rewrite <- Permutation_middle. now constructor.
  - now constructor.
Qed.

(** The loop logs whole transfers, one after the other, of files in
    the order of the list. *)
Lemma pullLoop_log env targetFolder total :
  forall files s,
    exists transferred,
      sublist transferred files /\
      log (pullLoop env targetFolder total files s)
      = log s ++ flat_map (transferOf env) transferred.
Proof.
  induction files as [|f files IH]; intros s; simpl.
  { exists []. split; [constructor|]. now rewrite app_nil_r. }
  destruct (pullCancelled s).
  { exists []. split; [apply sublist_nil_l|]. simpl. now rewrite app_nil_r. }
  destruct (alreadySynced env targetFolder f s).
  - destruct (IH (mkState (pulled s) (S (skipped s)) (cancelled s)
                          false (disk s) (downloadingFiles s) (log s)))
      as (tr & Hsub & Hlog).
    exists tr. split; [now apply sublist_cons|exact Hlog].
  - unfold handleSingleFilePull.
    destruct (bool_decide (id f ∈ downloadingFiles s)).
    + match goal with
      | |- context [pullLoop _ _ _ files ?s1] =>
          destruct (IH s1) as (tr & Hsub & Hlog)
      end.
      exists tr. split; [now apply sublist_cons|exact Hlog].
    + destruct (download env (id f)) as [n|] eqn:Hd;
        match goal with
        | |- context [pullLoop _ _ _ files ?s1] =>
            destruct (IH s1) as (tr & Hsub & Hlog)
        end;
        exists (f :: tr); (split; [now apply sublist_skip|]);
        rewrite Hlog; simpl; unfold transferOf at 2; rewrite Hd;
        now rewrite <- app_assoc.
Qed.

Lemma sublist_Forall {A} (P : A -> Prop) (l k : list A) :
  sublist l k -> Forall P k -> Forall P l.
Proof.
  intros Hsub Hk. apply Forall_forall. intros x Hx.
  rewrite Forall_forall in Hk. apply Hk.
  eapply sublist_subseteq; eassumption.
Qed.

Lemma transfers_files env (P : DriveFile -> Prop) fs :
  Forall P fs ->
  Forall (fun e => P (fileOf e)) (flat_map (transferOf env) fs).
Proof.
  induction 1; simpl; repeat constructor; assumption.
Qed.

(** C4 (descriptor last, amended to "Pull All").  The log of
    [handlePullAll] is a sequence of whole transfers, each completed
    before the next starts: first those of files that are not
    descriptors, then those of the descriptors (names ending in
    .prproj); the files transferred are selected files, in the order
    of the sorted selection, which is a rearrangement of the
    selection.  Hence every completion of a transfer of another file
    comes before every start of a transfer of a descriptor. *)
Theorem descriptor_last env targetFolder files disk0 downloading0 :
  let s := handlePullAll env targetFolder files disk0 downloading0 in
  (exists media descriptors,
      log s = flat_map (transferOf env) media
              ++ flat_map (transferOf env) descriptors /\
      Forall (fun f => isPrproj (name f) = false) media /\
      Forall (fun f => isPrproj (name f) = true) descriptors /\
      sublist (media ++ descriptors) (sort prprojLast files) /\
      sort prprojLast files ≡ₚ files) /\
  (forall i j d f ok,
      log s !! i = Some (TransferStart d) -> isPrproj (name d) = true ->
      log s !! j = Some (TransferEnd f ok) -> isPrproj (name f) = false ->
      (j < i)%nat).
Proof.
  intros s.
  assert (Hstruct : exists media descriptors,
      log s = flat_map (transferOf env) media
              ++ flat_map (transferOf env) descriptors /\
      Forall (fun f => isPrproj (name f) = false) media /\
      Forall (fun f => isPrproj (name f) = true) descriptors /\
      sublist (media ++ descriptors) (sort prprojLast files) /\
      sort prprojLast files ≡ₚ files).
  { subst s. unfold handlePullAll.
    destruct (pullLoop_log env targetFolder (length files)
                (sort prprojLast files)
                (mkState 0 0 0 false disk0 downloading0 []))
      as (tr & Hsub & Hlog).
    simpl in Hlog. rewrite Hlog.
    pose proof Hsub as Hsub'.
    rewrite sort_prprojLast in Hsub'.
    apply sublist_app_r in Hsub' as (media & descriptors & -> & Hm & Hd).
    exists media, descriptors.
    split; [now rewrite flat_map_app|].
    split.
    { eapply Forall_impl;
        [eapply sublist_Forall; [exact Hm|apply filter_Forall]|].
      intros f Hf. unfold isMedia in Hf. now apply negb_true_iff in Hf. }
    split.
    { eapply sublist_Forall; [exact Hd|apply filter_Forall]. }
    split; [exact Hsub|].
    rewrite sort_prprojLast. apply filter_partition_perm. }
  split; [exact Hstruct|].
  destruct Hstruct as (media & descriptors & Hlog & Hm & Hd & _ & _).
  intros i j d f ok Hi Hdesc Hj Hmedia. rewrite Hlog in Hi, Hj.
  pose proof (transfers_files env _ _ Hm) as HL1.
  pose proof (transfers_files env _ _ Hd) as HL2.
  set (L1 := flat_map (transferOf env) media) in *.
  set (L2 := flat_map (transferOf env) descriptors) in *.
  assert (Hi' : (length L1 <= i)%nat).
  { destruct (Nat.le_gt_cases (length L1) i) as [H|H]; [exact H|].
    rewrite lookup_app_l in Hi by exact H.
    rewrite Forall_lookup in HL1. specialize (HL1 _ _ Hi). simpl in HL1.
    congruence. }
  assert (Hj' : (j < length L1)%nat).
  { destruct (Nat.le_gt_cases (length L1) j) as [H|H]; [|exact H].
    rewrite lookup_app_r in Hj by exact H.
    rewrite Forall_lookup in HL2. specialize (HL2 _ _ Hj). simpl in HL2.
    congruence. }
  lia.
Qed.

(** The selection of the example: the descriptor is listed first and
    pulled last; the failed pull of [voice.wav] completes as well. *)
Example pull_all_example :
  log (handlePullAll exampleEnv "C:\sync\Promo" exampleFiles ∅ ∅)
  = [ TransferStart {| id := "id-a"; name := "media/clip.mov";
                       size := Some 20971520 |};
      TransferEnd {| id := "id-a"; name := "media/clip.mov";
                     size := Some 20971520 |} true;
      TransferStart {| id := "id-b"; name := "voice.wav";
                       size := Some 4096 |};
      TransferEnd {| id := "id-b"; name := "voice.wav";
                     size := Some 4096 |} false;
      TransferStart {| id := "id-p"; name := "promo.prproj";
                       size := Some 52000 |};
      TransferEnd {| id := "id-p"; name := "promo.prproj";
                     size := Some 52000 |} true ].
Proof. vm_compute. reflexivity. Qed.

Lemma descriptor_last_witness : (1 < 4)%nat.
Proof.
  apply (proj2 (descriptor_last exampleEnv "C:\sync\Promo" exampleFiles ∅ ∅)
               4%nat 1%nat
               {| id := "id-p"; name := "promo.prproj"; size := Some 52000 |}
               {| id := "id-a"; name := "media/clip.mov";
                  size := Some 20971520 |} true);
    vm_compute; reflexivity.
Defined.

End PullProofs.

Module DownloadProofs.
Import Download.

(** C4 as stated fails for the download helper, which pulls in the
    order of the listing: the descriptor, listed first, is transferred
    before [clip.mov]. *)
Lemma download_helper_pulls_descriptor_first :
  let s := downloadProjectWithProgress exampleEnv "C:\sync\Promo"
                                       exampleFiles ∅ in
  let promo := {| id := "id-p"; name := "promo.prproj"; size := Some 4 |} in
  let clip := {| id := "id-a"; name := "clip.mov"; size := Some 6 |} in
  log s = [ TransferStart promo; TransferEnd promo;
            Listed "promo.prproj" ItemComplete;
            TransferStart clip; TransferEnd clip;
            Listed "clip.mov" ItemComplete ] /\
  PullAll.isPrproj (name promo) = true /\
  PullAll.isPrproj (name clip) = false /\
  log s !! 0%nat = Some (TransferStart promo) /\
  log s !! 4%nat = Some (TransferEnd clip).
Proof. vm_compute. repeat split; reflexivity. Qed.

Lemma loopBody_keeps_disk env projectPath f s :
  disk s ⊆ disk (snd (loopBody env projectPath f s)).
Proof.
  unfold loopBody. destruct (cancelled s); [reflexivity|].
  destruct (disk s !! targetPathOf projectPath f) eqn:Hd.
  - unfold classifyExisting. simpl. now destruct (_ =? _).
  - unfold downloadOne.
    destruct (downloadFile env (id f)); [|reflexivity].
    destruct (cancelled s || cancelDuring env (id f)); [reflexivity|].
    destruct (writeFails env (targetPathOf projectPath f));
      [reflexivity|].
    simpl. now apply insert_subseteq.
Qed.

Lemma downloadLoop_keeps_disk env projectPath driveFiles :
  forall s, disk s ⊆ disk (downloadLoop env projectPath driveFiles s).
Proof.
  induction driveFiles as [|f rest IH]; intros s; simpl; [reflexivity|].
  pose proof (loopBody_keeps_disk env projectPath f s) as Hstep.
  destruct (loopBody env projectPath f s) as [[|] s']; simpl in Hstep.
  - etrans; [exact Hstep|apply IH].
  - exact Hstep.
Qed.

(** C5 (classification of existing files).  For an entry whose target
    path exists on disk, in a pull that is not cancelled, the loop
    body transfers nothing and leaves the disk as it is; when the
    measured local size equals the remote size the entry is listed
    as skipped and counted in [skippedFiles], otherwise it is listed
    as a conflict and [{name, localPath, driveFile, localSize,
    driveSize}] is appended to [conflicts].  Over a whole pull, every
    file that was on disk at the start is still there with the same
    bytes at the end.  With Node's [fs] at hand and a [statSync] that
    does not throw, the measured local size is the size of the file. *)
Theorem existing_file_is_classified env projectPath :
  (forall f s content,
      cancelled s = false ->
      disk s !! targetPathOf projectPath f = Some content ->
      let s' := snd (loopBody env projectPath f s) in
      let localSize :=
        measureLocalSize env (disk s) (targetPathOf projectPath f) in
      fst (loopBody env projectPath f s) = true /\
      disk s' = disk s /\
      (localSize = driveSizeOf f ->
       log s' = log s ++ [Listed (name f) ItemSkipped] /\
       skippedFiles s' = S (skippedFiles s) /\
       conflicts s' = conflicts s) /\
      (localSize <> driveSizeOf f ->
       log s' = log s ++ [Listed (name f) ItemConflict] /\
       skippedFiles s' = skippedFiles s /\
       conflicts s' =
         conflicts s ++
           [{| c_name := name f;
               c_localPath := targetPathOf projectPath f;
               c_driveFile := f;
               c_localSize := localSize;
               c_driveSize := driveSizeOf f |}])) /\
  (forall driveFiles disk0 path content,
      disk0 !! path = Some content ->
      disk (downloadProjectWithProgress env projectPath driveFiles disk0)
        !! path = Some content) /\
  (forall disk0 path content,
      requireDefined env = true ->
      statThrows env path = false ->
      disk0 !! path = Some content ->
      measureLocalSize env disk0 path = sizeOf content).
Proof.
  split; [|split].
  - intros f s content Hc Hd. unfold loopBody. rewrite Hc, Hd. simpl.
    unfold classifyExisting.
    destruct (Z.eqb_spec
                (measureLocalSize env (disk s) (targetPathOf projectPath f))
                (driveSizeOf f)) as [Heq|Hne]; simpl.
    + repeat split; auto; intros; contradiction.
    + repeat split; auto; intros; contradiction.
  - intros driveFiles disk0 path content Hd.
    unfold downloadProjectWithProgress.
    eapply lookup_weaken; [exact Hd|].
    apply (downloadLoop_keeps_disk env projectPath driveFiles
             (mkState 0 0 0 0 [] false 0 disk0 [])).
  - intros disk0 path content Hreq Hstat Hd.
    unfold measureLocalSize. now rewrite Hreq, Hstat, Hd.
Qed.

Lemma existing_file_is_classified_witness :
  let s := downloadProjectWithProgress exampleEnv "C:\sync\Promo"
                                       exampleFiles divergedDisk in
  conflicts s =
    [{| c_name := "clip.mov";
        c_localPath := "C:\sync\Promo\clip.mov";
        c_driveFile := {| id := "id-a"; name := "clip.mov";
                          size := Some 6 |};
        c_localSize := 3;
        c_driveSize := 6 |}] /\
  disk s !! "C:\sync\Promo\clip.mov" = Some "OLD".
Proof.
  split; [vm_compute; reflexivity|].
  apply (proj1 (proj2 (existing_file_is_classified exampleEnv
                                                   "C:\sync\Promo"))
               exampleFiles divergedDisk).
  vm_compute. reflexivity.
Defined.

End DownloadProofs.

(** * Properties of the .prproj patch *)

Module PatcherProofs.
Import Stdlib.Strings.Ascii.
Import Patcher.
Local Open Scope nat_scope.

Section Patch.
Variable toLowerCase : string -> string.
Variable gunzipSync : string -> option string.
Variable gzipSync : string -> string.

(** What the callback does with an embedded path. *)
Lemma replacer_spec availableFiles fullPath basename :
  (exists newPath,
      rewrittenTo toLowerCase availableFiles fullPath basename newPath /\
      replacer toLowerCase availableFiles fullPath basename
      = (newPath, true)) \/
  ((forall newPath,
       ~ rewrittenTo toLowerCase availableFiles fullPath basename newPath) /\
   replacer toLowerCase availableFiles fullPath basename
   = (fullPath, false)).
Proof.
  unfold replacer, rewrittenTo.
  destruct (availableFiles !! toLowerCase basename) as [newPath|] eqn:Hl.
  - destruct (String.eqb_spec (toLowerCase newPath) (toLowerCase fullPath))
      as [Heq|Hne]; simpl.
    + right. split; [|reflexivity].
      intros p [[= <-] Hp]. contradiction.
    + left. exists newPath. auto.
  - right. split; [|reflexivity]. intros p [Hp _]. discriminate.
Qed.

(** [replace] writes every segment of the document as the callback
    renders it, and [patchCount] counts the rewritten ones. *)
Lemma replacePaths_segments availableFiles :
  forall s skip patchCount,
    replacePaths toLowerCase availableFiles s skip patchCount
    = (flat_map (render toLowerCase availableFiles) (segments s skip),
       patchCount
       + length (List.filter (isRewritten toLowerCase availableFiles)
                             (segments s skip))).
Proof.
  induction s as [|c s IH]; intros skip patchCount;
    cbn [replacePaths segments].
  - simpl. now rewrite Nat.add_0_r.
  - destruct skip as [|k]; [|apply IH].
    destruct (matchAt (c :: s)) as [[full base]|].
    + cbn [flat_map List.filter isRewritten render].
      destruct (replacer toLowerCase availableFiles
                  (string_of_list_ascii full) (string_of_list_ascii base))
        as [replacement counted].
      rewrite IH. cbn [fst snd].
      destruct counted; cbn [length]; f_equal; lia.
    + rewrite IH. reflexivity.
Qed.

(** C8 (descriptor patch, amended).  The patched text is the document
    with every embedded absolute path (every match of the pattern)
    either replaced or kept: a path is replaced, by the indexed local
    path, exactly when its basename, in lower case, is in the index of
    the target folder and the indexed path differs from the embedded
    one when both are compared in lower case; [patchCount] is the
    number of paths replaced.  The patch touches no other file; it
    writes the recompressed text over the descriptor when at least one
    path was replaced, and with no replacement (or a file that cannot
    be read or decompressed, or a file that is no .prproj) the disk
    stays exactly as the download left it. *)
Theorem descriptor_patch :
  (forall availableFiles fullPath basename,
      (exists newPath,
          rewrittenTo toLowerCase availableFiles fullPath basename newPath /\
          replacer toLowerCase availableFiles fullPath basename
          = (newPath, true)) \/
      ((forall newPath,
           ~ rewrittenTo toLowerCase availableFiles fullPath basename
               newPath) /\
       replacer toLowerCase availableFiles fullPath basename
       = (fullPath, false))) /\
  (forall availableFiles xmlString,
      replacePaths toLowerCase availableFiles
                   (list_ascii_of_string xmlString) 0 0
      = (flat_map (render toLowerCase availableFiles)
                  (segments (list_ascii_of_string xmlString) 0),
         length (List.filter (isRewritten toLowerCase availableFiles)
                             (segments (list_ascii_of_string xmlString) 0))))
  /\
  (forall fileName targetFolder targetPath listing disk,
      let disk' := patchPrproj toLowerCase gunzipSync gzipSync fileName
                               targetFolder targetPath listing disk in
      (forall path, path <> targetPath -> disk' !! path = disk !! path) /\
      (forall prprojBuffer xmlString,
          PullAll.endsWith fileName ".prproj" = true ->
          disk !! targetPath = Some prprojBuffer ->
          gunzipSync prprojBuffer = Some xmlString ->
          let result :=
            replacePaths toLowerCase
                         (scanFolder toLowerCase targetFolder listing)
                         (list_ascii_of_string xmlString) 0 0 in
          (snd result = 0%nat -> disk' = disk) /\
          ((0 < snd result)%nat ->
           disk' = <[targetPath :=
                       gzipSync (string_of_list_ascii (fst result))]> disk)) /\
      (PullAll.endsWith fileName ".prproj" = false \/
       disk !! targetPath = None \/
       (exists prprojBuffer, disk !! targetPath = Some prprojBuffer /\
                             gunzipSync prprojBuffer = None) ->
       disk' = disk)).
Proof.
  split; [apply replacer_spec|].
  split.
  { intros availableFiles xmlString. now rewrite replacePaths_segments. }
  intros fileName targetFolder targetPath listing disk disk'.
  subst disk'. unfold patchPrproj. split; [|split].
  - intros path Hne.
    destruct (PullAll.endsWith fileName ".prproj"); [|reflexivity].
    destruct (disk !! targetPath) as [buffer|]; [|reflexivity].
    destruct (gunzipSync buffer) as [xml|]; [|reflexivity].
    destruct (replacePaths _ _ _ _ _) as [patched n].
    destruct (0 <? n)%nat; [|reflexivity].
    now rewrite lookup_insert_ne.
  - intros buffer xml Hname Hread Hgz. cbv zeta.
    rewrite Hname, Hread, Hgz.
    destruct (replacePaths _ _ _ _ _) as [patched n]. simpl.
    split; intros Hn.
    + subst n. reflexivity.
    + destruct (Nat.ltb_spec 0 n); [reflexivity|lia].
  - intros [Hname|[Hread|(buffer & Hread & Hgz)]].
    + now rewrite Hname.
    + rewrite Hread. now destruct (PullAll.endsWith fileName ".prproj").
    + rewrite Hread, Hgz.
      now destruct (PullAll.endsWith fileName ".prproj").
Qed.

End Patch.

(** The example document: the clip is found in the sync folder under
    another directory and is rewritten; [C:\temp] is no match of the
    pattern; [voice.wav] is not in the folder. *)
Example patch_example :
  segments (list_ascii_of_string
              "<P>D:\Footage\day 1\clip.mov</P><T>C:\temp</T>") 0
  = map Text (list_ascii_of_string "<P>")
    ++ [EmbeddedPath "D:\Footage\day 1\clip.mov" "clip.mov"]
    ++ map Text (list_ascii_of_string "</P><T>C:\temp</T>") /\
  replacePaths asciiLower exampleIndex (list_ascii_of_string exampleXml) 0 0
  = (list_ascii_of_string
       "<Media><ActualMediaFilePath>C:\sync\Promo\media\Clip.MOV</ActualMediaFilePath><Title>C:\temp</Title><FilePath>d:\x\voice.wav</FilePath></Media>",
     1%nat).
Proof. split; vm_compute; reflexivity. Qed.

Lemma descriptor_patch_witness :
  patchPrproj asciiLower toyGunzip toyGzip "promo.prproj" "C:\sync\Promo"
    "C:\sync\Promo\promo.prproj" exampleListing
    {[ "C:\sync\Promo\promo.prproj" := "GZ:<T>C:\temp</T>" ]}
  = {[ "C:\sync\Promo\promo.prproj" := "GZ:<T>C:\temp</T>" ]}.
Proof.
  apply (proj1 (proj1 (proj2 (proj2 (proj2
           (descriptor_patch asciiLower toyGunzip toyGzip))
           "promo.prproj" "C:\sync\Promo" "C:\sync\Promo\promo.prproj"
           exampleListing
           {[ "C:\sync\Promo\promo.prproj" := "GZ:<T>C:\temp</T>" ]}))
           "GZ:<T>C:\temp</T>" "<T>C:\temp</T>"
           ltac:(vm_compute; reflexivity) ltac:(vm_compute; reflexivity)
           ltac:(vm_compute; reflexivity))).
  vm_compute. reflexivity.
Defined.

(** C8 as stated fails: the document names the clip of the sync folder
    with another letter case.  The basename is in the index, the
    indexed path differs from the embedded path, and yet the path is
    not rewritten and the descriptor is not written back. *)
Lemma case_only_difference_is_not_rewritten :
  segments (list_ascii_of_string sameFileXml) 0
  = map Text (list_ascii_of_string "<FilePath>")
    ++ [EmbeddedPath "C:\Sync\Promo\Media\clip.mov" "clip.mov"]
    ++ map Text (list_ascii_of_string "</FilePath>") /\
  exampleIndex !! asciiLower "clip.mov" = Some "C:\sync\Promo\media\Clip.MOV" /\
  "C:\sync\Promo\media\Clip.MOV" <> "C:\Sync\Promo\Media\clip.mov" /\
  replacePaths asciiLower exampleIndex (list_ascii_of_string sameFileXml) 0 0
  = (list_ascii_of_string sameFileXml, 0%nat) /\
  patchPrproj asciiLower toyGunzip toyGzip "promo.prproj" "C:\sync\Promo"
    "C:\sync\Promo\promo.prproj" exampleListing
    {[ "C:\sync\Promo\promo.prproj" := toyGzip sameFileXml ]}
  = {[ "C:\sync\Promo\promo.prproj" := toyGzip sameFileXml ]}.
Proof.
  repeat split; try (vm_compute; reflexivity). discriminate.
Qed.

End PatcherProofs.

(** * Properties of the lock endpoints *)

Module LockProofs.
Import Locks.

(** C9 (release by the holder only).  A release request with a known
    API key whose editor name differs from [locked_by] of the
    project's lock is answered [{ success: false }] and leaves the
    database, and so the lock row, as it was; and whenever a release
    request succeeds on a locked project, the caller's editor name is
    the holder. *)
Theorem unlock_only_by_holder apiKey projectName db :
  (forall key lock,
      api_keys db !! apiKey = Some key ->
      project_locks db !! projectName = Some lock ->
      locked_by lock <> editor_name key ->
      unlock apiKey projectName db = (NotOwner, db)) /\
  (forall lock db',
      project_locks db !! projectName = Some lock ->
      unlock apiKey projectName db = (Success, db') ->
      exists key,
        api_keys db !! apiKey = Some key /\
        locked_by lock = editor_name key /\
        project_locks db' !! projectName = None).
Proof.
  split.
  - intros key lock Hk Hl Hne. unfold unlock. rewrite Hk, Hl.
    destruct (String.eqb_spec (locked_by lock) (editor_name key));
      [contradiction|reflexivity].
  - intros lock db' Hl Hrun. unfold unlock in Hrun. rewrite Hl in Hrun.
    destruct (api_keys db !! apiKey) as [key|]; [|discriminate].
    destruct (String.eqb_spec (locked_by lock) (editor_name key));
      simpl in Hrun; [|discriminate].
    injection Hrun as <-. exists key. simpl.
    repeat split; auto. apply lookup_delete_eq.
Qed.

Lemma unlock_only_by_holder_witness :
  unlock "key-B" "Promo_Cut" exampleDb = (NotOwner, exampleDb).
Proof.
  apply (proj1 (unlock_only_by_holder "key-B" "Promo_Cut" exampleDb)
               {| editor_name := "B"; expires_at := "2027-01-01";
                  revoked := false |}
               {| locked_by := "A";
                  locked_at := "2026-10-01T10:00:00.000Z" |}).
  - vm_compute. reflexivity.
  - vm_compute. reflexivity.
  - simpl. discriminate.
Defined.

(** The holder's own request releases the lock. *)
Example holder_unlocks :
  fst (unlock "key-A" "Promo_Cut" exampleDb) = Success /\
  project_locks (snd (unlock "key-A" "Promo_Cut" exampleDb))
    !! "Promo_Cut" = None.
Proof. split; vm_compute; reflexivity. Qed.

End LockProofs.

(** * Properties of the admin server *)

Module ServerProofs.
Import Locks Js Server.

Lemma split_cons sep s : exists piece pieces, split sep s = piece :: pieces.
Proof.
  induction s as [|c s IH]; simpl; [eauto|].
  destruct (Ascii.eqb c sep); [eauto|].
  destruct IH as (piece & pieces & ->). eauto.
Qed.

Lemma contains_cons c sep s :
  contains sep (String c s) = Ascii.eqb sep c || contains sep s.
Proof. reflexivity. Qed.

Lemma split_no_sep sep s : contains sep s = false -> split sep s = [s].
Proof.
  induction s as [|c s IH]; [reflexivity|].
  rewrite contains_cons. intros [Hc Hs]%orb_false_elim. simpl.
  rewrite Ascii.eqb_sym, Hc, (IH Hs). reflexivity.
Qed.

Lemma split_app sep a b :
  contains sep a = false ->
  split sep (String.append a (String sep b)) = a :: split sep b.
Proof.
  induction a as [|c a IH]; simpl.
  - intros _. now rewrite Ascii.eqb_refl.
  - rewrite contains_cons. intros [Hc Ha]%orb_false_elim.
    rewrite Ascii.eqb_sym, Hc, (IH Ha). reflexivity.
Qed.

(** The first piece of a split is the whole string exactly when the
    string does not hold the separator. *)
Lemma split_head sep s :
  nth 0 (split sep s) EmptyString = s <-> contains sep s = false.
Proof.
  split; [|intros H; now rewrite split_no_sep].
  induction s as [|c s IH]; [reflexivity|].
  rewrite contains_cons. simpl.
  destruct (Ascii.eqb_spec c sep) as [->|Hne]; [discriminate|].
  destruct (split_cons sep s) as (piece & pieces & Hs).
  rewrite Hs in *. simpl in *. intros [= H].
  rewrite (IH H), orb_false_r.
  destruct (Ascii.eqb_spec sep c) as [Heq|]; [|reflexivity].
  now elim Hne.
Qed.


(** *** Locks over sequences of requests *)

(** X1.  A lock request on a project that is locked is refused, whoever
    sends it, the holder included, and changes nothing: with a key
    that is known and not revoked the answer names the holder and the
    time of the lock. *)
Theorem held_lock_refuses_lock_requests now apiKey projectName d l :
  project_locks d !! projectName = Some l ->
  snd (lock now apiKey projectName d) = d /\
  fst (lock now apiKey projectName d) <> Success /\
  (forall key,
      api_keys d !! apiKey = Some key -> revoked key = false ->
      lock now apiKey projectName d
      = (LockedBy (locked_by l) (locked_at l), d)).
Proof.
  intros Hl. unfold lock. rewrite Hl.
  destruct (api_keys d !! apiKey) as [key|] eqn:Hk; simpl.
  - destruct (revoked key) eqn:Hr; simpl.
    + split; [reflexivity|split; [discriminate|]].
      intros key' [= <-]. congruence.
    + split; [reflexivity|split; [discriminate|]]. now intros key' [= <-].
  - split; [reflexivity|split; discriminate].
Qed.

Lemma held_lock_refuses_lock_requests_witness :
  lock "2026-10-02T08:00:00.000Z" "key-A" "Promo_Cut" exampleDb
  = (LockedBy "A" "2026-10-01T10:00:00.000Z", exampleDb).
Proof.
  apply (proj2 (proj2 (held_lock_refuses_lock_requests
                         "2026-10-02T08:00:00.000Z" "key-A" "Promo_Cut"
                         exampleDb
                         {| locked_by := "A";
                            locked_at := "2026-10-01T10:00:00.000Z" |}
                         eq_refl))
               {| editor_name := "A"; expires_at := "2027-01-01";
                  revoked := false |});
    reflexivity.
Defined.

Lemma serve_keeps_lock holder projectName r d l :
  project_locks d !! projectName = Some l ->
  locked_by l = holder ->
  releasesFor holder projectName r d = false ->
  project_locks (serve r d) !! projectName = Some l.
Proof.
  intros Hl Hh Hrel. destruct r as [now k p|k p|k|k]; simpl.
  - unfold lock. destruct (api_keys d !! k) as [key|]; [|exact Hl].
    destruct (revoked key); [exact Hl|].
    destruct (project_locks d !! p) eqn:Hp; [exact Hl|]. simpl.
    rewrite lookup_insert_ne; [exact Hl|]. congruence.
  - unfold unlock. simpl in Hrel.
    destruct (api_keys d !! k) as [key|]; [|exact Hl].
    destruct (String.eqb_spec p projectName) as [->|Hne]; simpl in Hrel.
    + rewrite Hl.
      destruct (String.eqb_spec (locked_by l) (editor_name key)) as [He|];
        [|exact Hl].
      apply String.eqb_neq in Hrel. congruence.
    + destruct (project_locks d !! p) as [l'|]; simpl.
      * destruct (negb _); [exact Hl|]. simpl.
        now rewrite lookup_delete_ne.
      * now rewrite lookup_delete_ne.
  - exact Hl.
  - exact Hl.
Qed.

(** X2.  Whatever editors and key management do in between, a lock stays
    with its holder, with its time, as long as no unlock request for
    the project arrives with a key of the holder's editor name:
    neither lock requests, nor unlock requests of other editors, nor
    the revocation or deletion of the holder's key release it. *)
Theorem lock_outlives_other_requests rs :
  forall d projectName l,
    project_locks d !! projectName = Some l ->
    noRelease (locked_by l) projectName rs d ->
    project_locks (serveAll rs d) !! projectName = Some l.
Proof.
  induction rs as [|r rs IH]; intros d p l Hl Hq; [exact Hl|].
  destruct Hq as [Hr Hq]. unfold serveAll. simpl.
  apply IH; [|exact Hq].
  now apply (serve_keeps_lock (locked_by l)).
Qed.

Lemma lock_outlives_other_requests_witness :
  project_locks
    (serveAll [ReqLock "t1" "key-B" "Promo_Cut";
               ReqUnlock "key-B" "Promo_Cut";
               ReqRevoke "key-A"; ReqDelete "key-A";
               ReqUnlock "key-A" "Promo_Cut"] exampleDb) !! "Promo_Cut"
  = Some {| locked_by := "A"; locked_at := "2026-10-01T10:00:00.000Z" |}.
Proof.
  apply lock_outlives_other_requests; [reflexivity|].
  vm_compute. repeat split.
Defined.

(** X3.  Taking a free lock and releasing it with the same key leaves the
    database as it was. *)
Theorem lock_then_unlock_restores now apiKey key projectName d :
  api_keys d !! apiKey = Some key ->
  revoked key = false ->
  project_locks d !! projectName = None ->
  fst (lock now apiKey projectName d) = Success /\
  project_locks (snd (lock now apiKey projectName d)) !! projectName
  = Some {| locked_by := editor_name key; locked_at := now |} /\
  unlock apiKey projectName (snd (lock now apiKey projectName d))
  = (Success, d).
Proof.
  intros Hk Hr Hp. unfold lock. rewrite Hk, Hr, Hp. simpl.
  split; [reflexivity|]. split; [apply lookup_insert_eq|].
  unfold unlock. simpl. rewrite Hk, lookup_insert_eq. simpl.
  rewrite String.eqb_refl. simpl.
  rewrite delete_insert_eq, (delete_id _ _ Hp). now destruct d.
Qed.

Lemma lock_then_unlock_restores_witness :
  unlock "key-B" "Teaser"
         (snd (lock "2026-10-02T08:00:00.000Z" "key-B" "Teaser" exampleDb))
  = (Success, exampleDb).
Proof.
  apply (lock_then_unlock_restores "2026-10-02T08:00:00.000Z" "key-B"
           {| editor_name := "B"; expires_at := "2027-01-01";
              revoked := false |} "Teaser" exampleDb);
    reflexivity.
Defined.


(** *** API keys *)

(** X4.  Revoking a key closes [lock], [validate] and [register] to it,
    but not [unlock] and [activity]: the editor of a revoked key can
    still release the lock they hold and still writes to the activity
    log. *)
Theorem revoked_key_can_still_unlock getTime now nowIso apiKey key
        projectName projectPath files action l st :
  api_keys (db st) !! apiKey = Some key ->
  project_locks (db st) !! projectName = Some l ->
  locked_by l = editor_name key ->
  let d := revokeKey apiKey (db st) in
  let st' := withDb st d in
  lock nowIso apiKey projectName d = (Unauthorized, d) /\
  validate getTime now nowIso apiKey st' = (RevokedKey, st') /\
  registerProject nowIso apiKey projectName projectPath files st'
  = (RegisterUnauthorized, st') /\
  unlock apiKey projectName d
  = (Success, mkDb (api_keys d) (delete projectName (project_locks d))) /\
  fst (logActivity nowIso apiKey action projectName st') = true.
Proof.
  intros Hk Hl Hh d st'.
  assert (Hk' : api_keys d !! apiKey
                = Some {| editor_name := editor_name key;
                          expires_at := expires_at key;
                          revoked := true |}).
  { unfold d, revokeKey. simpl. now rewrite lookup_alter_eq, Hk. }
  assert (Hl' : project_locks d !! projectName = Some l) by exact Hl.
  subst st'. clearbody d. unfold withDb.
  repeat split.
  - unfold lock. now rewrite Hk'.
  - unfold validate. cbn [db]. now rewrite Hk'.
  - unfold registerProject. cbn [db]. now rewrite Hk'.
  - unfold unlock. rewrite Hk', Hl'. cbn [locked_by editor_name].
    now rewrite Hh, String.eqb_refl.
  - unfold logActivity. cbn [db]. now rewrite Hk'.
Qed.

Lemma revoked_key_can_still_unlock_witness :
  let d := revokeKey "key-A" exampleDb in
  unlock "key-A" "Promo_Cut" d
  = (Success, mkDb (api_keys d) (delete "Promo_Cut" (project_locks d))).
Proof.
  apply (revoked_key_can_still_unlock numeralTime 0 "now" "key-A"
           {| editor_name := "A"; expires_at := "2027-01-01";
              revoked := false |}
           "Promo_Cut" "C:\p" None "unlock"
           {| locked_by := "A"; locked_at := "2026-10-01T10:00:00.000Z" |}
           (mkStore exampleDb ∅ ∅ [] ∅ []));
    reflexivity.
Defined.

(** X5.  [validate] answers "valid" exactly for a key that is known, not
    revoked and not past its expiry date; a key whose date cannot be
    read never expires, and a key is still valid at the very instant
    it expires.  A valid answer stamps [last_used] of that key and
    changes nothing else; any other answer changes nothing at all. *)
Theorem validate_characterised getTime now nowIso apiKey st :
  let r := fst (validate getTime now nowIso apiKey st) in
  let st' := snd (validate getTime now nowIso apiKey st) in
  ((exists e x, r = ValidKey e x) <->
   (exists key,
       api_keys (db st) !! apiKey = Some key /\
       revoked key = false /\
       (forall t, getTime (expires_at key) = Some t -> now <= t))) /\
  ((exists e x, r = ValidKey e x) ->
   st' = mkStore (db st) (<[apiKey := nowIso]> (last_used st)) (admin st)
                 (activity_log st) (projects st) (project_files st)) /\
  ((forall e x, r <> ValidKey e x) -> st' = st).
Proof.
  unfold validate, expired.
  destruct (api_keys (db st) !! apiKey) as [key|] eqn:Hk; simpl.
  - destruct (revoked key) eqn:Hr; simpl.
    + split; [|split; [intros (e & x & [=])|reflexivity]].
      split; [intros (e & x & [=])|].
      intros (key' & [= <-] & Hr' & _). congruence.
    + destruct (getTime (expires_at key)) as [t|] eqn:Ht.
      * destruct (Z.ltb_spec t now) as [Hlt|Hge]; simpl.
        -- split; [|split; [intros (e & x & [=])|reflexivity]].
           split; [intros (e & x & [=])|].
           intros (key' & [= <-] & _ & Hex). specialize (Hex t Ht). lia.
        -- split; [|split; [reflexivity|]].
           ++ split; [|eauto]. intros _. exists key.
              repeat split; auto. intros t' Ht'. congruence.
           ++ intros Hno. now elim (Hno (editor_name key) (expires_at key)).
      * simpl. split; [|split; [reflexivity|]].
        -- split; [|eauto]. intros _. exists key.
           repeat split; auto. intros t' Ht'. congruence.
        -- intros Hno. now elim (Hno (editor_name key) (expires_at key)).
  - split; [|split; [intros (e & x & [=])|reflexivity]].
    split; [intros (e & x & [=])|]. intros (key' & [=] & _).
Qed.

(** X6.  Extending a key adds the days to its stored expiry date, not to
    the present, and clears [revoked]: a revoked key is valid again
    after an extension that reaches the present, and an expired key
    stays expired after an extension that does not. *)
Theorem extend_reinstates_key getTime toISOString days apiKey key t iso
        now nowIso st :
  api_keys (db st) !! apiKey = Some key ->
  getTime (expires_at key) = Some t ->
  toISOString (t + days * msPerDay) = Some iso ->
  getTime iso = Some (t + days * msPerDay) ->
  let d := snd (extendKey getTime toISOString days apiKey (db st)) in
  fst (extendKey getTime toISOString days apiKey (db st)) = KeyExtended iso /\
  api_keys d !! apiKey
  = Some {| editor_name := editor_name key; expires_at := iso;
            revoked := false |} /\
  project_locks d = project_locks (db st) /\
  fst (validate getTime now nowIso apiKey (withDb st d))
  = if t + days * msPerDay <? now then ExpiredKey
    else ValidKey (editor_name key) iso.
Proof.
  intros Hk Ht Hiso Hback. unfold extendKey. rewrite Hk, Ht. simpl.
  rewrite Hiso. simpl. rewrite lookup_insert_eq.
  repeat split. unfold validate, expired. simpl.
  rewrite lookup_insert_eq. simpl. rewrite Hback.
  now destruct (_ <? _).
Qed.

Lemma extend_reinstates_key_witness :
  let st := mkStore (mkDb {[ "PSE-1" := {| editor_name := "A";
                                           expires_at := "1000";
                                           revoked := true |} ]} ∅)
                    ∅ ∅ [] ∅ [] in
  let d := snd (extendKey numeralTime numeralIso 30 "PSE-1" (db st)) in
  fst (validate numeralTime 2000 "2000" "PSE-1" (withDb st d))
  = ValidKey "A" "2592001000".
Proof.
  intros st d.
  apply (proj2 (proj2 (proj2
           (extend_reinstates_key numeralTime numeralIso 30 "PSE-1"
              {| editor_name := "A"; expires_at := "1000";
                 revoked := true |} 1000 "2592001000" 2000 "2000" st
              eq_refl eq_refl eq_refl eq_refl)))).
Defined.


Lemma validate_characterised_witness :
  exists e x,
    fst (validate numeralTime 5000 "5000" "PSE-1"
           (mkStore (mkDb {[ "PSE-1" := {| editor_name := "A";
                                           expires_at := "5000";
                                           revoked := false |} ]} ∅)
                    ∅ ∅ [] ∅ [])) = ValidKey e x.
Proof.
  apply (proj2 (proj1 (validate_characterised numeralTime 5000 "5000" "PSE-1"
                         (mkStore (mkDb {[ "PSE-1" := {| editor_name := "A";
                                                         expires_at := "5000";
                                                         revoked := false |} ]}
                                        ∅) ∅ ∅ [] ∅ [])))).
  eexists. split; [reflexivity|]. split; [reflexivity|].
  intros t [= <-]. reflexivity.
Defined.

(** X7.  A new key is valid from the moment it is made until the date
    it was given, which is the present plus the days asked for, and
    making it touches no other key and no lock.  A key that is
    already there is never replaced: the request fails and the
    database stays as it was. *)
Theorem created_key_is_valid getTime toISOString now key editorName
        expiresInDays iso later laterIso st :
  toISOString (now + expiresInDays * msPerDay) = Some iso ->
  getTime iso = Some (now + expiresInDays * msPerDay) ->
  let r := createKey toISOString now key editorName expiresInDays (db st) in
  (is_Some (api_keys (db st) !! key) -> r = (KeyConflict, db st)) /\
  (api_keys (db st) !! key = None ->
   fst r = KeyCreated key iso /\
   (forall other, other <> key ->
                  api_keys (snd r) !! other = api_keys (db st) !! other) /\
   project_locks (snd r) = project_locks (db st) /\
   fst (validate getTime later laterIso key (withDb st (snd r)))
   = if now + expiresInDays * msPerDay <? later then ExpiredKey
     else ValidKey editorName iso).
Proof.
  intros Hiso Htime r. subst r. unfold createKey. rewrite Hiso. split.
  - intros [old Hold]. now rewrite Hold.
  - intros Hnone. rewrite Hnone. cbn [fst snd].
    split; [reflexivity|]. split; [|split; [reflexivity|]].
    + intros other Hother. unfold setKey. cbn [api_keys].
      now rewrite lookup_insert_ne by congruence.
    + unfold validate, withDb, setKey, expired.
      cbn [db api_keys]. rewrite lookup_insert_eq.
      cbn [revoked expires_at editor_name]. rewrite Htime.
      now destruct (now + expiresInDays * msPerDay <? later).
Qed.

Lemma created_key_is_valid_witness :
  let st := mkStore exampleDb ∅ ∅ [] ∅ [] in
  fst (validate numeralTime 5000 "5000" "PSE-1A2B3C4D"
         (withDb st (snd (createKey numeralIso 1000 "PSE-1A2B3C4D" "C" 30
                            (db st)))))
  = ValidKey "C" "2592001000".
Proof.
  intros st.
  apply (proj2 (proj2 (proj2
           (proj2 (created_key_is_valid numeralTime numeralIso 1000
                     "PSE-1A2B3C4D" "C" 30 "2592001000" 5000 "5000" st
                     eq_refl eq_refl) eq_refl)))).
Defined.

(** *** Authentication *)

(** X8.  [requireAuth] cuts the decoded credentials at every colon and
    checks the piece after the first one.  With the right user name
    and password the JSON login succeeds, and the Basic header is let
    through exactly when the password holds no colon. *)
Theorem basic_auth_cuts_password_at_colon base64Decode compareSync
        b user password password_hash st :
  contains " " b = false ->
  base64Decode b = String.append user (String ":" password) ->
  contains ":" user = false ->
  admin st !! user = Some password_hash ->
  (forall p, compareSync p password_hash = true <-> p = password) ->
  login compareSync user password st = true /\
  (requireAuth base64Decode compareSync
               (Some (String.append "Basic " b)) (admin st) = Next
   <-> contains ":" password = false).
Proof.
  intros Hb Hdec Hu Ha Hcmp. split.
  - unfold login. rewrite Ha. now apply Hcmp.
  - unfold requireAuth.
    assert (Hpre : startsWith (String.append "Basic " b) "Basic " = true)
      by reflexivity.
    rewrite Hpre. cbn [negb].
    change (String.append "Basic " b)
      with (String.append "Basic" (String " " b)).
    rewrite (split_app " " "Basic" b eq_refl), (split_no_sep " " b Hb).
    cbn [nth]. rewrite Hdec, (split_app ":" user password Hu).
    cbn [nth]. rewrite Ha.
    destruct (split_cons ":" password) as (piece & pieces & Hs).
    pose proof (split_head ":" password) as Hhead.
    rewrite Hs in *. cbn [nth lookup list_lookup] in *.
    change ((user :: piece :: pieces) !! 1%nat) with (Some piece).
    destruct (compareSync piece password_hash) eqn:Hc.
    + apply Hcmp in Hc. split; [intros _|reflexivity]. now apply Hhead.
    + split; [discriminate|]. intros Hno. apply Hhead in Hno.
      apply Hcmp in Hno. congruence.
Qed.

Lemma basic_auth_cuts_password_at_colon_witness :
  login String.eqb "admin" "pa:ss"
        (mkStore (mkDb ∅ ∅) ∅ {[ "admin" := "pa:ss" ]} [] ∅ []) = true.
Proof.
  refine (proj1 (basic_auth_cuts_password_at_colon
                   (fun b => b) String.eqb "admin:pa:ss" "admin" "pa:ss" "pa:ss"
                   (mkStore (mkDb ∅ ∅) ∅ {[ "admin" := "pa:ss" ]} [] ∅ [])
                   eq_refl eq_refl eq_refl _
                   (fun p => String.eqb_eq p "pa:ss"))).
  vm_compute. reflexivity.
Defined.

(** The same credentials in a Basic header are refused. *)
Example colon_password_is_refused :
  requireAuth (fun b => b) String.eqb (Some "Basic admin:pa:ss")
              {[ "admin" := "pa:ss" ]} = InvalidCredentials.
Proof. reflexivity. Qed.

(** X9.  A route behind [requireAuth] leaves the database alone unless the
    credentials pass; and after a password change the new password
    logs in and every other one is refused, for the row of user
    [admin] only. *)
Theorem password_change_round_trip base64Decode hashSync compareSync
        newPassword st :
  (forall p q, compareSync p (hashSync q) = String.eqb p q) ->
  let st' := changePassword hashSync newPassword st in
  (forall other, other <> "admin" -> admin st' !! other = admin st !! other) /\
  (forall p, login compareSync "admin" p st'
             = match admin st !! "admin" with
               | Some _ => String.eqb p newPassword
               | None => false
               end) /\
  (forall authorization,
      requireAuth base64Decode compareSync authorization (admin st) <> Next ->
      guarded base64Decode compareSync authorization
              (fun s => (tt, changePassword hashSync newPassword s)) st
      = (requireAuth base64Decode compareSync authorization (admin st),
         None, st)).
Proof.
  intros Hcmp st'. subst st'. unfold changePassword, login. cbn [admin].
  split; [|split].
  - intros other Hne. now rewrite lookup_alter_ne.
  - intros p. rewrite lookup_alter_eq.
    destruct (admin st !! "admin"); simpl; [apply Hcmp|reflexivity].
  - intros authorization Hno. unfold guarded.
    destruct (requireAuth _ _ _ _); congruence.
Qed.

Lemma password_change_round_trip_witness :
  login String.eqb "admin" "s3cret"
        (changePassword (fun p => p) "s3cret"
           (mkStore (mkDb ∅ ∅) ∅ {[ "admin" := "admin123" ]} [] ∅ []))
  = true.
Proof.
  exact (proj1 (proj2 (password_change_round_trip
                         (fun b => b) (fun p => p) String.eqb "s3cret"
                         (mkStore (mkDb ∅ ∅) ∅ {[ "admin" := "admin123" ]}
                                  [] ∅ [])
                         (fun p q => eq_refl))) "s3cret").
Defined.

(** *** The project registry *)

Lemma omap_cons_eq {A B} (f : A -> option B) x l :
  omap f (x :: l) = match f x with
                    | Some y => y :: omap f l
                    | None => omap f l
                    end.
Proof. reflexivity. Qed.

Lemma foldl_insertFile nowIso editorName projectName sent :
  forall rows,
    foldl (insertFile nowIso editorName projectName) rows sent
    = rows ++ omap (rowOf nowIso editorName projectName) sent.
Proof.
  induction sent as [|file sent IH]; intros rows.
  - simpl. now rewrite app_nil_r.
  - cbn [foldl]. rewrite IH, omap_cons_eq. unfold insertFile, rowOf.
    destruct (f_name file); [now rewrite <- app_assoc|reflexivity].
Qed.

Lemma rowOf_project nowIso editorName projectName file row :
  rowOf nowIso editorName projectName file = Some row ->
  fr_project_name row = projectName.
Proof.
  unfold rowOf. destruct (f_name file); [|discriminate].
  now intros [= <-].
Qed.

Lemma filter_rows_same nowIso editorName projectName
      (sent : list FileReq) :
  filter (fun row => fr_project_name row = projectName)
         (omap (rowOf nowIso editorName projectName) sent)
  = omap (rowOf nowIso editorName projectName) sent.
Proof.
  induction sent as [|file sent IH]; [reflexivity|].
  rewrite omap_cons_eq.
  destruct (rowOf nowIso editorName projectName file) as [row|] eqn:Hrow;
    [|exact IH].
  rewrite filter_cons_True by now apply rowOf_project in Hrow.
  now rewrite IH.
Qed.

Lemma filter_rows_other nowIso editorName projectName other
      (sent : list FileReq) :
  other <> projectName ->
  filter (fun row => fr_project_name row = other)
         (omap (rowOf nowIso editorName projectName) sent) = [].
Proof.
  intros Hne. induction sent as [|file sent IH]; [reflexivity|].
  rewrite omap_cons_eq.
  destruct (rowOf nowIso editorName projectName file) as [row|] eqn:Hrow;
    [|exact IH].
  apply rowOf_project in Hrow.
  rewrite filter_cons_False; [exact IH|]. congruence.
Qed.

(** X10.  Registering a project with a key that is known and not revoked
    keeps the first upload time of a project that exists, stamps the
    caller and the time of the update, and appends one row per named
    file to the rows the project already has: rows are never replaced,
    so registering the same files again doubles them.  [filesAdded]
    is the number of files sent, also when files without a name were
    left out.  Projects of other names, keys and locks are untouched. *)
Theorem register_appends_files nowIso apiKey key projectName projectPath
        files st :
  api_keys (db st) !! apiKey = Some key ->
  revoked key = false ->
  let sent := match files with Some l => l | None => [] end in
  let r := registerProject nowIso apiKey projectName projectPath files st in
  fst r = Registered projectName (length sent) /\
  projects (snd r) !! projectName
  = Some {| p_path := projectPath;
            p_uploaded_by := editor_name key;
            p_uploaded_at := match projects st !! projectName with
                             | Some existing => p_uploaded_at existing
                             | None => nowIso
                             end;
            p_updated_at := nowIso |} /\
  (forall other, other <> projectName ->
                 projects (snd r) !! other = projects st !! other /\
                 filesOf other (snd r) = filesOf other st) /\
  filesOf projectName (snd r)
  = filesOf projectName st
    ++ omap (rowOf nowIso (editor_name key) projectName) sent /\
  db (snd r) = db st.
Proof.
  intros Hk Hr sent r. subst r. unfold registerProject.
  rewrite Hk, Hr. cbn [fst snd projects project_files db].
  fold sent. rewrite foldl_insertFile.
  split; [reflexivity|]. split.
  { rewrite lookup_insert_eq. now destruct (projects st !! projectName). }
  split; [|split; [|reflexivity]].
  - intros other Hne. split; [now rewrite lookup_insert_ne|].
    unfold filesOf. cbn [project_files].
    now rewrite filter_app, filter_rows_other, app_nil_r.
  - unfold filesOf. cbn [project_files].
    now rewrite filter_app, filter_rows_same.
Qed.

Lemma register_appends_files_witness :
  let st := mkStore exampleDb ∅ ∅ [] ∅ [] in
  let files :=
    Some [ {| f_name := Some "clip.mov"; f_path := None; f_size := Some 6;
              f_type := None; f_extension := Some ".mov" |};
           {| f_name := None; f_path := None; f_size := None;
              f_type := None; f_extension := None |} ] in
  let once := snd (registerProject "t1" "key-A" "Promo" "C:\p" files st) in
  let r := registerProject "t2" "key-B" "Promo" "C:\p" files once in
  fst r = Registered "Promo" 2 /\
  length (filesOf "Promo" (snd r)) = 2%nat /\
  (p_uploaded_at <$> projects (snd r) !! "Promo") = Some "t1".
Proof.
  intros st files once r.
  destruct (register_appends_files "t2" "key-B"
              {| editor_name := "B"; expires_at := "2027-01-01";
                 revoked := false |} "Promo" "C:\p" files once
              eq_refl eq_refl) as (H1 & H2 & _ & H4 & _).
  split; [exact H1|]. split.
  - fold r in H4. rewrite H4. reflexivity.
  - fold r in H2. rewrite H2. reflexivity.
Defined.

End ServerProofs.

(** * More properties of the transfer primitive *)

Module UploadExtraProofs.
Import Retry Net UploadXhr UploadSpec Js UploadExtra.
Local Open Scope js_scope.

(** *** The [Retry-After] header and the wait *)

Lemma parseInt_letter c rest :
  isWhiteSpace c = false -> isDigit c = false ->
  c <> "-"%char -> c <> "+"%char ->
  parseInt (String c rest) = None.
Proof.
  intros Hw Hd Hm Hp. unfold parseInt. cbn [skipWhiteSpace]. rewrite Hw.
  destruct (Ascii.eqb_spec c "-") as [->|_]; [congruence|].
  destruct (Ascii.eqb_spec c "+") as [->|_]; [congruence|].
  destruct c as [[] [] [] [] [] [] [] []];
    try (exfalso; congruence); cbn [startsWithDigit]; now rewrite Hd.
Qed.

(** X11.  The wait after a failure is the server's [Retry-After], taken as
    whole seconds and without any upper bound, when the header starts
    (after white space) with a positive decimal number; a header that
    is absent, empty, zero, negative or not a number (an HTTP date,
    for one) is ignored and the wait is the backoff plus jitter. *)
Theorem retry_after_header_decides_wait retryAfter attempt rnd :
  let explicit := getRetryAfterMsOfHeader retryAfter in
  (forall seconds,
      headerSeconds retryAfter = Some seconds -> 0 < seconds ->
      buildRetryDelayMs attempt explicit rnd = seconds * 1000) /\
  (headerSeconds retryAfter = None \/
   (exists seconds, headerSeconds retryAfter = Some seconds /\ seconds <= 0)
   -> buildRetryDelayMs attempt explicit rnd
      = backoffBase attempt + jitterOf rnd) /\
  (forall c rest,
      retryAfter = Some (String c rest) ->
      isWhiteSpace c = false -> isDigit c = false ->
      c <> "-"%char -> c <> "+"%char ->
      headerSeconds retryAfter = None).
Proof.
  unfold getRetryAfterMsOfHeader, getRetryAfterMs, buildRetryDelayMs.
  split; [|split].
  - intros s -> Hpos.
    destruct (Z.leb_spec 0 s); [|lia].
    destruct (Z.ltb_spec 0 (s * 1000)); [reflexivity|lia].
  - intros [->|(s & -> & Hle)]; [reflexivity|].
    destruct (Z.leb_spec 0 s); [|reflexivity].
    destruct (Z.ltb_spec 0 (s * 1000)); [lia|reflexivity].
  - intros c rest -> Hw Hd Hm Hp. unfold headerSeconds.
    cbn [truthy String.eqb negb]. now apply parseInt_letter.
Qed.

Lemma retry_after_header_decides_wait_witness :
  headerSeconds (Some "Wed, 21 Oct 2026 07:28:00 GMT") = None /\
  buildRetryDelayMs 2 (getRetryAfterMsOfHeader (Some " 86400")) (1 # 2)
  = 86400000 /\
  buildRetryDelayMs 2 (getRetryAfterMsOfHeader (Some "0")) (1 # 2) = 2250.
Proof.
  pose proof (retry_after_header_decides_wait
                (Some "Wed, 21 Oct 2026 07:28:00 GMT") 1 0) as (_ & _ & H3).
  pose proof (retry_after_header_decides_wait (Some " 86400") 2 (1 # 2))
    as (H1 & _ & _).
  pose proof (retry_after_header_decides_wait (Some "0") 2 (1 # 2))
    as (_ & H2 & _).
  split; [|split].
  - apply (H3 "W"%char "ed, 21 Oct 2026 07:28:00 GMT"); try reflexivity;
      discriminate.
  - apply (H1 86400); [reflexivity|lia].
  - rewrite H2; [reflexivity|]. right. exists 0. split; [reflexivity|lia].
Defined.

(** *** The timeout of a request *)

(** X12.  The timeout of an upload grows with the size, one second for
    every 512 KiB begun, between ten minutes, which is what every
    payload up to 300 MiB gets, and two hours, which is reached just
    above 3.5 GiB. *)
Theorem dynamic_timeout_bounds byteLength byteLength' :
  600000 <= getDynamicTimeoutMs byteLength <= 7200000 /\
  (byteLength <= byteLength' ->
   getDynamicTimeoutMs byteLength <= getDynamicTimeoutMs byteLength') /\
  (getDynamicTimeoutMs byteLength = 600000 <-> byteLength <= 314572800) /\
  (getDynamicTimeoutMs byteLength = 7200000 <-> 3774349312 < byteLength) /\
  (314572800 < byteLength <= 3774349312 ->
   getDynamicTimeoutMs byteLength = (byteLength + 524287) / 524288 * 1000).
Proof.
  unfold getDynamicTimeoutMs. cbv zeta.
  change (10 * 60 * 1000) with 600000.
  change (2 * 60 * 60 * 1000) with 7200000.
  pose proof (Z.div_mod (byteLength + 524287) 524288 ltac:(lia)) as Hd.
  pose proof (Z.mod_pos_bound (byteLength + 524287) 524288 ltac:(lia)) as Hm.
  pose proof (Z.div_mod (byteLength' + 524287) 524288 ltac:(lia)) as Hd'.
  pose proof (Z.mod_pos_bound (byteLength' + 524287) 524288 ltac:(lia))
    as Hm'.
  repeat split; try lia.
Qed.


Lemma dynamic_timeout_bounds_witness :
  getDynamicTimeoutMs 1073741824 = 2048000.
Proof.
  apply (proj2 (proj2 (proj2 (proj2
           (dynamic_timeout_bounds 1073741824 1073741824))))).
  lia.
Defined.

(** *** The sleep budget of a retry loop *)

Lemma timeout_random : randomInUnit timeoutEnv.
Proof. intros n. split; vm_compute; [discriminate|reflexivity]. Qed.

Lemma backoff_without_delay attempt explicit rnd :
  usesExplicitDelay explicit = false ->
  buildRetryDelayMs attempt explicit rnd = backoffBase attempt + jitterOf rnd.
Proof.
  unfold usesExplicitDelay, buildRetryDelayMs.
  destruct explicit as [ms|]; [|reflexivity]. now intros ->.
Qed.

Lemma request_is_no_sleep request (ev : XhrEvent) l :
  responseOf (request ev) = Some ev ->
  sleepTotal (request ev :: l) = sleepTotal l.
Proof. simpl. now destruct (request ev). Qed.

Lemma retryTrace_budget {A} env request
      (listeners : XhrEvent -> UploadError + A) attempt evs out :
  randomInUnit env ->
  listenerFaithful listeners ->
  (forall ev, responseOf (request ev) = Some ev) ->
  RetryTrace env request listeners attempt evs out ->
  1 <= attempt ->
  Forall noServerDelay evs ->
  0 <= sleepTotal evs /\
  (attempt <= 4 -> sleepTotal evs <= backoffBudget attempt).
Proof.
  intros Hrnd Hfaith Hreq Htr.
  induction Htr as [a Ha|a ev r Ha Hl|a ev e Ha Hl Hstop
                    |a ev e n rest out Ha Hl Hret Htr IH];
    intros H1 Hall; rewrite ?UploadProofs.max_retries_val in *.
  - simpl. split; [lia|]. intros. unfold backoffBudget.
    assert (a = 1 \/ a = 2 \/ a = 3 \/ a = 4) as [-> | [-> | [-> | ->]]] by lia;
      vm_compute; discriminate.
  - rewrite request_is_no_sleep by apply Hreq. simpl. split; [lia|].
    intros. unfold backoffBudget.
    assert (a = 1 \/ a = 2 \/ a = 3 \/ a = 4) as [-> | [-> | [-> | ->]]] by lia;
      vm_compute; discriminate.
  - rewrite request_is_no_sleep by apply Hreq. simpl. split; [lia|].
    intros. unfold backoffBudget.
    assert (a = 1 \/ a = 2 \/ a = 3 \/ a = 4) as [-> | [-> | [-> | ->]]] by lia;
      vm_compute; discriminate.
  - rewrite request_is_no_sleep by apply Hreq.
    apply Forall_cons in Hall as [Hev Hall].
    apply Forall_cons in Hall as [_ Hall].
    destruct (IH ltac:(lia) Hall) as [IH0 IH1].
    specialize (IH1 ltac:(lia)).
    destruct (Hfaith ev e Hl) as [_ Hdelay]. specialize (Hdelay Hret).
    rewrite (Hev ev (Hreq ev)) in Hdelay.
    cbn [sleepTotal foldr]. fold (sleepTotal rest).
    rewrite (backoff_without_delay _ _ _ Hdelay).
    destruct (Hrnd n) as [Hr0 Hr1].
    pose proof (UploadProofs.jitter_range _ Hr0 Hr1) as Hj.
    unfold backoffBudget in *. unfold backoffBase.
    remember (jitterOf (mathRandom env n)) as j eqn:Ej.
    remember (sleepTotal rest) as total eqn:Et.
    clear - IH0 IH1 Hj Ha H1.
    assert (a = 1 \/ a = 2 \/ a = 3) as [-> | [-> | ->]] by lia;
      cbn in IH1 |- *; lia.
Qed.

(** X13.  When the server names no delay, one retry loop sleeps at most
    1 + 2 + 4 seconds plus three jitters, that is less than 8.5
    seconds in all, however its four attempts end. *)
Theorem retry_loop_sleep_budget {A} env request
        (listeners : XhrEvent -> UploadError + A) w out w' :
  randomInUnit env ->
  listenerFaithful listeners ->
  (forall ev, responseOf (request ev) = Some ev) ->
  retryLoop env retryFuel 1 (sendXhr env request listeners) w = (out, w') ->
  exists evs,
    log w' = log w ++ evs /\
    (Forall noServerDelay evs -> 0 <= sleepTotal evs <= 8497).
Proof.
  intros Hrnd Hfaith Hreq Hrun.
  destruct UploadProofs.retryFuel_ok as [Hf1 Hf2].
  destruct (UploadProofs.retryLoop_trace env request listeners
              retryFuel 1 w out w' Hf1 Hf2 Hrun) as (evs & Hlog & Htr).
  exists evs. split; [exact Hlog|]. intros Hall.
  destruct (retryTrace_budget env request listeners 1 evs out
              Hrnd Hfaith Hreq Htr ltac:(lia) Hall) as [H0 H1].
  specialize (H1 ltac:(lia)). vm_compute backoffBudget in H1. lia.
Qed.

Lemma retry_loop_sleep_budget_witness :
  exists evs,
    log (snd (retryLoop timeoutEnv retryFuel 1
                (putResumableChunk timeoutEnv "https://upload/session"
                                   0 8388607 20971520) world0))
    = log world0 ++ evs /\
    (Forall noServerDelay evs -> 0 <= sleepTotal evs <= 8497).
Proof.
  apply (retry_loop_sleep_budget timeoutEnv (EvPutChunk 0 8388607 20971520)
           chunkListeners world0
           (fst (retryLoop timeoutEnv retryFuel 1
                   (putResumableChunk timeoutEnv "https://upload/session"
                                      0 8388607 20971520) world0))).
  - exact timeout_random.
  - exact UploadProofs.chunkListeners_faithful.
  - reflexivity.
  - now destruct (retryLoop _ _ _ _ _).
Defined.

(** *** A file that is shorter than declared *)

Lemma retryLoop_first_ok {A} env request
      (listeners : XhrEvent -> UploadError + A) w r :
  listeners (xhrEvent env (xhrSent w)) = inr r ->
  retryLoop env retryFuel 1 (sendXhr env request listeners) w
  = (Returned (Some r),
     mkWorld (S (xhrSent w)) (sessionsStarted w) (randomsDrawn w)
             (log w ++ [request (xhrEvent env (xhrSent w))])).
Proof.
  intros Hl. change retryFuel with 4%nat. cbn [retryLoop].
  change (1 <=? DRIVE_MAX_RETRIES) with true. cbv iota.
  unfold tryCatch, bind, sendXhr, ret. now rewrite Hl.
Qed.

Lemma chunkLoop_incomplete env url fid L S :
  alwaysIncomplete env ->
  L < S ->
  forall fuel c w,
    0 <= c <= L ->
    (L - c + DRIVE_CHUNK_SIZE - 1) / DRIVE_CHUNK_SIZE + 1 <= Z.of_nat fuel ->
    exists evs w',
      chunkLoop env fuel url fid L S c w
      = (Returned {| id := fid; skipped := false; reason := None |}, w') /\
      log w' = log w ++ evs /\
      tiles c (acceptedChunks evs) L /\
      Forall answeredIncomplete evs.
Proof.
  intros Hinc HLS. rewrite UploadProofs.chunk_size_val.
  induction fuel as [|fuel IH]; intros c w Hc Hfuel.
  - exfalso. revert Hfuel. Z.div_mod_to_equations. lia.
  - cbn [chunkLoop]. rewrite UploadProofs.chunk_size_val.
    destruct (Z.ltb_spec c S) as [_|]; [|lia].
    unfold readSync.
    destruct (Z.leb_spec (Z.max 0 (Z.min (Z.min 8388608 (S - c)) (L - c))) 0)
      as [Hz|Hpos].
    + assert (c = L) as -> by lia.
      exists [], w. unfold ret. rewrite app_nil_r. simpl. auto.
    + set (br := Z.max 0 (Z.min (Z.min 8388608 (S - c)) (L - c))) in *.
      destruct (Hinc (xhrSent w)) as (ra & body & Hev).
      unfold bind, putResumableChunk.
      rewrite (retryLoop_first_ok env _ chunkListeners w
                 {| done := false; chunk_id := parsedId body |})
        by now rewrite Hev.
      cbn [done].
      destruct (IH (c + br)
                   (mkWorld (Datatypes.S (xhrSent w)) (sessionsStarted w)
                      (randomsDrawn w)
                      (log w ++ [EvPutChunk c (c + br - 1) S
                                   (xhrEvent env (xhrSent w))])))
        as (evs & w' & Hrun & Hlog & Htiles & Hall).
      { lia. }
      { revert Hfuel. subst br. Z.div_mod_to_equations. lia. }
      exists (EvPutChunk c (c + br - 1) S (xhrEvent env (xhrSent w)) :: evs),
        w'.
      split; [exact Hrun|]. split.
      { rewrite Hlog. cbn [log]. now rewrite <- app_assoc. }
      split.
      { rewrite Hev. cbn [acceptedChunks omap list_omap acceptedChunk].
        change (accepted (XhrLoad 308 ra body)) with true. cbv iota.
        cbn [tiles fst snd]. repeat split; [lia|].
        replace (c + br - 1 + 1) with (c + br) by lia. exact Htiles. }
      constructor; [|exact Hall]. rewrite Hev. red. eauto 10.
Qed.

(** X14.  When the file on disk is shorter than the size the caller
    declared, and the server answers 308 to every chunk as the
    protocol asks for an incomplete upload, [uploadResumableFromFile]
    sends the bytes there are and returns normally, as for a finished
    upload, with the id it was given: only the [L] bytes of the file
    were sent, of the [S] announced, and no request was answered with
    a 2xx. *)
Theorem short_file_is_reported_uploaded env fileName filePath mimeType
        fileId sessionUrl L S w :
  requireDefined env = true ->
  truthy filePath = true ->
  localFile env = Some L ->
  0 <= L < S ->
  sessionResponse env (sessionsStarted w) = FetchOk (Some sessionUrl) ->
  truthy sessionUrl = true ->
  alwaysIncomplete env ->
  exists evs w',
    uploadResumableFromFile env fileName (PathInput filePath (Some S))
                            mimeType fileId w
    = (Returned {| id := fileId; skipped := false; reason := None |}, w') /\
    log w'
    = log w ++ EvSessionStart fileId
                 (orElse mimeType "application/octet-stream") S :: evs /\
    tiles 0 (acceptedChunks evs) L /\
    sumBytes (acceptedChunks evs) = L /\
    Forall answeredIncomplete evs.
Proof.
  intros Hreq Hp Hfile HL Hsess Hurl Hinc.
  unfold uploadResumableFromFile. rewrite Hreq. cbn [negb].
  unfold getFileInputSize. rewrite Hp.
  unfold bind, createResumableSession. rewrite Hsess, Hurl, Hfile.
  destruct (chunkLoop_incomplete env sessionUrl fileId L S Hinc
              ltac:(lia) (chunkFuel S) 0
              (mkWorld (xhrSent w) (Datatypes.S (sessionsStarted w))
                 (randomsDrawn w)
                 (log w ++ [EvSessionStart fileId
                              (orElse mimeType "application/octet-stream")
                              S])))
    as (evs & w' & Hrun & Hlog & Htiles & Hall).
  { lia. }
  { unfold chunkFuel. rewrite UploadProofs.chunk_size_val.
    rewrite Nat2Z.inj_add, Z2Nat.id by (Z.div_mod_to_equations; lia).
    Z.div_mod_to_equations. lia. }
  exists evs, w'. split; [exact Hrun|]. split.
  { rewrite Hlog. cbn [log]. now rewrite <- app_assoc. }
  split; [exact Htiles|]. split; [|exact Hall].
  rewrite (UploadProofs.tiles_sum _ _ _ Htiles). lia.
Qed.

Lemma short_file_is_reported_uploaded_witness :
  exists evs w',
    uploadResumableFromFile truncatedEnv "clip.mov"
      (PathInput "C:\proj\clip.mov" (Some 20971520)) "video/quicktime"
      "file-1" world0
    = (Returned {| id := "file-1"; skipped := false; reason := None |}, w') /\
    log w'
    = log world0 ++ EvSessionStart "file-1"
        (orElse "video/quicktime" "application/octet-stream") 20971520
        :: evs /\
    tiles 0 (acceptedChunks evs) 10485765 /\
    sumBytes (acceptedChunks evs) = 10485765 /\
    Forall answeredIncomplete evs.
Proof.
  apply (short_file_is_reported_uploaded truncatedEnv "clip.mov"
           "C:\proj\clip.mov" "video/quicktime" "file-1"
           "https://upload/session" 10485765 20971520 world0);
    try reflexivity.
  - lia.
  - intros n. exists None, None. reflexivity.
Defined.


(** *** Which file the content goes to *)

Lemma post_transfer_addressed env fileName fileInput mimeType fileId
      actualFileSize :
  post (if shouldUseResumable env fileInput actualFileSize
        then
          let* attempted :=
            retryLoop env retryFuel 1
              (uploadResumableFromFile env fileName fileInput mimeType
                                       fileId) in
          match attempted with
          | Some r => ret r
          | None => simplePath env fileName fileInput mimeType fileId
          end
        else simplePath env fileName fileInput mimeType fileId)
       (addressedTo fileId) (fun _ => True).
Proof.
  assert (Hsimple :
    post (simplePath env fileName fileInput mimeType fileId)
         (addressedTo fileId) (fun _ => True)).
  { unfold simplePath.
    eapply UploadProofs.post_bind;
      [apply UploadProofs.post_normalizeContent|]. intros n _.
    eapply UploadProofs.post_bind.
    - apply UploadProofs.post_retryLoop with (R := fun _ => True);
        [now intros|].
      unfold simpleUploadAttempt.
      apply UploadProofs.post_sendXhr; [now intros|auto].
    - intros [r|] _;
        [now apply UploadProofs.post_ret|apply UploadProofs.post_throw]. }
  destruct (shouldUseResumable env fileInput actualFileSize);
    [|exact Hsimple].
  eapply UploadProofs.post_bind.
  - apply UploadProofs.post_retryLoop with (R := fun _ => True);
      [now intros|].
    eapply UploadProofs.post_weaken.
    + apply (UploadProofs.post_uploadResumableFromFile env fileName
               fileInput mimeType fileId (addressedTo fileId));
        now intros.
    + auto.
    + auto.
  - intros [r|] _; [now apply UploadProofs.post_ret|exact Hsimple].
Qed.

Lemma md5Matches_needs_id existingFile localMd5 :
  existingIdOf existingFile = None -> md5Matches existingFile localMd5 = false.
Proof.
  unfold existingIdOf, md5Matches. destruct existingFile as [f|]; [|easy].
  destruct (truthy (df_id f)); [discriminate|]. now destruct localMd5.
Qed.

Lemma upload_after_lookup env fileName fileInput mimeType folderId
      actualFileSize token files w :
  validToken env = Some token ->
  truthy token = true ->
  searchResponse env = FetchOk files ->
  uploadFileWithProgress env fileName fileInput mimeType folderId
                         actualFileSize w
  = let w1 := mkWorld (xhrSent w) (sessionsStarted w) (randomsDrawn w)
                      (log w ++ [EvSearch fileName folderId]) in
    if md5Matches (head files) (computeLocalMd5 env fileInput)
    then (Returned {| id := match existingIdOf (head files) with
                            | Some i => i
                            | None => ""
                            end;
                      skipped := true;
                      reason := Some "Unchanged (MD5 match)" |}, w1)
    else transferBody env fileName fileInput mimeType folderId
                      actualFileSize (existingIdOf (head files)) w1.
Proof.
  intros Htok Htruthy Hsearch.
  unfold uploadFileWithProgress. rewrite Htok, Htruthy. cbn [negb].
  unfold findExistingDriveFile, bind, emit. rewrite Hsearch.
  unfold ret. cbv zeta. now destruct (md5Matches _ _).
Qed.

Lemma transferBody_existing env fileName fileInput mimeType folderId
      actualFileSize existingId w :
  transferBody env fileName fileInput mimeType folderId actualFileSize
               (Some existingId) w
  = (if shouldUseResumable env fileInput actualFileSize
     then
       let* attempted :=
         retryLoop env retryFuel 1
           (uploadResumableFromFile env fileName fileInput mimeType
                                    existingId) in
       match attempted with
       | Some r => ret r
       | None => simplePath env fileName fileInput mimeType existingId
       end
     else simplePath env fileName fileInput mimeType existingId) w.
Proof. reflexivity. Qed.

Lemma transferBody_new env fileName fileInput mimeType folderId
      actualFileSize w :
  transferBody env fileName fileInput mimeType folderId actualFileSize
               None w
  = let w1 := mkWorld (xhrSent w) (sessionsStarted w) (randomsDrawn w)
                      (log w ++ [EvCreateMetadata fileName folderId]) in
    match createResponse env with
    | FetchOk newId =>
        (if shouldUseResumable env fileInput actualFileSize
         then
           let* attempted :=
             retryLoop env retryFuel 1
               (uploadResumableFromFile env fileName fileInput mimeType
                                        newId) in
           match attempted with
           | Some r => ret r
           | None => simplePath env fileName fileInput mimeType newId
           end
         else simplePath env fileName fileInput mimeType newId) w1
    | r => (Thrown (fetchError "Failed to create file metadata" r), w1)
    end.
Proof.
  unfold transferBody, ensureDriveFileMetadata.
  unfold bind at 1. unfold bind at 1. unfold emit. cbv zeta.
  now destruct (createResponse env).
Qed.

(** X15.  An upload that gets an answer to its lookup sends content to one
    file only.  When the folder already holds a file of that name,
    every session and every [PATCH] is addressed to that file and no
    metadata is created, so that an update never makes a second file;
    when it holds none, exactly one metadata request follows the
    lookup, and the content goes to the id it returns, or nothing
    more is sent when it fails. *)
Theorem upload_addresses_one_file env fileName fileInput mimeType folderId
        actualFileSize token files w out w' :
  validToken env = Some token ->
  truthy token = true ->
  searchResponse env = FetchOk files ->
  uploadFileWithProgress env fileName fileInput mimeType folderId
                         actualFileSize w = (out, w') ->
  exists evs,
    log w' = log w ++ EvSearch fileName folderId :: evs /\
    (forall existingId,
        existingIdOf (head files) = Some existingId ->
        Forall (addressedTo existingId) evs) /\
    (existingIdOf (head files) = None ->
     exists rest,
       evs = EvCreateMetadata fileName folderId :: rest /\
       match createResponse env with
       | FetchOk newId => Forall (addressedTo newId) rest
       | _ => rest = []
       end).
Proof.
  intros Htok Htruthy Hsearch Hrun.
  rewrite (upload_after_lookup _ _ _ _ _ _ _ _ _ Htok Htruthy Hsearch)
    in Hrun.
  cbv zeta in Hrun.
  destruct (existingIdOf (head files)) as [i|] eqn:Hid.
  - destruct (md5Matches (head files) (computeLocalMd5 env fileInput)).
    + injection Hrun as <- <-. exists []. cbn [log].
      split; [reflexivity|]. split; [constructor|discriminate].
    + rewrite transferBody_existing in Hrun.
      destruct (post_transfer_addressed env fileName fileInput mimeType i
                  actualFileSize _ _ _ Hrun) as [(evs & Hlog & Hall) _].
      exists evs. cbn [log] in Hlog. rewrite Hlog, <- app_assoc.
      split; [reflexivity|]. split; [|discriminate].
      now intros ? [= <-].
  - rewrite (md5Matches_needs_id _ _ Hid), transferBody_new in Hrun.
    cbv zeta in Hrun.
    destruct (createResponse env) as [newId|st ra|] eqn:Hcreate.
    + destruct (post_transfer_addressed env fileName fileInput mimeType
                  newId actualFileSize _ _ _ Hrun)
        as [(evs & Hlog & Hall) _].
      exists (EvCreateMetadata fileName folderId :: evs).
      cbn [log] in Hlog. rewrite Hlog, <- !app_assoc.
      split; [reflexivity|]. split; [discriminate|].
      intros _. now exists evs.
    + injection Hrun as <- <-.
      exists [EvCreateMetadata fileName folderId]. cbn [log].
      rewrite <- app_assoc.
      split; [reflexivity|]. split; [discriminate|]. intros _. now exists [].
    + injection Hrun as <- <-.
      exists [EvCreateMetadata fileName folderId]. cbn [log].
      rewrite <- app_assoc.
      split; [reflexivity|]. split; [discriminate|]. intros _. now exists [].
Qed.

Lemma upload_addresses_one_file_witness :
  exists evs,
    log (snd (uploadFileWithProgress changedEnv "notes.txt" (Content 1)
                "text/plain" "folder-1" None world0))
    = log world0 ++ EvSearch "notes.txt" "folder-1" :: evs /\
    Forall (addressedTo "file-3") evs.
Proof.
  destruct (upload_addresses_one_file changedEnv "notes.txt" (Content 1)
              "text/plain" "folder-1" None "ya29.token"
              [{| df_id := "file-3";
                  df_md5Checksum := Some "5d41402abc4b2a76b9719d911017c592" |}]
              world0
              (fst (uploadFileWithProgress changedEnv "notes.txt" (Content 1)
                      "text/plain" "folder-1" None world0))
              (snd (uploadFileWithProgress changedEnv "notes.txt" (Content 1)
                      "text/plain" "folder-1" None world0))
              eq_refl eq_refl eq_refl)
    as (evs & Hlog & Hsome & _).
  - now destruct (uploadFileWithProgress _ _ _ _ _ _ _).
  - exists evs. split; [exact Hlog|]. now apply Hsome.
Defined.

(** *** What is not retried *)

(** X16.  The steps before the transfer are tried once.  Without a token
    nothing is sent; a lookup the server refuses, or a metadata
    request it refuses, ends the call with that error after that one
    request and before any content is sent, also when the error is
    marked retriable (a 503, say). *)
Theorem lookup_and_create_are_tried_once env fileName fileInput mimeType
        folderId actualFileSize w :
  ((validToken env = None \/ validToken env = Some "") ->
   uploadFileWithProgress env fileName fileInput mimeType folderId
                          actualFileSize w
   = (Thrown (plainError "Not authenticated"), w)) /\
  (forall token st ra,
      validToken env = Some token -> truthy token = true ->
      searchResponse env = FetchNotOk st ra ->
      uploadFileWithProgress env fileName fileInput mimeType folderId
                             actualFileSize w
      = (Thrown (createUploadError "Failed to search existing file"
                   (Some st) (shouldRetryStatus st) (getRetryAfterMs ra)),
         mkWorld (xhrSent w) (sessionsStarted w) (randomsDrawn w)
                 (log w ++ [EvSearch fileName folderId]))) /\
  (forall token files st ra,
      validToken env = Some token -> truthy token = true ->
      searchResponse env = FetchOk files ->
      existingIdOf (head files) = None ->
      createResponse env = FetchNotOk st ra ->
      uploadFileWithProgress env fileName fileInput mimeType folderId
                             actualFileSize w
      = (Thrown (createUploadError "Failed to create file metadata"
                   (Some st) (shouldRetryStatus st) (getRetryAfterMs ra)),
         mkWorld (xhrSent w) (sessionsStarted w) (randomsDrawn w)
                 (log w ++ [EvSearch fileName folderId;
                            EvCreateMetadata fileName folderId]))).
Proof.
  split; [|split].
  - intros [H|H]; unfold uploadFileWithProgress; now rewrite H.
  - intros token st ra Htok Htruthy Hsearch.
    unfold uploadFileWithProgress. rewrite Htok, Htruthy. cbn [negb].
    unfold findExistingDriveFile, bind, emit. now rewrite Hsearch.
  - intros token files st ra Htok Htruthy Hsearch Hid Hcreate.
    rewrite (upload_after_lookup _ _ _ _ _ _ _ _ _ Htok Htruthy Hsearch).
    cbv zeta. rewrite (md5Matches_needs_id _ _ Hid), Hid, transferBody_new.
    cbv zeta. rewrite Hcreate. unfold fetchError. cbn [log xhrSent
      sessionsStarted randomsDrawn].
    now rewrite <- app_assoc.
Qed.

Lemma lookup_and_create_are_tried_once_witness :
  uploadFileWithProgress busyEnv "notes.txt" (Content 1) "text/plain"
                         "folder-1" None world0
  = (Thrown (createUploadError "Failed to search existing file"
               (Some 503) true (Some 1000)),
     mkWorld 0 0 0 [EvSearch "notes.txt" "folder-1"]).
Proof.
  apply (proj1 (proj2 (lookup_and_create_are_tried_once busyEnv "notes.txt"
                         (Content 1) "text/plain" "folder-1" None world0))
               "ya29.token" 503 (Some 1));
    reflexivity.
Defined.

End UploadExtraProofs.

(** * More properties of the pull paths *)

Module PullExtraProofs.
Import Js PullExtra.
Local Open Scope nat_scope.

(** *** Pull All *)

Section PullAllCounts.
Import PullAll.

Lemma insertSorted_length {A} (cmp : A -> A -> Z) x l :
  length (insertSorted cmp x l) = S (length l).
Proof.
  induction l as [|y l IH]; [reflexivity|]. simpl.
  destruct (cmp x y <=? 0)%Z; simpl; [reflexivity|]. now rewrite IH.
Qed.

Lemma sort_length {A} (cmp : A -> A -> Z) l :
  length (sort cmp l) = length l.
Proof.
  induction l as [|x l IH]; [reflexivity|]. simpl.
  now rewrite insertSorted_length, IH.
Qed.

Lemma filter_isStart_app l1 l2 :
  length (List.filter isStart (l1 ++ l2))
  = length (List.filter isStart l1) + length (List.filter isStart l2).
Proof. now rewrite List.filter_app, length_app. Qed.

Lemma pullLoop_counts env targetFolder total :
  forall files s,
    cancelled s = 0 ->
    pulled s + skipped s + length files = total ->
    let s' := pullLoop env targetFolder total files s in
    pulled s' + skipped s' + cancelled s' = total /\
    (downloadingFiles s = ∅ ->
     length (List.filter isStart (log s')) + pulled s
     = length (List.filter isStart (log s)) + pulled s' /\
     length (log s') + 2 * pulled s = length (log s) + 2 * pulled s').
Proof.
  induction files as [|f files IH]; intros s Hc Hsum; cbn [pullLoop].
  { simpl in *. split; [lia|]. intros _. lia. }
  destruct (pullCancelled s).
  { cbn [pulled skipped cancelled log]. simpl in Hsum.
    split; [lia|]. intros _. lia. }
  destruct (alreadySynced env targetFolder f s).
  - match goal with
    | |- context [pullLoop _ _ _ files ?s1] =>
        destruct (IH s1) as [H1 H2]; [exact Hc|simpl in *; lia|]
    end.
    split; [exact H1|]. intros Hd. apply (H2 Hd).
  - unfold handleSingleFilePull.
    destruct (bool_decide (id f ∈ downloadingFiles s)) eqn:Hin.
    + match goal with
      | |- context [pullLoop _ _ _ files ?s1] =>
          destruct (IH s1) as [H1 H2]; [exact Hc|simpl in *; lia|]
      end.
      split; [exact H1|]. intros Hd. exfalso.
      apply bool_decide_eq_true in Hin. rewrite Hd in Hin.
      now apply not_elem_of_empty in Hin.
    + destruct (download env (id f)) as [n|];
        cbn [pulled skipped cancelled pullCancelled disk downloadingFiles
             log];
        match goal with
        | |- context [pullLoop _ _ _ files ?s1] =>
            destruct (IH s1) as [H1 H2]; [exact Hc|simpl in *; lia|]
        end;
        (split; [exact H1|]); intros Hd;
        destruct (H2 Hd) as [H3 H4]; cbn [log pulled] in H3, H4;
        rewrite filter_isStart_app in H3; rewrite length_app in H4;
        cbn [List.filter isStart length] in H3, H4; lia.
Qed.

(** X17.  Pull All accounts for every selected file: at its end [pulled +
    skipped + cancelled] is the number of files, cancelled or not.
    [pulled] counts the transfers started, whether the download
    succeeded or failed: with no other pull under way, the batch
    started exactly [pulled] transfers and ended each of them. *)
Theorem pull_all_counts env targetFolder files disk0 downloading0 :
  let s := handlePullAll env targetFolder files disk0 downloading0 in
  pulled s + skipped s + cancelled s = length files /\
  (downloading0 = ∅ ->
   length (List.filter isStart (log s)) = pulled s /\
   length (log s) = 2 * pulled s).
Proof.
  unfold handlePullAll.
  destruct (pullLoop_counts env targetFolder (length files)
              (sort prprojLast files)
              (mkState 0 0 0 false disk0 downloading0 []))
    as [H1 H2]; [reflexivity|simpl; now rewrite sort_length|].
  split; [exact H1|]. intros ->.
  destruct (H2 eq_refl) as [H3 H4]. simpl in H3, H4. lia.
Qed.

Lemma pull_all_counts_witness :
  let s := handlePullAll exampleEnv "C:\sync\Promo" exampleFiles ∅ ∅ in
  length (List.filter isStart (log s)) = pulled s /\
  length (log s) = 2 * pulled s.
Proof.
  apply (proj2 (pull_all_counts exampleEnv "C:\sync\Promo" exampleFiles ∅ ∅)).
  reflexivity.
Defined.

(** A failed download is counted as pulled. *)
Example failed_download_counts_as_pulled :
  let s := handlePullAll exampleEnv "C:\sync\Promo" exampleFiles ∅ ∅ in
  (pulled s, skipped s, cancelled s) = (3, 0, 0) /\
  In (TransferEnd {| id := "id-b"; name := "voice.wav"; size := Some 4096%Z |}
                  false) (log s).
Proof. vm_compute. split; [reflexivity|]. auto 10. Qed.

(** X18.  The explorer and Pull All read the disk the same way: a file the
    explorer shows as synced is skipped by Pull All, a file it shows
    as missing, modified or as a project update is pulled, and a file
    Pull All skips is shown as synced, or as offline in the timeline
    when an offline item matches it. *)
Theorem explorer_agrees_with_pull_all env targetFolder offlineFiles
        isCurrentProject f s :
  let status := explorerStatus (fsAvailable env) (disk s) targetFolder
                               offlineFiles isCurrentProject f in
  (status = Synced -> alreadySynced env targetFolder f s = true) /\
  (status = MissingLocally \/ status = ProjectUpdate \/
   (exists localSize driveSize, status = Modified localSize driveSize) ->
   alreadySynced env targetFolder f s = false) /\
  (alreadySynced env targetFolder f s = true ->
   status = Synced \/ exists nodeId, status = OfflineInTimeline nodeId).
Proof.
  unfold explorerStatus, alreadySynced, existsLocally, localSizeOf.
  cbv zeta.
  destruct (fsAvailable env); cbn [andb negb].
  - destruct (disk s !! localPathOf targetFolder f) as [n|] eqn:Hd.
    + rewrite bool_decide_eq_true_2 by eauto. cbn [negb].
      destruct (Z.eqb_spec n (driveSizeOf f)) as [Heq|Hne]; cbn [negb].
      * rewrite andb_false_r.
        destruct (List.find _ offlineFiles) as [item|].
        -- split; [discriminate|]. split; [|eauto].
           intros [H|[H|(a & b & H)]]; discriminate.
        -- split; [reflexivity|]. split; [|eauto].
           intros [H|[H|(a & b & H)]]; discriminate.
      * destruct (isPrproj (name f) && isCurrentProject);
          [|destruct (List.find _ offlineFiles) as [item|]];
          (split; [discriminate|]); (split; [reflexivity|discriminate]).
    + rewrite bool_decide_eq_false_2 by (intros [? ?]; discriminate).
      cbn [negb].
      destruct (isPrproj (name f) && isCurrentProject &&
                negb (-1 =? driveSizeOf f)%Z);
        [|destruct (List.find _ offlineFiles) as [item|]];
        (split; [discriminate|]); (split; [reflexivity|discriminate]).
  - destruct (isPrproj (name f) && isCurrentProject &&
              negb (-1 =? driveSizeOf f)%Z);
      [|destruct (List.find _ offlineFiles) as [item|]];
      (split; [discriminate|]); (split; [reflexivity|discriminate]).
Qed.

Lemma explorer_agrees_with_pull_all_witness :
  alreadySynced exampleEnv "C:\sync\Promo"
    {| id := "id-b"; name := "voice.wav"; size := Some 4096%Z |}
    (mkState 0 0 0 false {[ "C:\sync\Promo\voice.wav" := 4096%Z ]} ∅ [])
  = true.
Proof.
  apply (proj1 (explorer_agrees_with_pull_all exampleEnv "C:\sync\Promo" []
                  false
                  {| id := "id-b"; name := "voice.wav";
                     size := Some 4096%Z |}
                  (mkState 0 0 0 false
                           {[ "C:\sync\Promo\voice.wav" := 4096%Z ]} ∅ []))).
  vm_compute. reflexivity.
Defined.

End PullAllCounts.


(** *** The download helper *)

Section DownloadCounts.
Import Download.

Local Ltac finish :=
  repeat split; intros; simpl in *; auto; try discriminate; try congruence;
  try lia.

Lemma loopBody_balanced env projectPath known f s :
  f ∈ known ->
  balanced projectPath known s ->
  let r := loopBody env projectPath f s in
  balanced projectPath known (snd r) /\
  (fst r = true -> completedFiles (snd r) = S (completedFiles s)) /\
  (fst r = false -> completedFiles (snd r) = completedFiles s /\
                    cancelled (snd r) = true) /\
  (cancelled (snd r) = false -> cancelled s = false).
Proof.
  intros Hf [Hsum Hall]. unfold loopBody.
  destruct (cancelled s) eqn:Hc; [finish|].
  destruct (disk s !! targetPathOf projectPath f).
  - unfold classifyExisting.
    destruct (Z.eqb_spec (measureLocalSize env (disk s)
                            (targetPathOf projectPath f)) (driveSizeOf f)).
    + finish.
    + split; [split|finish].
      * simpl. rewrite length_app. simpl. lia.
      * simpl. apply Forall_app. split; [exact Hall|].
        constructor; [|constructor]. simpl. repeat split; auto.
  - unfold downloadOne.
    destruct (downloadFile env (id f)); [|finish].
    rewrite Hc. cbn [orb].
    destruct (cancelDuring env (id f)); [finish|].
    destruct (writeFails env (targetPathOf projectPath f)); finish.
Qed.

Lemma downloadLoop_balanced env projectPath known :
  forall driveFiles s,
    Forall (fun f => f ∈ known) driveFiles ->
    balanced projectPath known s ->
    let s' := downloadLoop env projectPath driveFiles s in
    balanced projectPath known s' /\
    completedFiles s' <= completedFiles s + length driveFiles /\
    (cancelled s' = false ->
     completedFiles s' = completedFiles s + length driveFiles).
Proof.
  induction driveFiles as [|f rest IH]; intros s Hin Hb; cbn [downloadLoop].
  { simpl. repeat split; try apply Hb; lia. }
  apply Forall_cons in Hin as [Hf Hin].
  destruct (loopBody_balanced env projectPath known f s Hf Hb)
    as (Hb1 & Hgo & Hstop & Hflag).
  destruct (loopBody env projectPath f s) as [[|] s1]; simpl in *.
  - destruct (IH s1 Hin Hb1) as (Hb2 & Hle & Heq).
    rewrite (Hgo eq_refl) in *. split; [exact Hb2|]. split; [lia|].
    intros Hc. specialize (Heq Hc). lia.
  - destruct (Hstop eq_refl) as [Hsame Hc]. split; [exact Hb1|].
    split; [lia|]. intros Hno. congruence.
Qed.

(** X19.  The counters of a download add up: every file the loop has
    finished with is downloaded, skipped, failed or a conflict, and
    is counted once; a download that was not cancelled has finished
    with every file of the listing.  Each conflict recorded is about
    a file of the listing, under its own name and local path, with
    sizes that differ. *)
Theorem download_counts env projectPath driveFiles disk0 :
  let s := downloadProjectWithProgress env projectPath driveFiles disk0 in
  completedFiles s
  = downloadedFiles s + skippedFiles s + failedFiles s
    + length (conflicts s) /\
  completedFiles s <= length driveFiles /\
  (cancelled s = false -> completedFiles s = length driveFiles) /\
  Forall (fun c => c_driveFile c ∈ driveFiles /\
                   c_name c = name (c_driveFile c) /\
                   c_localPath c = targetPathOf projectPath (c_driveFile c) /\
                   c_driveSize c = driveSizeOf (c_driveFile c) /\
                   c_localSize c <> c_driveSize c)
         (conflicts s).
Proof.
  unfold downloadProjectWithProgress.
  destruct (downloadLoop_balanced env projectPath driveFiles driveFiles
              (mkState 0 0 0 0 [] false 0 disk0 []))
    as ([Hsum Hall] & Hle & Heq).
  - now apply Forall_forall.
  - split; [reflexivity|constructor].
  - simpl in Hle, Heq. repeat split; auto.
Qed.

Lemma download_counts_witness :
  let s := downloadProjectWithProgress exampleEnv "C:\sync\Promo"
                                       exampleFiles divergedDisk in
  completedFiles s = length exampleFiles.
Proof.
  apply (proj1 (proj2 (proj2 (download_counts exampleEnv "C:\sync\Promo"
                                exampleFiles divergedDisk)))).
  vm_compute. reflexivity.
Defined.

(** *** Conflicts, once the user has answered *)

Lemma overwrite_fold env conflicts :
  forall acc,
    let r := foldl (overwriteOne env) acc conflicts in
    fst acc <= fst r <= fst acc + length conflicts /\
    (forall path,
        Forall (fun c => c_localPath c <> path) conflicts ->
        snd r !! path = snd acc !! path) /\
    (forall path,
        Forall (fun c => c_localPath c = path ->
                         downloadFile env (id (c_driveFile c)) = None \/
                         writeFails env path = true) conflicts ->
        snd r !! path = snd acc !! path).
Proof.
  induction conflicts as [|c conflicts IH]; intros acc; cbn [foldl].
  { simpl. repeat split; auto; lia. }
  destruct (IH (overwriteOne env acc c)) as (Hn & Hother & Hfail).
  unfold overwriteOne in *.
  destruct (downloadFile env (id (c_driveFile c))) as [content|] eqn:Hd.
  - destruct (writeFails env (c_localPath c)) eqn:Hw; simpl in *.
    + repeat split; try lia.
      * intros path [_ Hall]%Forall_cons. now apply Hother.
      * intros path [_ Hall]%Forall_cons. now apply Hfail.
    + repeat split; try lia.
      * intros path [Hne Hall]%Forall_cons.
        rewrite (Hother path Hall). now apply lookup_insert_ne.
      * intros path [Hc Hall]%Forall_cons.
        rewrite (Hfail path Hall).
        destruct (decide (c_localPath c = path)) as [Heq|Hne];
          [|now apply lookup_insert_ne].
        destruct (Hc Heq) as [H|H]; congruence.
  - simpl in *. repeat split; try lia.
    + intros path [_ Hall]%Forall_cons. now apply Hother.
    + intros path [_ Hall]%Forall_cons. now apply Hfail.
Qed.

(** X20.  After a pull that found conflicts, nothing is overwritten unless
    the user says so.  When the user does, each conflict whose
    download and write succeed is counted in [overwriteCount]; the
    last conflict of a path decides what the path holds, which is the
    content of the Drive file when its download and write succeed;
    and a file that is no conflict, or whose every download or write
    failed, is left as it was. *)
Theorem conflicts_are_overwritten_on_confirmation env overwrite conflicts
        disk :
  let r := resolveByUser env overwrite conflicts disk in
  (overwrite = false -> r = (0, disk)) /\
  fst r <= length conflicts /\
  (forall path,
      Forall (fun c => c_localPath c <> path) conflicts ->
      snd r !! path = disk !! path) /\
  (forall path,
      Forall (fun c => c_localPath c = path ->
                       downloadFile env (id (c_driveFile c)) = None \/
                       writeFails env path = true) conflicts ->
      snd r !! path = disk !! path) /\
  (forall before c after content,
      overwrite = true ->
      conflicts = before ++ c :: after ->
      Forall (fun c' => c_localPath c' <> c_localPath c) after ->
      downloadFile env (id (c_driveFile c)) = Some content ->
      writeFails env (c_localPath c) = false ->
      snd r !! c_localPath c = Some content).
Proof.
  unfold resolveByUser. destruct overwrite.
  - destruct (overwrite_fold env conflicts (0, disk)) as (Hn & Ho & Hf).
    simpl in *. split; [discriminate|]. split; [lia|].
    split; [exact Ho|]. split; [exact Hf|].
    intros before c after content _ -> Hafter Hd Hw.
    rewrite foldl_app. cbn [foldl].
    destruct (overwrite_fold env after
                (overwriteOne env (foldl (overwriteOne env) (0, disk) before)
                              c)) as (_ & Ho' & _).
    rewrite (Ho' _ Hafter). unfold overwriteOne at 1. rewrite Hd, Hw.
    apply lookup_insert_eq.
  - simpl. split; [reflexivity|]. split; [lia|].
    split; [now intros|]. split; [now intros|]. discriminate.
Qed.

Lemma conflicts_are_overwritten_on_confirmation_witness :
  let s := downloadProjectWithProgress exampleEnv "C:\sync\Promo"
                                       exampleFiles divergedDisk in
  snd (resolveByUser exampleEnv true (conflicts s) (disk s))
    !! "C:\sync\Promo\clip.mov" = Some "MOVIE!".
Proof.
  intros s.
  apply (proj2 (proj2 (proj2 (proj2
           (conflicts_are_overwritten_on_confirmation exampleEnv true
              (conflicts s) (disk s)))))
           []
           {| c_name := "clip.mov";
              c_localPath := "C:\sync\Promo\clip.mov";
              c_driveFile := {| id := "id-a"; name := "clip.mov";
                                size := Some 6%Z |};
              c_localSize := 3%Z;
              c_driveSize := 6%Z |} []);
    try reflexivity.
  constructor.
Defined.

End DownloadCounts.

End PullExtraProofs.

(** * Properties of names, paths and versions *)

Module PushPathsProofs.
Import Js PushPaths.

(** *** Drive paths *)

Lemma clean_collapse value :
  forall afterSlash,
    cleanFrom afterSlash (collapseFrom afterSlash (toForwardSlash value))
    = true.
Proof.
  induction value as [|c rest IH]; intros afterSlash; [reflexivity|].
  cbn [toForwardSlash collapseFrom].
  destruct (isBackslash c) eqn:Hb.
  - change (isSlash "/") with true. cbv iota.
    destruct afterSlash; [apply IH|].
    cbn [cleanFrom]. change (isBackslash "/") with false.
    change (isSlash "/") with true. cbn. apply IH.
  - destruct (isSlash c) eqn:Hs.
    + destruct afterSlash; [apply IH|].
      cbn [cleanFrom]. rewrite Hb, Hs. cbn. apply IH.
    + cbn [cleanFrom]. rewrite Hb, Hs. apply IH.
Qed.

Lemma trim_collapse value :
  trimLeadingSlashes (collapseFrom false (toForwardSlash value))
  = collapseFrom true (toForwardSlash value).
Proof.
  destruct value as [|c rest]; [reflexivity|].
  cbn [toForwardSlash collapseFrom].
  assert (Hnext : forall w,
             trimLeadingSlashes (collapseFrom true (toForwardSlash w))
             = collapseFrom true (toForwardSlash w)).
  { induction w as [|d w IH]; [reflexivity|].
    cbn [toForwardSlash collapseFrom].
    destruct (isBackslash d) eqn:Hb.
    - change (isSlash "/") with true. cbv iota. exact IH.
    - destruct (isSlash d) eqn:Hs; [exact IH|].
      cbn [trimLeadingSlashes]. now rewrite Hs, Hb. }
  destruct (isBackslash c) eqn:Hb.
  - change (isSlash "/") with true. cbv iota.
    cbn [trimLeadingSlashes]. change (isSlash "/") with true. cbn [orb].
    apply Hnext.
  - destruct (isSlash c) eqn:Hs.
    + cbn [trimLeadingSlashes]. rewrite Hs. cbn [orb]. apply Hnext.
    + cbn [trimLeadingSlashes]. now rewrite Hs, Hb.
Qed.

Lemma clean_fixed value :
  forall afterSlash,
    cleanFrom afterSlash value = true ->
    toForwardSlash value = value /\
    collapseFrom afterSlash value = value.
Proof.
  induction value as [|c rest IH]; intros afterSlash; [easy|].
  cbn [cleanFrom toForwardSlash collapseFrom].
  destruct (isBackslash c) eqn:Hb; [discriminate|].
  destruct (isSlash c) eqn:Hs.
  - destruct afterSlash; [discriminate|]. cbn [negb andb]. intros H.
    destruct (IH true H) as [-> ->]. easy.
  - intros H. destruct (IH false H) as [-> ->]. easy.
Qed.

Lemma last_split_no_sep sep s :
  contains sep (List.last (split sep s) EmptyString) = false.
Proof.
  induction s as [|c s IH]; [reflexivity|]. cbn [split].
  destruct (Ascii.eqb c sep) eqn:Hc.
  - destruct (split sep s) as [|p ps] eqn:Hs; [reflexivity|].
    exact IH.
  - destruct (split sep s) as [|p ps] eqn:Hs.
    + cbn. rewrite Ascii.eqb_sym, Hc. reflexivity.
    + destruct ps as [|q qs].
      * cbn [List.last] in *. unfold contains in *.
        cbn [list_ascii_of_string existsb].
        now rewrite Ascii.eqb_sym, Hc, IH.
      * exact IH.
Qed.

Lemma clean_no_backslash value :
  forall afterSlash,
    cleanFrom afterSlash value = true -> contains "\" value = false.
Proof.
  induction value as [|c rest IH]; intros afterSlash; [easy|].
  cbn [cleanFrom]. unfold contains. cbn [list_ascii_of_string existsb].
  unfold isBackslash. rewrite (Ascii.eqb_sym "\"%char c).
  destruct (Ascii.eqb c "\"%char); [discriminate|]. cbn [orb].
  destruct (isSlash c).
  - destruct afterSlash; [discriminate|]. apply IH.
  - apply IH.
Qed.

Lemma no_backslash_pieces sep s :
  contains "\" s = false ->
  Forall (fun piece => contains "\" piece = false) (split sep s).
Proof.
  induction s as [|c s IH]; [now repeat constructor|].
  unfold contains at 1. cbn [list_ascii_of_string existsb split].
  intros [Hc Hs]%orb_false_elim. specialize (IH Hs).
  destruct (Ascii.eqb c sep).
  - constructor; [reflexivity|exact IH].
  - destruct (split sep s) as [|p ps].
    + constructor; [|constructor]. unfold contains.
      cbn [list_ascii_of_string existsb]. now rewrite Hc.
    + apply Forall_cons in IH as [Hp Hps]. constructor; [|exact Hps].
      unfold contains in *. cbn [list_ascii_of_string existsb].
      now rewrite Hc, Hp.
Qed.

Lemma Forall_last {A} (P : A -> Prop) l d :
  Forall P l -> P d -> P (List.last l d).
Proof.
  induction l as [|x l IH]; intros Hl Hd; [exact Hd|].
  apply Forall_cons in Hl as [Hx Hl]. destruct l; [exact Hx|].
  now apply IH.
Qed.

(** X25.  [sanitizeRelativePath] always gives a path in the form Drive
    paths are kept in: without backslash, without two slashes in a
    row, without a slash at its head; it changes nothing in a path that
    has that form already, so that applying it twice is applying it
    once; and the last component of what it gives, which becomes the
    name of the file on Drive, holds neither slash nor backslash. *)
Theorem sanitize_gives_clean_path value :
  clean (sanitizeRelativePath value) = true /\
  (clean value = true -> sanitizeRelativePath value = value) /\
  sanitizeRelativePath (sanitizeRelativePath value)
  = sanitizeRelativePath value /\
  (let component :=
     List.last (split "/" (sanitizeRelativePath value)) EmptyString in
   contains "/" component = false /\ contains "\" component = false).
Proof.
  assert (Hclean : clean (sanitizeRelativePath value) = true).
  { unfold clean, sanitizeRelativePath, collapseSlashes.
    rewrite trim_collapse. apply clean_collapse. }
  assert (Hfix : forall v, clean v = true -> sanitizeRelativePath v = v).
  { intros v Hv. unfold sanitizeRelativePath, collapseSlashes.
    rewrite trim_collapse.
    destruct (clean_fixed v true Hv) as [-> ->]. reflexivity. }
  split; [exact Hclean|]. split; [apply Hfix|].
  split; [now apply Hfix|].
  split; [apply last_split_no_sep|].
  apply Forall_last; [|reflexivity].
  apply no_backslash_pieces. eapply clean_no_backslash, Hclean.
Qed.

Lemma sanitize_gives_clean_path_witness :
  sanitizeRelativePath "media/day 1/clip.mov" = "media/day 1/clip.mov".
Proof.
  apply (proj1 (proj2 (sanitize_gives_clean_path "media/day 1/clip.mov"))).
  reflexivity.
Defined.

(** Backslashes, doubled slashes and leading slashes go; two dots
    stay. *)
Example sanitize_examples :
  sanitizeRelativePath "\\server\share//media\\clip.mov"
  = "server/share/media/clip.mov" /\
  sanitizeRelativePath "../outside/clip.mov" = "../outside/clip.mov".
Proof. split; reflexivity. Qed.


(** *** MIME types *)

Lemma split_length_sep sep a b :
  (2 <= length (split sep (String.append a (String sep b))))%nat.
Proof.
  induction a as [|d a IHa]; simpl.
  - rewrite Ascii.eqb_refl.
    destruct (ServerProofs.split_cons sep b) as (p & ps & ->).
    simpl. lia.
  - destruct (Ascii.eqb d sep); [simpl; lia|].
    destruct (split sep (String.append a (String sep b)));
      simpl in *; lia.
Qed.

Lemma split_app_any sep a b :
  List.last (split sep (String.append a (String sep b))) EmptyString
  = List.last (split sep b) EmptyString.
Proof.
  induction a as [|c a IH]; simpl.
  - rewrite Ascii.eqb_refl.
    destruct (ServerProofs.split_cons sep b) as (p & ps & ->). reflexivity.
  - pose proof (split_length_sep sep a b) as Hlen.
    destruct (split sep (String.append a (String sep b))) as [|p ps];
      [simpl in Hlen; lia|].
    destruct ps as [|q qs]; [simpl in Hlen; lia|].
    destruct (Ascii.eqb c sep); exact IH.
Qed.

(** X26.  The MIME type of an upload is read from the text after the last
    dot of the name, whatever the case of its letters, and a name
    without a dot is read as an extension itself. *)
Theorem mime_type_follows_last_extension stem ext :
  contains "." ext = false ->
  extensionOf (String.append stem (String "." ext)) = toLowerCase ext /\
  extensionOf ext = toLowerCase ext /\
  getMimeTypeFromName (String.append stem (String "." ext))
  = getMimeTypeFromName ext.
Proof.
  intros Hext.
  assert (H1 : extensionOf (String.append stem (String "." ext))
               = toLowerCase ext).
  { unfold extensionOf.
    now rewrite split_app_any, (ServerProofs.split_no_sep "." ext Hext). }
  assert (H2 : extensionOf ext = toLowerCase ext).
  { unfold extensionOf.
    now rewrite (ServerProofs.split_no_sep "." ext Hext). }
  split; [exact H1|]. split; [exact H2|].
  unfold getMimeTypeFromName. cbv zeta. now rewrite H1, H2.
Qed.

Lemma mime_type_follows_last_extension_witness :
  getMimeTypeFromName "day.1/Clip.final.MOV" = getMimeTypeFromName "MOV".
Proof.
  apply (proj2 (proj2 (mime_type_follows_last_extension
                         "day.1/Clip.final" "MOV" eq_refl))).
Defined.

Example mime_examples :
  getMimeTypeFromName "Clip.final.MOV" = "video/quicktime" /\
  getMimeTypeFromName "mov" = "video/quicktime" /\
  getMimeTypeFromName "promo.prproj" = "application/octet-stream" /\
  getMimeTypeFromName "archive.tar.JPEG" = "image/jpeg".
Proof. repeat split; reflexivity. Qed.

(** *** Upload keys *)

Lemma digitChar_digit d :
  0 <= d <= 9 -> isDigit (digitChar d) = true /\ digitValue (digitChar d) = d.
Proof.
  intros Hd.
  assert (d = 0 \/ d = 1 \/ d = 2 \/ d = 3 \/ d = 4 \/ d = 5 \/ d = 6 \/
          d = 7 \/ d = 8 \/ d = 9) as Hcases by lia.
  repeat (destruct Hcases as [-> | Hcases]; [split; reflexivity|]).
  subst d. split; reflexivity.
Qed.

Lemma readDigits_numeralFuel fuel :
  forall n acc a,
    0 <= n < 2 ^ Z.of_nat fuel ->
    readDigits a (numeralFuel fuel n acc) = readDigits (glue fuel n a) acc.
Proof.
  induction fuel as [|fuel IH]; intros n acc a Hn; [reflexivity|].
  cbn [numeralFuel glue].
  assert (Hmod : 0 <= n mod 10 <= 9)
    by (pose proof (Z.mod_pos_bound n 10 ltac:(lia)); lia).
  destruct (digitChar_digit (n mod 10) Hmod) as [Hdig Hval].
  destruct (Z.ltb_spec n 10) as [Hlt|Hge].
  - cbn [readDigits]. rewrite Hdig, Hval.
    now rewrite Z.mod_small by lia.
  - rewrite IH.
    + cbn [readDigits]. now rewrite Hdig, Hval.
    + rewrite Nat2Z.inj_succ, Z.pow_succ_r in Hn by lia.
      split; [apply Z.div_pos; lia|].
      apply Z.div_lt_upper_bound; lia.
Qed.

Lemma glue_zero fuel :
  forall n, 0 <= n < 2 ^ Z.of_nat fuel -> glue fuel n 0 = n.
Proof.
  induction fuel as [|fuel IH]; intros n Hn; cbn [glue].
  - simpl in Hn. lia.
  - destruct (Z.ltb_spec n 10); [lia|].
    rewrite IH.
    + pose proof (Z.div_mod n 10 ltac:(lia)). lia.
    + rewrite Nat2Z.inj_succ, Z.pow_succ_r in Hn by lia.
      split; [apply Z.div_pos; lia|].
      apply Z.div_lt_upper_bound; lia.
Qed.

Lemma append_assoc a b c :
  String.append (String.append a b) c = String.append a (String.append b c).
Proof.
  induction a as [|x a IH]; [reflexivity|].
  change (String x (String.append (String.append a b) c)
          = String x (String.append a (String.append b c))).
  now rewrite IH.
Qed.

Lemma numeralFuel_app fuel :
  forall n acc,
    numeralFuel fuel n acc
    = String.append (numeralFuel fuel n EmptyString) acc.
Proof.
  induction fuel as [|fuel IH]; intros n acc; [reflexivity|].
  cbn [numeralFuel]. destruct (n <? 10); [reflexivity|].
  rewrite (IH (n / 10) (String (digitChar (n mod 10)) acc)).
  rewrite (IH (n / 10) (String (digitChar (n mod 10)) EmptyString)).
  rewrite append_assoc. reflexivity.
Qed.

Lemma numeral_bound n :
  0 <= n -> 0 <= n < 2 ^ Z.of_nat (S (Z.to_nat (Z.log2 n))).
Proof.
  intros Hn. split; [exact Hn|].
  rewrite Nat2Z.inj_succ, Z2Nat.id by apply Z.log2_nonneg.
  destruct (Z.eq_dec n 0) as [->|Hne]; [reflexivity|].
  apply Z.log2_spec. lia.
Qed.

(** The number at the head of a key can be read back. *)
Lemma readDigits_uploadKey index pathOrName :
  readDigits 0 (uploadKey index pathOrName) = Z.of_nat index.
Proof.
  unfold uploadKey, numeral.
  rewrite <- numeralFuel_app, readDigits_numeralFuel
    by (apply numeral_bound; lia).
  cbn [readDigits]. change (isDigit ":") with false. cbv iota.
  apply glue_zero, numeral_bound. lia.
Qed.

Lemma append_cancel a b c :
  String.append a b = String.append a c -> b = c.
Proof.
  induction a as [|x a IH]; [auto|].
  change (String x (String.append a b) = String x (String.append a c)
          -> b = c).
  intros [= H]. auto.
Qed.

Lemma numeralFuel_head f :
  forall n acc,
    (exists d rest, acc = String d rest /\ isDigit d = true) ->
    0 <= n ->
    exists d rest, numeralFuel f n acc = String d rest /\ isDigit d = true.
Proof.
  induction f as [|f IH]; intros n acc Hacc Hn; [exact Hacc|].
  cbn [numeralFuel].
  assert (Hmod : 0 <= n mod 10 <= 9)
    by (pose proof (Z.mod_pos_bound n 10 ltac:(lia)); lia).
  destruct (digitChar_digit (n mod 10) Hmod) as [Hdig _].
  destruct (n <? 10); [eauto|].
  apply IH; [eauto|]. apply Z.div_pos; lia.
Qed.

Lemma numeral_head n :
  0 <= n -> exists d rest, numeral n = String d rest /\ isDigit d = true.
Proof.
  intros Hn. unfold numeral. cbn [numeralFuel].
  assert (Hmod : 0 <= n mod 10 <= 9)
    by (pose proof (Z.mod_pos_bound n 10 ltac:(lia)); lia).
  destruct (digitChar_digit (n mod 10) Hmod) as [Hdig _].
  destruct (n <? 10); [eauto|].
  apply numeralFuel_head; [eauto|]. apply Z.div_pos; lia.
Qed.

Lemma digit_is_plain d :
  isDigit d = true ->
  isWhiteSpace d = false /\ d <> "-"%char /\ d <> "+"%char.
Proof.
  intros Hd. split; [|split; intros ->; discriminate].
  revert Hd. unfold isDigit, isWhiteSpace. generalize (code d).
  intros k Hk.
  apply andb_true_iff in Hk as [H1 H2].
  apply Nat.leb_le in H1, H2.
  repeat (apply orb_false_iff; split); apply Nat.eqb_neq; lia.
Qed.

(** X27.  Upload keys tell the files of a batch apart: two keys are equal
    only for the same index and the same path, whatever the paths
    are, so that cancelling by key cancels one file; and the index
    can be read back from the key with [parseInt]. *)
Theorem upload_keys_are_distinct i j x y :
  (uploadKey i x = uploadKey j y -> i = j /\ x = y) /\
  parseInt (uploadKey i x) = Some (Z.of_nat i).
Proof.
  split.
  - intros Heq.
    assert (Hij : i = j).
    { apply Nat2Z.inj.
      rewrite <- (readDigits_uploadKey i x), <- (readDigits_uploadKey j y).
      now rewrite Heq. }
    subst j. split; [reflexivity|].
    unfold uploadKey in Heq. apply append_cancel in Heq. now injection Heq.
  - pose proof (readDigits_uploadKey i x) as Hread.
    unfold uploadKey in *.
    destruct (numeral_head (Z.of_nat i) ltac:(lia)) as (d & rest & Hnum & Hd).
    rewrite Hnum in *.
    change (String.append (String d rest) (String ":" x))
      with (String d (String.append rest (String ":" x))) in *.
    destruct (digit_is_plain d Hd) as (Hws & Hm & Hp).
    unfold parseInt. cbn [skipWhiteSpace]. rewrite Hws.
    destruct d as [[] [] [] [] [] [] [] []]; try discriminate Hd;
      cbn [startsWithDigit]; rewrite Hd; now rewrite Hread.
Qed.

Lemma upload_keys_are_distinct_witness :
  2%nat = 2%nat /\ "C:\proj\clip.mov" = "C:\proj\clip.mov".
Proof.
  apply (proj1 (upload_keys_are_distinct 2 2 "C:\proj\clip.mov"
                  "C:\proj\clip.mov")).
  reflexivity.
Defined.

Example upload_key_examples :
  uploadKey 0 "C:\proj\promo.prproj" = "0:C:\proj\promo.prproj" /\
  uploadKey 12 "clip.mov" = "12:clip.mov" /\
  uploadKey 1 "2:x" <> uploadKey 12 ":x".
Proof. repeat split; try reflexivity. discriminate. Qed.


(** *** Version comparison *)

Lemma gtb_num p q : gtb (Num p) (Num q) = true <-> (q < p)%Q.
Proof.
  unfold gtb. rewrite (Qgt_alt p q).
  destruct (p ?= q)%Q; split; intros H; congruence.
Qed.

Lemma gtb_num_false p q : gtb (Num p) (Num q) = false <-> (p <= q)%Q.
Proof.
  unfold gtb. rewrite (Qle_alt p q).
  destruct (p ?= q)%Q; split; intros H; congruence.
Qed.

Lemma gtb_asym x y : gtb x y = true -> gtb y x = false.
Proof.
  destruct x as [|p| |], y as [|q| |]; try reflexivity; try discriminate.
  rewrite gtb_num, gtb_num_false. apply Qlt_le_weak.
Qed.

Lemma gtb_trans x y z :
  gtb x y = true -> gtb y z = true -> gtb x z = true.
Proof.
  destruct x as [|p| |], y as [|q| |], z as [|r| |];
    try reflexivity; try discriminate.
  rewrite !gtb_num. intros H1 H2. exact (Qlt_trans _ _ _ H2 H1).
Qed.

Lemma gtb_negtrans x y z :
  y <> NaN -> gtb x y = false -> gtb y z = false -> gtb x z = false.
Proof.
  intros Hy.
  destruct x as [|p| |], y as [|q| |], z as [|r| |];
    try reflexivity; try discriminate; try congruence.
  rewrite !gtb_num_false. apply Qle_trans.
Qed.

Section VersionOrder.
Variable Number : string -> JsNumber.

Lemma part_not_nan a i : part Number a i <> NaN.
Proof.
  unfold part. destruct (split "." a !! i) as [text|]; [|discriminate].
  destruct (Number text); discriminate.
Qed.

Lemma compareFrom_flip a b count :
  forall i,
    compareFrom Number b a i count = - compareFrom Number a b i count.
Proof.
  induction count as [|count IH]; intros i; [reflexivity|].
  cbn [compareFrom].
  destruct (gtb (part Number a i) (part Number b i)) eqn:Hab.
  - now rewrite (gtb_asym _ _ Hab).
  - destruct (gtb (part Number b i) (part Number a i)); [reflexivity|].
    apply IH.
Qed.

Lemma compareFrom_trans a b c count :
  forall i,
    0 <= compareFrom Number a b i count ->
    0 <= compareFrom Number b c i count ->
    0 <= compareFrom Number a c i count.
Proof.
  induction count as [|count IH]; intros i; [reflexivity|].
  cbn [compareFrom].
  pose proof (part_not_nan a i) as Hx.
  pose proof (part_not_nan b i) as Hy.
  pose proof (part_not_nan c i) as Hz.
  destruct (gtb (part Number a i) (part Number b i)) eqn:Hab.
  - intros _.
    destruct (gtb (part Number b i) (part Number c i)) eqn:Hbc.
    + intros _. now rewrite (gtb_trans _ _ _ Hab Hbc).
    + destruct (gtb (part Number c i) (part Number b i)) eqn:Hcb; [lia|].
      intros _.
      destruct (gtb (part Number a i) (part Number c i)) eqn:Hac; [lia|].
      pose proof (gtb_negtrans _ _ _ Hz Hac Hcb). congruence.
  - destruct (gtb (part Number b i) (part Number a i)) eqn:Hba; [lia|].
    intros Hrec.
    destruct (gtb (part Number b i) (part Number c i)) eqn:Hbc.
    + intros _.
      destruct (gtb (part Number a i) (part Number c i)) eqn:Hac; [lia|].
      pose proof (gtb_negtrans _ _ _ Hx Hba Hac). congruence.
    + destruct (gtb (part Number c i) (part Number b i)) eqn:Hcb; [lia|].
      rewrite (gtb_negtrans _ _ _ Hy Hab Hbc).
      rewrite (gtb_negtrans _ _ _ Hy Hcb Hba).
      now apply IH.
Qed.

Lemma compareFrom_range a b count :
  forall i, -1 <= compareFrom Number a b i count <= 1.
Proof.
  induction count as [|count IH]; intros i; cbn [compareFrom]; [lia|].
  destruct (gtb _ _); [lia|]. destruct (gtb _ _); [lia|]. apply IH.
Qed.

(** X28.  Whatever [Number] makes of the parts, [compareVersions] orders
    version strings consistently: for all strings the answer is -1,
    0 or 1, swapping the arguments flips its sign, a string compares
    as equal to itself, and "not older than" is transitive. *)
Theorem compare_versions_is_an_order a b c :
  -1 <= compareVersions Number a b <= 1 /\
  compareVersions Number b a = - compareVersions Number a b /\
  compareVersions Number a a = 0 /\
  (0 <= compareVersions Number a b ->
   0 <= compareVersions Number b c ->
   0 <= compareVersions Number a c).
Proof.
  split; [apply compareFrom_range|].
  split; [apply compareFrom_flip|].
  split.
  - pose proof (compareFrom_flip a a 3 0) as Hflip.
    unfold compareVersions. lia.
  - exact (compareFrom_trans a b c 3 0).
Qed.

End VersionOrder.

Lemma compare_versions_is_an_order_witness :
  0 <= compareVersions numberOfDigits "2.0" "1.9.beta".
Proof.
  apply (proj2 (proj2 (proj2
           (compare_versions_is_an_order numberOfDigits "2.0" "1.10.3"
              "1.9.beta"))));
    vm_compute; intros H; discriminate H.
Defined.

(** Parts are compared as numbers; a part that is missing or is not
    a number counts as 0, and a fourth part is not looked at. *)
Example compare_versions_examples :
  compareVersions numberOfDigits "1.10.0" "1.9.0" = 1 /\
  compareVersions numberOfDigits "1.2" "1.2.0" = 0 /\
  compareVersions numberOfDigits "1.2.beta" "1.2.0" = 0 /\
  compareVersions numberOfDigits "1.2.3.4" "1.2.3.9" = 0 /\
  compareVersions numberOfDigits "0.9.9" "1" = -1.
Proof. repeat split; reflexivity. Qed.

End PushPathsProofs.

(** * Listing a project folder *)

Module DriveListingProofs.
Import Js DriveListing.
Local Open Scope nat_scope.

Lemma leaves_app prefix a b :
  leaves prefix (a ++ b) = leaves prefix a ++ leaves prefix b.
Proof. unfold leaves. apply omap_app. Qed.

Lemma dirsOf_app prefix a b :
  dirsOf prefix (a ++ b) = dirsOf prefix a ++ dirsOf prefix b.
Proof. unfold dirsOf. apply omap_app. Qed.

Lemma out_app a b : out (a ++ b) = out a ++ out b.
Proof. unfold out. now rewrite map_app, concat_app. Qed.

Lemma out_cons f held stack :
  out ((f, held) :: stack) = listingOf (pathPrefix f) held ++ out stack.
Proof. reflexivity. Qed.

(** What lies below the subfolders is what the frames pushed for
    them give, the last one first. *)
Lemma under_out prefix children :
  concat (rev (map (under prefix) children))
  = out (rev (dirsOf prefix children)).
Proof.
  induction children as [|t l IH]; [reflexivity|].
  cbn [map rev]. rewrite concat_app, IH. cbn [concat].
  rewrite app_nil_r.
  destruct t as [item|item held].
  - cbn [under]. rewrite app_nil_r. reflexivity.
  - change (dirsOf prefix (Dir item held :: l))
      with (({| frame_id := it_id item;
                pathPrefix := qualify prefix (it_name item) |}, held)
              :: dirsOf prefix l).
    cbn [rev]. rewrite out_app. unfold out at 3. cbn [map concat fst snd].
    rewrite app_nil_r. reflexivity.
Qed.

Lemma listingOf_out prefix children :
  listingOf prefix children
  = leaves prefix children ++ out (rev (dirsOf prefix children)).
Proof. unfold listingOf. now rewrite under_out. Qed.

Lemma sizes_app a b : sizes (a ++ b) = sizes a + sizes b.
Proof. unfold sizes. now rewrite map_app, list_sum_app. Qed.

Lemma list_sum_cons x l : list_sum (x :: l) = x + list_sum l.
Proof. reflexivity. Qed.

Lemma sizes_cons t l : sizes (t :: l) = size t + sizes l.
Proof. reflexivity. Qed.

Lemma size_Dir item held : size (Dir item held) = S (sizes held).
Proof. reflexivity. Qed.

Lemma stackSize_app a b : stackSize (a ++ b) = stackSize a + stackSize b.
Proof. unfold stackSize. now rewrite map_app, list_sum_app. Qed.

Lemma stackSize_cons f held rest :
  stackSize ((f, held) :: rest) = S (sizes held + stackSize rest).
Proof. reflexivity. Qed.

Lemma stackSize_rev a : stackSize (rev a) = stackSize a.
Proof.
  induction a as [|x a IH]; [reflexivity|].
  cbn [rev]. rewrite stackSize_app, IH. unfold stackSize. simpl. lia.
Qed.

Lemma stackSize_dirsOf prefix children :
  stackSize (dirsOf prefix children) <= sizes children.
Proof.
  induction children as [|t l IH]; [reflexivity|].
  destruct t as [item|item held]; unfold stackSize, sizes in *;
    simpl in *; lia.
Qed.

Lemma length_concat_rev {A} (ls : list (list A)) :
  length (concat (rev ls)) = length (concat ls).
Proof.
  induction ls as [|l ls IH]; [reflexivity|].
  simpl. rewrite concat_app, !length_app, IH. simpl.
  rewrite app_nil_r. lia.
Qed.

Lemma listing_length_bounded n :
  forall prefix children,
    sizes children <= n ->
    length (listingOf prefix children) = list_sum (map countFiles children).
Proof.
  induction n as [|n IH]; intros prefix children Hn.
  - destruct children as [|[item|item held] l]; [reflexivity| |];
      unfold sizes in Hn; simpl in Hn; lia.
  - unfold listingOf. rewrite length_app, length_concat_rev.
    induction children as [|t l IHl]; [reflexivity|].
    rewrite sizes_cons in Hn.
    assert (Hl : sizes l <= S n) by lia. specialize (IHl Hl).
    destruct t as [item|item held].
    + change (leaves prefix (Leaf item :: l))
        with (withName (qualify prefix (it_name item)) item
                :: leaves prefix l).
      cbn [map under concat length countFiles app] in *.
      rewrite list_sum_cons. lia.
    + change (leaves prefix (Dir item held :: l))
        with (leaves prefix l).
      cbn [map concat]. rewrite list_sum_cons, length_app.
      change (under prefix (Dir item held))
        with (listingOf (qualify prefix (it_name item)) held).
      rewrite (IH (qualify prefix (it_name item)) held)
        by (rewrite size_Dir in Hn; lia).
      cbn [countFiles]. lia.
Qed.

Lemma listing_length prefix children :
  length (listingOf prefix children) = list_sum (map countFiles children).
Proof. now apply (listing_length_bounded (sizes children)). Qed.

Section Served.
Variable fetchPage : string -> string -> PageResponse.

Lemma served_children l :
  foldr (fun c rest => served fetchPage c /\ rest) True l
  <-> Forall (served fetchPage) l.
Proof.
  induction l as [|t l IH]; simpl.
  - split; [constructor|trivial].
  - rewrite Forall_cons, IH. reflexivity.
Qed.

Lemma servedFrame_dirsOf prefix children :
  Forall (served fetchPage) children ->
  Forall (servedFrame fetchPage) (dirsOf prefix children).
Proof.
  induction 1 as [|t l Ht Hl IH]; [constructor|].
  destruct t as [item|item held]; [exact IH|].
  change (dirsOf prefix (Dir item held :: l))
    with (({| frame_id := it_id item;
              pathPrefix := qualify prefix (it_name item) |}, held)
            :: dirsOf prefix l).
  constructor; [|exact IH].
  destruct Ht as (_ & Hserves & Hheld).
  split; [exact Hserves|]. now apply served_children.
Qed.

(** One page: the folders are pushed, the files are appended under
    their paths. *)
Lemma visit_fold current trees :
  Forall (served fetchPage) trees ->
  forall stack allFiles,
    foldl (visit current) (stack, allFiles) (map itemOf trees)
    = (map fst (rev (dirsOf (pathPrefix current) trees)) ++ stack,
       allFiles ++ leaves (pathPrefix current) trees).
Proof.
  induction 1 as [|t l Ht Hl IH]; intros stack allFiles.
  - simpl. now rewrite app_nil_r.
  - cbn [map foldl]. destruct t as [item|item held].
    + cbn [itemOf]. unfold visit at 2. cbn [served] in Ht.
      apply String.eqb_neq in Ht. rewrite Ht. cbn [fst snd]. rewrite IH.
      change (dirsOf (pathPrefix current) (Leaf item :: l))
        with (dirsOf (pathPrefix current) l).
      change (leaves (pathPrefix current) (Leaf item :: l))
        with (withName (qualify (pathPrefix current) (it_name item)) item
                :: leaves (pathPrefix current) l).
      now rewrite <- app_assoc.
    + cbn [itemOf]. unfold visit at 2. destruct Ht as (Hmime & _).
      rewrite Hmime, String.eqb_refl. cbn [fst snd]. rewrite IH.
      change (dirsOf (pathPrefix current) (Dir item held :: l))
        with (({| frame_id := it_id item;
                  pathPrefix := qualify (pathPrefix current) (it_name item) |},
               held) :: dirsOf (pathPrefix current) l).
      change (leaves (pathPrefix current) (Dir item held :: l))
        with (leaves (pathPrefix current) l).
      cbn [rev]. rewrite map_app, <- app_assoc. reflexivity.
Qed.

(** The loops from the fetch of a page on: the rest of the current
    folder, then the folders of the stack, the top first. *)
Lemma listLoop_spec :
  forall N pages current token stack,
    sizes (concat pages) + stackSize stack <= N ->
    ServesPages fetchPage (frame_id current) token pages ->
    Forall (served fetchPage) (concat pages) ->
    Forall (servedFrame fetchPage) stack ->
    exists fuel0,
    forall fuel allFiles,
      fuel0 <= fuel ->
      listLoop fetchPage fuel current token (map fst stack) allFiles
      = Some (Listed (allFiles
                        ++ leaves (pathPrefix current) (concat pages)
                        ++ out (rev (dirsOf (pathPrefix current)
                                            (concat pages)) ++ stack))).
Proof.
  induction N as [N IHN] using lt_wf_ind.
  intros pages current token stack HN Hpages. revert stack HN.
  induction Hpages as [token trees files Hfetch Hfiles
                      |token trees files next rest Hfetch Hnext Hfiles
                         Hrest IH];
    intros stack HN Hserved Hstack.
  - cbn [concat] in *. rewrite app_nil_r in *.
    pose proof (servedFrame_dirsOf (pathPrefix current) trees Hserved)
      as Hdirs.
    pose proof (stackSize_dirsOf (pathPrefix current) trees) as Hsize.
    assert (Hstep : forall fuel allFiles,
               listLoop fetchPage (S fuel) current token (map fst stack)
                        allFiles
               = match map fst (rev (dirsOf (pathPrefix current) trees))
                       ++ map fst stack with
                 | [] => Some (Listed (allFiles
                                         ++ leaves (pathPrefix current) trees))
                 | next :: rest =>
                     listLoop fetchPage fuel next EmptyString rest
                              (allFiles ++ leaves (pathPrefix current) trees)
                 end).
    { intros fuel allFiles. cbn [listLoop].
      destruct Hfetch as [-> | ->]; cbv zeta; rewrite Hfiles, visit_fold
        by exact Hserved; reflexivity. }
    remember (rev (dirsOf (pathPrefix current) trees) ++ stack) as todo
      eqn:Htodo.
    assert (Htodo' : map fst (rev (dirsOf (pathPrefix current) trees))
                       ++ map fst stack = map fst todo)
      by (subst todo; now rewrite map_app).
    assert (Hall : Forall (servedFrame fetchPage) todo).
    { subst todo. apply Forall_app. split; [|exact Hstack].
      now apply Forall_rev. }
    assert (Hbound : stackSize todo <= N).
    { subst todo. rewrite stackSize_app, stackSize_rev. lia. }
    destruct todo as [|[next held] rest].
    + exists 1. intros fuel allFiles Hfuel.
      destruct fuel as [|fuel]; [lia|].
      rewrite Hstep, Htodo'. cbn [map]. unfold out. cbn [map concat].
      now rewrite app_nil_r.
    + apply Forall_cons in Hall as [[(pages' & Hcat & Hserves) Hheld] Hrest].
      cbn [fst snd] in *. subst held.
      rewrite stackSize_cons in Hbound.
      destruct (IHN (sizes (concat pages') + stackSize rest)
                    ltac:(lia)
                    pages' next EmptyString rest (Nat.le_refl _)
                    Hserves Hheld Hrest) as (fuel0 & Hfuel0).
      exists (S fuel0). intros fuel allFiles Hfuel.
      destruct fuel as [|fuel]; [lia|].
      rewrite Hstep, Htodo'. cbn [map fst].
      rewrite Hfuel0 by lia. rewrite out_cons, listingOf_out, out_app.
      now rewrite <- !app_assoc.
  - cbn [concat] in *.
    apply Forall_app in Hserved as [Htrees Hothers].
    destruct (IH (rev (dirsOf (pathPrefix current) trees) ++ stack))
      as (fuel0 & Hfuel0).
    + rewrite stackSize_app, stackSize_rev.
      pose proof (stackSize_dirsOf (pathPrefix current) trees).
      rewrite sizes_app in HN. lia.
    + exact Hothers.
    + apply Forall_app. split; [|exact Hstack].
      apply Forall_rev. now apply servedFrame_dirsOf.
    + exists (S fuel0). intros fuel allFiles Hfuel.
      destruct fuel as [|fuel]; [lia|].
      cbn [listLoop]. rewrite Hfetch. cbv zeta.
      rewrite Hfiles, visit_fold by exact Htrees.
      cbn [orEmptyToken fst snd]. rewrite Hnext.
      rewrite <- map_app, Hfuel0 by lia.
      rewrite leaves_app, dirsOf_app, rev_app_distr.
      now rewrite <- !app_assoc.
Qed.

End Served.

(** X29.  With a token, [listFilesInFolder] walks the whole tree of a
    project folder that Drive serves, however the entries are cut
    into pages: given time for every page, it returns the files of
    the folder itself under their names, then the files of its
    subfolders, the subfolder listed last first, each file under its
    path from the project folder with [/] between the names.  The
    answer has as many entries as the tree has files: folders are
    walked, not returned. *)
Theorem listing_follows_the_tree fetchPage token folderId children :
  Net.truthy token = true ->
  servesFolder fetchPage folderId children ->
  Forall (served fetchPage) children ->
  length (listingOf EmptyString children)
  = list_sum (map countFiles children) /\
  exists fuel0,
  forall fuel,
    fuel0 <= fuel ->
    listFilesInFolder fetchPage fuel (Some token) folderId
    = Some (Listed (listingOf EmptyString children)).
Proof.
  intros Htoken (pages & Hcat & Hpages) Hserved.
  split; [apply listing_length|]. subst children.
  destruct (listLoop_spec fetchPage _ pages
              {| frame_id := folderId; pathPrefix := EmptyString |}
              EmptyString [] (Nat.le_refl _) Hpages Hserved
              (Forall_nil_2 _)) as (fuel0 & Hfuel0).
  exists fuel0. intros fuel Hfuel. unfold listFilesInFolder.
  rewrite Htoken. change (@nil Frame) with (map fst (@nil (Frame * list Tree))).
  rewrite Hfuel0 by exact Hfuel.
  cbn [pathPrefix]. rewrite app_nil_r, listingOf_out. reflexivity.
Qed.

Lemma listing_follows_the_tree_witness :
  exists fuel0,
  forall fuel,
    fuel0 <= fuel ->
    listFilesInFolder exampleFetch fuel (Some "ya29.token") "root"
    = Some (Listed (listingOf EmptyString exampleTree)).
Proof.
  apply (fun a b => proj2 (listing_follows_the_tree exampleFetch
                             "ya29.token" "root" exampleTree eq_refl a b)).
  - exists [[Leaf (exampleItem "id-p" "promo.prproj"
                               "application/octet-stream");
             Dir (exampleItem "id-m" "media" folderMime)
                 [Leaf (exampleItem "id-c" "clip.mov" "video/quicktime")]];
            [Leaf (exampleItem "id-n" "notes.txt" "text/plain")]].
    split; [reflexivity|].
    eapply serves_more; [reflexivity|reflexivity|reflexivity|].
    eapply serves_last; [left; reflexivity|reflexivity].
  - repeat constructor; try discriminate.
    exists [[Leaf (exampleItem "id-c" "clip.mov" "video/quicktime")]].
    split; [reflexivity|].
    eapply serves_last; [left; reflexivity|reflexivity].
Defined.

(** The files of the project folder come first, those of [media]
    after them, under [media/]; a page that fails loses the whole
    listing; without a token nothing is fetched. *)
Example listing_examples :
  listFilesInFolder exampleFetch 3 (Some "ya29.token") "root"
  = Some (Listed
            [exampleItem "id-p" "promo.prproj" "application/octet-stream";
             exampleItem "id-n" "notes.txt" "text/plain";
             exampleItem "id-c" "media/clip.mov" "video/quicktime"]) /\
  listFilesInFolder exampleFetch 3 (Some "ya29.token") "gone"
  = Some (ListThrows "Failed to list files in folder: 404 File not found") /\
  listFilesInFolder exampleFetch 0 None "root"
  = Some (ListThrows "Not authenticated").
Proof. repeat split; reflexivity. Qed.

End DriveListingProofs.

(** * More properties of the push worker pool *)

Module PoolExtraProofs.
Import Pool PoolExtra.
Local Open Scope nat_scope.

Local Ltac fields :=
  cbn [nextFileIndex cancelled cancelledFiles fileStatus completedFiles
       uploadedFilesCount skippedFilesCount failedFilesCount
       cancelledFilesCount reportEntries workers].

Local Ltac fields_in H :=
  cbn [nextFileIndex cancelled cancelledFiles fileStatus completedFiles
       uploadedFilesCount skippedFilesCount failedFilesCount
       cancelledFilesCount reportEntries workers] in H.

Lemma inflight_cons st ws :
  inflight (st :: ws) = match st with
                        | Awaiting i => i :: inflight ws
                        | _ => inflight ws
                        end.
Proof. now destruct st. Qed.

Lemma inflight_length ws : length (inflight ws) <= length ws.
Proof.
  induction ws as [|st ws IH]; [reflexivity|].
  rewrite inflight_cons. destruct st; simpl; lia.
Qed.

Lemma inflight_lookup ws w i :
  ws !! w = Some (Awaiting i) -> i ∈ inflight ws.
Proof.
  revert w.
  induction ws as [|st ws IH]; intros [|w] Hw; simpl in Hw;
    try discriminate.
  - injection Hw as ->. rewrite inflight_cons. left.
  - specialize (IH w Hw). rewrite inflight_cons.
    destruct st; auto. now right.
Qed.

(** A worker that goes back to the loop head, or returns, leaves no
    file in flight that was not. *)
Lemma inflight_released ws w old st :
  ws !! w = Some old ->
  (forall i, st <> Awaiting i) ->
  inflight (<[w := st]> ws) ⊆ inflight ws.
Proof.
  intros Hw Hst i Hi.
  pose proof (PoolProofs.inflight_insert ws w old st Hw) as Hp.
  assert (i ∈ inflight (<[w := st]> ws)
              ++ match old with Awaiting j => [j] | _ => [] end) as Hin
    by (apply elem_of_app; now left).
  rewrite Hp in Hin. apply elem_of_app in Hin as [Hin|Hin]; [exact Hin|].
  destruct st; try (now apply elem_of_nil in Hin). now elim (Hst i0).
Qed.

(** *** How many uploads run at once *)

(** X21.  At every moment of a batch at most three files are being
    uploaded, no file by two workers at once, and a file that is
    being uploaded is a file of the batch that has no report entry
    yet. *)
Theorem at_most_three_in_flight n upload modal schedule :
  let s := run n upload modal schedule (initial n) in
  length (inflight (workers s)) <= MAX_PARALLEL_UPLOADS /\
  NoDup (inflight (workers s)) /\
  (forall i, i ∈ inflight (workers s) ->
             i < n /\ i ∉ (reportEntries s).*1).
Proof.
  intros s.
  pose proof (PoolProofs.inv_run n upload modal schedule (initial n)
                (PoolProofs.inv_initial n)) as Hinv.
  fold s in Hinv.
  destruct Hinv as [_ _ _ _ _ _ Hfiles _ Hws].
  assert (Hnd : NoDup ((reportEntries s).*1 ++ inflight (workers s)))
    by (rewrite Hfiles; apply NoDup_seq).
  apply NoDup_app in Hnd as (_ & Hdisj & Hnd).
  split; [|split; [exact Hnd|]].
  - pose proof (inflight_length (workers s)). lia.
  - intros i Hi. split.
    + assert (i ∈ seq 0 (Nat.min (nextFileIndex s) n)) as Hin
        by (rewrite <- Hfiles; apply elem_of_app; now right).
      apply elem_of_seq in Hin. lia.
    + intros Hin. exact (Hdisj i Hin Hi).
Qed.

Lemma at_most_three_in_flight_witness :
  let s := run 4 (fun _ => Uploaded) true [Resume 0; Resume 1] (initial 4) in
  0 < 4 /\ 0 ∉ (reportEntries s).*1.
Proof.
  intros s.
  apply (proj2 (proj2 (at_most_three_in_flight 4 (fun _ => Uploaded) true
                         [Resume 0; Resume 1])) 0).
  vm_compute. repeat constructor.
Defined.

(** *** What the report says *)

Lemma faithful_frame upload s s' :
  reportEntries s' = reportEntries s ->
  (cancelled s = true -> cancelled s' = true) ->
  cancelledFiles s ⊆ cancelledFiles s' ->
  reportFaithful upload s -> reportFaithful upload s'.
Proof.
  unfold reportFaithful. intros -> Hc Hcf Hf.
  eapply Forall_impl; [exact Hf|]. intros [i r]. unfold entryFaithful. simpl.
  destruct r; auto. intros [H|H]; [left; auto|right; set_solver].
Qed.

Lemma faithful_step n upload modal a s :
  reportFaithful upload s ->
  reportFaithful upload (step n upload modal a s).
Proof.
  intros Hf. destruct a as [w| |i]; simpl.
  - destruct (workers s !! w) as [[|i|]|] eqn:Hw; try exact Hf.
    + rewrite PoolProofs.workerHead_cases.
      destruct (cancelled s) eqn:Hc;
        [now apply (faithful_frame upload s); fields; auto|].
      destruct (n <=? nextFileIndex s);
        [apply (faithful_frame upload s); fields; auto; congruence|].
      destruct (bool_decide (nextFileIndex s ∈ cancelledFiles s)) eqn:Hin.
      * apply bool_decide_eq_true in Hin.
        unfold reportFaithful in *. fields. apply Forall_app. split.
        -- eapply Forall_impl; [exact Hf|]. intros [j r].
           unfold entryFaithful. fields. now rewrite Hc.
        -- constructor; [|constructor]. unfold entryFaithful. simpl.
           now right.
      * apply (faithful_frame upload s); fields; auto; congruence.
    + unfold processSettle, setItemStatus, setWorker, setStatus, record.
      unfold reportFaithful in *.
      assert (Hkeep : forall cf fs cmp u sk fl cn ws e,
                 entryFaithful upload s e ->
                 entryFaithful upload
                   (mkState (nextFileIndex s) (cancelled s)
                            (cancelledFiles s) fs cmp u sk fl cn
                            cf ws) e).
      { intros ? ? ? ? ? ? ? ? [j r]. unfold entryFaithful. now fields. }
      destruct (upload i) eqn:Hu;
        [destruct modal|destruct modal
        |destruct (cancelled s || bool_decide (i ∈ cancelledFiles s))
           eqn:Hcan; destruct modal];
        fields; apply Forall_app;
        (split; [eapply Forall_impl; [exact Hf|]; intros e He;
                 now apply Hkeep
                |constructor; [|constructor]; unfold entryFaithful; simpl;
                 fields; auto]).
      all: apply orb_true_iff in Hcan as [Hcan|Hcan];
        [now left|right; now apply bool_decide_eq_true in Hcan].
  - destruct modal; [|exact Hf].
    apply (faithful_frame upload s); unfold cancelAll; fields; auto.
  - destruct (modal && (i <? n)); [|exact Hf].
    unfold cancelFile.
    destruct (fileStatus s !! i) as [[]|]; try exact Hf;
      apply (faithful_frame upload s); unfold setStatus; fields; auto;
      set_solver.
Qed.

(** X22.  Every entry of the report tells what happened: a file reported
    as uploaded, skipped or failed is a file whose upload ended that
    way, and a file reported as cancelled is one the user cancelled,
    alone or with "Cancel All".  A file whose upload ended well is
    reported as such even when its cancel button was pressed in the
    meantime. *)
Theorem report_is_faithful n upload modal schedule :
  let s := run n upload modal schedule (initial n) in
  reportFaithful upload s.
Proof.
  intros s. subst s.
  assert (H : forall s0, reportFaithful upload s0 ->
                         reportFaithful upload
                           (run n upload modal schedule s0)).
  { induction schedule as [|a schedule IH]; intros s0 H0; simpl;
      [exact H0|].
    apply IH. now apply faithful_step. }
  apply H. constructor.
Qed.


(** *** Cancelling one file before its turn *)

Lemma run_app n upload modal l1 l2 s :
  run n upload modal (l1 ++ l2) s
  = run n upload modal l2 (run n upload modal l1 s).
Proof. unfold run. apply foldl_app. Qed.

Lemma settledTaken_step n upload modal a s :
  Inv n s -> settledTaken s -> settledTaken (step n upload modal a s).
Proof.
  intros Hinv Ht. destruct a as [w| |i]; simpl.
  - destruct (workers s !! w) as [[|i|]|] eqn:Hw; try exact Ht.
    + rewrite PoolProofs.workerHead_cases.
      destruct (cancelled s); [exact Ht|].
      destruct (n <=? nextFileIndex s);
        [intros j st Hj Hst; fields_in Hj; fields;
         specialize (Ht j st Hj Hst); lia|].
      destruct (bool_decide _).
      * intros j st Hj Hst. fields_in Hj. fields.
        specialize (Ht j st Hj Hst). lia.
      * intros j st Hj Hst. fields_in Hj. fields.
        destruct (decide (nextFileIndex s = j)) as [<-|Hne]; [lia|].
        rewrite lookup_insert_ne in Hj by assumption.
        specialize (Ht j st Hj Hst). lia.
    + assert (Hi : i < nextFileIndex s).
      { destruct Hinv as [_ _ _ _ _ _ Hfiles _ _].
        assert (i ∈ seq 0 (Nat.min (nextFileIndex s) n)) as Hin.
        { rewrite <- Hfiles. apply elem_of_app. right.
          eapply inflight_lookup, Hw. }
        apply elem_of_seq in Hin. lia. }
      unfold processSettle, setItemStatus, setWorker, setStatus, record.
      intros j st Hj Hst.
      destruct (upload i);
        [destruct modal|destruct modal
        |destruct (cancelled s || bool_decide (i ∈ cancelledFiles s));
         destruct modal];
        fields_in Hj; fields;
        try (exact (Ht j st Hj Hst));
        (destruct (decide (i = j)) as [<-|Hne]; [exact Hi|];
         rewrite lookup_insert_ne in Hj by assumption;
         exact (Ht j st Hj Hst)).
  - destruct modal; [|exact Ht]. exact Ht.
  - destruct (modal && (i <? n)); [|exact Ht].
    unfold cancelFile.
    destruct (fileStatus s !! i) as [[]|] eqn:Hi; try exact Ht;
      unfold setStatus; intros j st Hj Hst; fields_in Hj; fields;
      (destruct (decide (i = j)) as [<-|Hne];
       [rewrite lookup_insert_eq in Hj; injection Hj as <-;
        destruct Hst; discriminate
       |rewrite lookup_insert_ne in Hj by assumption;
        exact (Ht j st Hj Hst)]).
Qed.

Lemma settledTaken_run n upload modal schedule :
  forall s, Inv n s -> settledTaken s ->
            settledTaken (run n upload modal schedule s).
Proof.
  induction schedule as [|a schedule IH]; intros s Hinv Ht; simpl;
    [exact Ht|].
  apply IH; [now apply PoolProofs.inv_step|now apply settledTaken_step].
Qed.

Lemma cancelledEarly_step n upload modal a i s :
  CancelledEarly i s -> CancelledEarly i (step n upload modal a s).
Proof.
  intros [Hc Hnf He]. destruct a as [w| |j]; simpl.
  - destruct (workers s !! w) as [[|j|]|] eqn:Hw;
      try (now constructor).
    + rewrite PoolProofs.workerHead_cases.
      destruct (cancelled s).
      { constructor; fields; auto. intros Hin. apply Hnf.
        eapply inflight_released; eauto. discriminate. }
      destruct (n <=? nextFileIndex s).
      { constructor; fields; auto. intros Hin. apply Hnf.
        eapply inflight_released; eauto. discriminate. }
      destruct (bool_decide (nextFileIndex s ∈ cancelledFiles s)) eqn:Hin.
      * constructor; fields; auto.
        -- intros Hin'. apply Hnf.
           eapply inflight_released; eauto. discriminate.
        -- intros r [Hr|Hr]%elem_of_app; [auto|].
           apply list_elem_of_singleton in Hr. congruence.
      * apply bool_decide_eq_false in Hin.
        constructor; fields; auto.
        intros Hin'.
        pose proof (PoolProofs.inflight_insert (workers s) w AtLoopHead
                      (Awaiting (nextFileIndex s)) Hw) as Hp.
        rewrite app_nil_r in Hp. rewrite Hp in Hin'.
        apply elem_of_app in Hin' as [Hin'|Hin']; [auto|].
        apply list_elem_of_singleton in Hin'. congruence.
    + assert (Hne : j <> i).
      { intros ->. apply Hnf. eapply inflight_lookup, Hw. }
      unfold processSettle, setItemStatus, setWorker, setStatus, record.
      destruct (upload j);
        [destruct modal|destruct modal
        |destruct (cancelled s || bool_decide (j ∈ cancelledFiles s));
         destruct modal];
        constructor; fields; auto;
        try (intros Hin; apply Hnf;
             eapply inflight_released; eauto; discriminate);
        intros r [Hr|Hr]%elem_of_app; auto;
        apply list_elem_of_singleton in Hr; congruence.
  - destruct modal; now constructor.
  - destruct (modal && (j <? n)); [|now constructor].
    unfold cancelFile.
    destruct (fileStatus s !! j) as [[]|]; try (now constructor);
      unfold setStatus; constructor; fields; auto; set_solver.
Qed.

Lemma cancelledEarly_run n upload modal schedule i :
  forall s, CancelledEarly i s ->
            CancelledEarly i (run n upload modal schedule s).
Proof.
  induction schedule as [|a schedule IH]; intros s H; simpl; [exact H|].
  apply IH. now apply cancelledEarly_step.
Qed.

(** X23.  A file whose cancel button is pressed before a worker has taken
    it is never uploaded: from then on it is never in flight, the
    only entry it can get is "cancelled", and it has that entry when
    the batch ends without "Cancel All". *)
Theorem cancel_before_start_prevents_upload n upload before after i :
  i < n ->
  nextFileIndex (run n upload true before (initial n)) <= i ->
  let s := run n upload true (before ++ ClickCancelFile i :: after)
               (initial n) in
  (i ∉ inflight (workers s)) /\
  (forall r, (i, r) ∈ reportEntries s -> r = RCancelled) /\
  (allFinished s = true -> cancelled s = false ->
   (i, RCancelled) ∈ reportEntries s).
Proof.
  intros Hi Hnext s. subst s.
  rewrite run_app. set (s0 := run n upload true before (initial n)) in *.
  pose proof (PoolProofs.inv_run n upload true before (initial n)
                (PoolProofs.inv_initial n)) as Hinv0. fold s0 in Hinv0.
  assert (Ht0 : settledTaken s0).
  { apply settledTaken_run; [apply PoolProofs.inv_initial|].
    intros j st Hj. discriminate. }
  change (run n upload true (ClickCancelFile i :: after) s0)
    with (run n upload true after (step n upload true (ClickCancelFile i) s0)).
  assert (Hfresh : i ∉ (reportEntries s0).*1 ++ inflight (workers s0)).
  { destruct Hinv0 as [_ _ _ _ _ _ Hfiles _ _]. rewrite Hfiles.
    intros Hin%elem_of_seq. lia. }
  assert (Hearly : CancelledEarly i (step n upload true (ClickCancelFile i) s0)).
  { simpl. apply Nat.ltb_lt in Hi as Hi'. rewrite Hi'. unfold cancelFile.
    assert (Hdo : CancelledEarly i
              (setStatus i CancelledFile
                 (mkState (nextFileIndex s0) (cancelled s0)
                    ({[i]} ∪ cancelledFiles s0) (fileStatus s0)
                    (completedFiles s0) (uploadedFilesCount s0)
                    (skippedFilesCount s0) (failedFilesCount s0)
                    (cancelledFilesCount s0) (reportEntries s0)
                    (workers s0)))).
    { unfold setStatus. constructor; fields.
      - set_solver.
      - intros Hin. apply Hfresh, elem_of_app. now right.
      - intros r Hr. exfalso. apply Hfresh, elem_of_app. left.
        apply list_elem_of_fmap. now exists (i, r). }
    destruct (fileStatus s0 !! i) as [st|] eqn:Hst; [|exact Hdo].
    destruct st; try exact Hdo; exfalso;
      [pose proof (Ht0 i _ Hst (or_introl eq_refl))
      |pose proof (Ht0 i _ Hst (or_intror eq_refl))]; lia. }
  pose proof (cancelledEarly_run n upload true after i _ Hearly)
    as [Hc Hnf He].
  split; [exact Hnf|]. split; [exact He|].
  intros Hall Hno.
  assert (Hinv : Inv n (run n upload true after
                          (step n upload true (ClickCancelFile i) s0))).
  { apply PoolProofs.inv_run. now apply PoolProofs.inv_step. }
  pose proof (PoolProofs.finished_entries n _ Hinv Hall Hno) as Hperm.
  assert (Hin : i ∈ (reportEntries (run n upload true after
                       (step n upload true (ClickCancelFile i) s0))).*1).
  { rewrite Hperm. apply elem_of_seq. lia. }
  apply list_elem_of_fmap in Hin as ([j r] & Hj & Hin). simpl in Hj.
  subst j. now rewrite <- (He r Hin).
Qed.

Lemma cancel_before_start_prevents_upload_witness :
  let s := run 4 (fun _ => Uploaded) true
               ([Resume 0; Resume 1] ++ ClickCancelFile 3 ::
                [Resume 2; Resume 0; Resume 1; Resume 2; Resume 0;
                 Resume 1; Resume 2; Resume 0; Resume 1; Resume 2])
               (initial 4) in
  (3, RCancelled) ∈ reportEntries s.
Proof.
  intros s.
  apply (proj2 (proj2 (cancel_before_start_prevents_upload 4
                         (fun _ => Uploaded) [Resume 0; Resume 1]
                         [Resume 2; Resume 0; Resume 1; Resume 2; Resume 0;
                          Resume 1; Resume 2; Resume 0; Resume 1; Resume 2] 3
                         ltac:(lia) ltac:(vm_compute; lia))));
    vm_compute; reflexivity.
Defined.

(** *** Cancel All *)

Lemma stopped_settle s0 s i r ws cf fs cmp u sk fl cn :
  Stopped s0 s ->
  i ∈ inflight (workers s0) ->
  r <> RFailed ->
  inflight ws ⊆ inflight (workers s) ->
  Stopped s0 (mkState (nextFileIndex s) (cancelled s) cf fs cmp u sk fl cn
                      (reportEntries s ++ [(i, r)]) ws).
Proof.
  intros [Hc Hn Hin (extra & He & Hall)] Hi Hr Hws.
  constructor; fields; auto.
  - etrans; [exact Hws|exact Hin].
  - exists (extra ++ [(i, r)]). split; [now rewrite He, <- app_assoc|].
    apply Forall_app. split; [exact Hall|].
    constructor; [|constructor]. simpl. now split.
Qed.

Lemma stopped_frame s0 s next cf fs ws :
  Stopped s0 s ->
  next = nextFileIndex s ->
  inflight ws ⊆ inflight (workers s) ->
  Stopped s0 (mkState next true cf fs (completedFiles s)
                      (uploadedFilesCount s) (skippedFilesCount s)
                      (failedFilesCount s) (cancelledFilesCount s)
                      (reportEntries s) ws).
Proof.
  intros [Hc Hn Hin Hex] -> Hws. constructor; fields; auto.
  etrans; [exact Hws|exact Hin].
Qed.

Lemma stopped_step n upload a s0 s :
  Inv n s -> Stopped s0 s -> Stopped s0 (step n upload true a s).
Proof.
  intros Hinv Hs. pose proof (st_flag _ _ Hs) as Hc.
  destruct a as [w| |i]; simpl.
  - destruct (workers s !! w) as [[|i|]|] eqn:Hw; try exact Hs.
    + rewrite PoolProofs.workerHead_cases, Hc.
      apply stopped_frame; [exact Hs|reflexivity|].
      eapply inflight_released; [exact Hw|discriminate].
    + assert (Hi : i ∈ inflight (workers s0)).
      { apply (st_inflight _ _ Hs). eapply inflight_lookup, Hw. }
      assert (Hrel : inflight (<[w := AtLoopHead]> (workers s))
                     ⊆ inflight (workers s)).
      { eapply inflight_released; [exact Hw|discriminate]. }
      unfold processSettle, setItemStatus, setWorker, setStatus, record.
      replace (cancelled s || bool_decide (i ∈ cancelledFiles s))
        with true by now rewrite Hc.
      destruct (upload i); fields;
        apply stopped_settle; auto; discriminate.
  - unfold cancelAll. now apply stopped_frame.
  - destruct (i <? n); [|exact Hs].
    unfold cancelFile.
    destruct (fileStatus s !! i) as [[]|]; try exact Hs;
      unfold setStatus; fields; rewrite Hc; now apply stopped_frame.
Qed.

(** X24.  Once "Cancel All" is pressed no further upload starts: no file is
    taken from the queue any more, the files in flight are among
    those that were, and the only entries the report still gets are
    for files that were in flight, as uploaded or skipped when their
    upload ended well in spite of the abort, else as cancelled and
    never as failed. *)
Theorem no_upload_starts_after_cancel_all n upload before after :
  let s0 := run n upload true before (initial n) in
  let s := run n upload true (before ++ ClickCancelAll :: after)
               (initial n) in
  Stopped s0 s.
Proof.
  intros s0 s. subst s. rewrite run_app. fold s0.
  change (run n upload true (ClickCancelAll :: after) s0)
    with (run n upload true after (cancelAll s0)).
  assert (Hinv0 : Inv n (cancelAll s0)).
  { apply PoolProofs.Inv_cancelAll.
    apply PoolProofs.inv_run, PoolProofs.inv_initial. }
  assert (H0 : Stopped s0 (cancelAll s0)).
  { constructor; unfold cancelAll; fields; auto.
    exists []. now rewrite app_nil_r. }
  clearbody s0. revert H0 Hinv0. generalize (cancelAll s0).
  induction after as [|a after IH]; intros s Hs Hinv; simpl; [exact Hs|].
  apply IH; [now apply stopped_step|now apply PoolProofs.inv_step].
Qed.

End PoolExtraProofs.
